(** * The antigravity account manager: rate-limit classification, cool-down
      policy, account registry, rotation queue, scheduler and per-account
      lock.

    A shallow embedding of [services/antigravity/account-manager.ts] and
    the properties of it that the design document states.

    Conventions of the embedding.
    - A JavaScript string is a Rocq [string]: a sequence of 8-bit units,
      read as ASCII (or UTF-8 encoded) text.  [toLowerCase] maps the letters
      A-Z and [trim] strips the ASCII white space; every keyword the manager
      looks for is ASCII.
    - Epoch milliseconds, durations and HTTP status codes are [Z]; quota
      percentages are [Q].
    - [number | null] is [option Z]; JavaScript truthiness of such a value
      ([null] and [0] are falsy) is written out as [truthy], that of an
      optional string ([undefined] and the empty string are falsy) as
      [given].
    - The [Map] of accounts keeps insertion order, which the code relies on
      ([Array.from(this.accounts.keys())], iteration by email), so it is an
      association list; the per-account [Map] of category limits and the
      [Set] of in-flight ids, whose order is never observed, are a [gmap]
      and a [gset].  An account object is reached through the registry
      only, so a mutation of it is an update of its registry entry.
    - What the manager reads from outside (the clock, the roster file, the
      credential store, the OAuth endpoints, the quota cache, the settings)
      is passed in as an argument or gathered in the records [Env] and
      [ErrorContext]; what it writes outside (the roster file through
      [save], the credential store, the log) is not part of its state.
    - A method runs as one step, without other calls of the manager in
      between.  The exception is [acquireAccountLock], whose suspension
      points are the subject of [Guard].

    Beside the account manager the development embeds the modules it
    leans on: the quota blacklist ([services/quota-blacklist.ts]), the
    list of disabled accounts of the routing configuration
    ([services/routing/config.ts]), the normalization of model names, and
    the log capture buffer ([lib/log-buffer.ts]).  Their module-level
    variables are passed in and returned like the manager's fields. *)

From Stdlib Require Import ZArith QArith String Ascii List Bool Lia.
From stdpp Require Import base decidable countable gmap strings list.

#[local] Set Warnings "-register-all".

Local Open Scope string_scope.
Local Open Scope Z_scope.

(** ** JavaScript string primitives *)

Module Str.

Definition isUpper (c : ascii) : bool :=
  let n := N_of_ascii c in ((65 <=? n) && (n <=? 90))%N.

Definition lowerChar (c : ascii) : ascii :=
  if isUpper c then ascii_of_N (N_of_ascii c + 32) else c.

(** [s.toLowerCase()] *)
Fixpoint toLowerCase (s : string) : string :=
  match s with
  | EmptyString => EmptyString
  | String c r => String (lowerChar c) (toLowerCase r)
  end.

(** [s.startsWith(p)] *)
Fixpoint startsWith (s p : string) {struct p} : bool :=
  match p, s with
  | EmptyString, _ => true
  | String _ _, EmptyString => false
  | String a p', String b s' => Ascii.eqb a b && startsWith s' p'
  end.

(** [s.includes(t)]: [t] occurs in [s] as a contiguous run. *)
Fixpoint includes (s t : string) : bool :=
  startsWith s t ||
  match s with
  | EmptyString => false
  | String _ r => includes r t
  end.

(** White space removed by [trim]: TAB, LF, VT, FF, CR and SPACE. *)
Definition isSpace (c : ascii) : bool :=
  let n := N_of_ascii c in ((9 <=? n) && (n <=? 13) || (n =? 32))%N.

Fixpoint trimStart (s : string) : string :=
  match s with
  | EmptyString => EmptyString
  | String c r => if isSpace c then trimStart r else s
  end.

(** [trimEnd] keeps a character when it is not white space or when
    something is kept after it. *)
Fixpoint trimEnd (s : string) : string :=
  match s with
  | EmptyString => EmptyString
  | String c r =>
      match trimEnd r with
      | EmptyString => if isSpace c then EmptyString else String c EmptyString
      | r' => String c r'
      end
  end.

(** [s.trim()] *)
Definition trim (s : string) : string := trimEnd (trimStart s).

End Str.

(** ** Reasons and the cool-down policy *)

Inductive RateLimitReason : Set :=
| quota_exhausted
| rate_limit_exceeded
| model_capacity_exhausted
| server_error
| unknown.

Definition RateLimitReason_eqb (a b : RateLimitReason) : bool :=
  match a, b with
  | quota_exhausted, quota_exhausted
  | rate_limit_exceeded, rate_limit_exceeded
  | model_capacity_exhausted, model_capacity_exhausted
  | server_error, server_error
  | unknown, unknown => true
  | _, _ => false
  end.

(** [defaultRateLimitMs(reason, failures)]; the calls to the logger are
    left out. *)
Definition defaultRateLimitMs (reason : RateLimitReason) (failures : Z) : Z :=
  match reason with
  | quota_exhausted =>
      if failures <=? 1 then 5 * 60000
      else if failures =? 2 then 15 * 60000
      else if failures =? 3 then 60 * 60000
      else 2 * 60 * 60000
  | rate_limit_exceeded => 30000
  | model_capacity_exhausted => 15000
  | server_error => 20000
  | unknown => 60000
  end.

Definition RESET_TIME_BUFFER_MS : Z := 2000.

(** ** JSON values and [JSON.parse] *)

Module Json.

(** A parsed JSON value.  A number keeps its lexeme: the manager never
    computes with one.  An object keeps its members in source order. *)
Inductive json : Type :=
| JNull
| JBool (b : bool)
| JNumber (lexeme : string)
| JString (s : string)
| JArray (items : list json)
| JObject (members : list (string * json)).

(** Result of a parsing function: a value and the unread input, a syntax
    error ([JSON.parse] throws), or recursion budget used up. *)
Inductive parsed (A : Type) : Type :=
| POk (a : A) (rest : string)
| PSyntaxError
| POutOfFuel.
Arguments POk {A} a rest.
Arguments PSyntaxError {A}.
Arguments POutOfFuel {A}.

(** JSON white space: SPACE, TAB, LF, CR. *)
Definition isWs (c : ascii) : bool :=
  let n := N_of_ascii c in ((n =? 32) || (n =? 9) || (n =? 10) || (n =? 13))%N.

Fixpoint skipWs (s : string) : string :=
  match s with
  | EmptyString => EmptyString
  | String c r => if isWs c then skipWs r else s
  end.

Definition isDigit (c : ascii) : bool :=
  let n := N_of_ascii c in ((48 <=? n) && (n <=? 57))%N.

Definition hexValue (c : ascii) : option N :=
  let n := N_of_ascii c in
  if ((48 <=? n) && (n <=? 57))%N then Some (n - 48)%N
  else if ((97 <=? n) && (n <=? 102))%N then Some (n - 87)%N
  else if ((65 <=? n) && (n <=? 70))%N then Some (n - 55)%N
  else None.

(** The code unit named by [\uXXXX], written as UTF-8. *)
Definition utf8 (n : N) (tail : string) : string :=
  if (n <? 128)%N then String (ascii_of_N n) tail
  else if (n <? 2048)%N then
    String (ascii_of_N (192 + n / 64))
      (String (ascii_of_N (128 + n mod 64)) tail)
  else
    String (ascii_of_N (224 + n / 4096))
      (String (ascii_of_N (128 + (n / 64) mod 64))
         (String (ascii_of_N (128 + n mod 64)) tail)).

Definition simpleEscape (c : ascii) : option ascii :=
  let n := N_of_ascii c in
  if (n =? 34)%N then Some (ascii_of_N 34)        (* quotation mark *)
  else if (n =? 92)%N then Some (ascii_of_N 92)   (* reverse solidus *)
  else if (n =? 47)%N then Some (ascii_of_N 47)   (* solidus *)
  else if (n =? 98)%N then Some (ascii_of_N 8)    (* backspace *)
  else if (n =? 102)%N then Some (ascii_of_N 12)  (* form feed *)
  else if (n =? 110)%N then Some (ascii_of_N 10)  (* line feed *)
  else if (n =? 114)%N then Some (ascii_of_N 13)  (* carriage return *)
  else if (n =? 116)%N then Some (ascii_of_N 9)   (* tab *)
  else None.

(** The characters of a string literal after its opening quote, up to and
    including the closing quote. *)
Fixpoint parseChars (s : string) : option (string * string) :=
  match s with
  | EmptyString => None
  | String c r =>
      let n := N_of_ascii c in
      if (n =? 34)%N then Some (EmptyString, r)
      else if (n =? 92)%N then
        match r with
        | EmptyString => None
        | String e r1 =>
            if (N_of_ascii e =? 117)%N then
              match r1 with
              | String h1 (String h2 (String h3 (String h4 r2))) =>
                  match hexValue h1, hexValue h2, hexValue h3, hexValue h4 with
                  | Some a, Some b, Some c', Some d =>
                      match parseChars r2 with
                      | Some (str, rest) =>
                          Some (utf8 (((a * 16 + b) * 16 + c') * 16 + d)%N str, rest)
                      | None => None
                      end
                  | _, _, _, _ => None
                  end
              | _ => None
              end
            else
              match simpleEscape e with
              | Some x =>
                  match parseChars r1 with
                  | Some (str, rest) => Some (String x str, rest)
                  | None => None
                  end
              | None => None
              end
        end
      else if (n <? 32)%N then None
      else
        match parseChars r with
        | Some (str, rest) => Some (String c str, rest)
        | None => None
        end
  end.

Fixpoint takeDigits (s : string) : string * string :=
  match s with
  | EmptyString => (EmptyString, EmptyString)
  | String c r =>
      if isDigit c then let (d, rest) := takeDigits r in (String c d, rest)
      else (EmptyString, s)
  end.

(** [int frac? exp?] after an optional minus sign. *)
Definition parseUnsigned (s : string) : option (string * string) :=
  let (int, r0) := takeDigits s in
  match int with
  | EmptyString => None
  | String d more =>
      if (N_of_ascii d =? 48)%N && negb (String.eqb more EmptyString) then None
      else
        let fracPart :=
          match r0 with
          | String dot r1 =>
              if (N_of_ascii dot =? 46)%N then
                let (f, r2) := takeDigits r1 in
                match f with
                | EmptyString => None
                | _ => Some (String dot f, r2)
                end
              else Some (EmptyString, r0)
          | EmptyString => Some (EmptyString, r0)
          end in
        match fracPart with
        | None => None
        | Some (frac, r2) =>
            let expPart :=
              match r2 with
              | String e r3 =>
                  if (N_of_ascii e =? 101)%N || (N_of_ascii e =? 69)%N then
                    let (sign, r4) :=
                      match r3 with
                      | String sg r4 =>
                          if (N_of_ascii sg =? 43)%N || (N_of_ascii sg =? 45)%N
                          then (String sg EmptyString, r4)
                          else (EmptyString, r3)
                      | EmptyString => (EmptyString, r3)
                      end in
                    let (ds, r5) := takeDigits r4 in
                    match ds with
                    | EmptyString => None
                    | _ => Some (String e (sign ++ ds), r5)
                    end
                  else Some (EmptyString, r2)
              | EmptyString => Some (EmptyString, r2)
              end in
            match expPart with
            | None => None
            | Some (ex, r5) => Some (int ++ frac ++ ex, r5)
            end
        end
  end.

Definition parseNumber (s : string) : option (string * string) :=
  match s with
  | String c r =>
      if (N_of_ascii c =? 45)%N then
        match parseUnsigned r with
        | Some (lex, rest) => Some (String c lex, rest)
        | None => None
        end
      else parseUnsigned s
  | EmptyString => None
  end.

(** A literal [true], [false] or [null]. *)
Fixpoint dropPrefix (p s : string) : option string :=
  match p, s with
  | EmptyString, _ => Some s
  | String a p', String b s' => if Ascii.eqb a b then dropPrefix p' s' else None
  | String _ _, EmptyString => None
  end.

Fixpoint parseValue (fuel : nat) (s : string) : parsed json :=
  match fuel with
  | O => POutOfFuel
  | S f =>
      match skipWs s with
      | EmptyString => PSyntaxError
      | String c r =>
          let n := N_of_ascii c in
          if (n =? 123)%N then                      (* { *)
            match skipWs r with
            | String c1 r1 =>
                if (N_of_ascii c1 =? 125)%N then POk (JObject []) r1
                else parseMembers f r []
            | EmptyString => PSyntaxError
            end
          else if (n =? 91)%N then                  (* [ *)
            match skipWs r with
            | String c1 r1 =>
                if (N_of_ascii c1 =? 93)%N then POk (JArray []) r1
                else parseElements f r []
            | EmptyString => PSyntaxError
            end
          else if (n =? 34)%N then                  (* string *)
            match parseChars r with
            | Some (str, rest) => POk (JString str) rest
            | None => PSyntaxError
            end
          else if (n =? 116)%N then
            match dropPrefix "true" (String c r) with
            | Some rest => POk (JBool true) rest
            | None => PSyntaxError
            end
          else if (n =? 102)%N then
            match dropPrefix "false" (String c r) with
            | Some rest => POk (JBool false) rest
            | None => PSyntaxError
            end
          else if (n =? 110)%N then
            match dropPrefix "null" (String c r) with
            | Some rest => POk JNull rest
            | None => PSyntaxError
            end
          else
            match parseNumber (String c r) with
            | Some (lex, rest) => POk (JNumber lex) rest
            | None => PSyntaxError
            end
      end
  end

(** Elements of an array after [[] or a comma; [acc] is reversed. *)
with parseElements (fuel : nat) (s : string) (acc : list json) : parsed json :=
  match fuel with
  | O => POutOfFuel
  | S f =>
      match parseValue f s with
      | POk v r =>
          match skipWs r with
          | String c r1 =>
              if (N_of_ascii c =? 44)%N then parseElements f r1 (v :: acc)
              else if (N_of_ascii c =? 93)%N then POk (JArray (rev (v :: acc))) r1
              else PSyntaxError
          | EmptyString => PSyntaxError
          end
      | PSyntaxError => PSyntaxError
      | POutOfFuel => POutOfFuel
      end
  end

(** Members of an object after [{] or a comma; [acc] is reversed. *)
with parseMembers (fuel : nat) (s : string) (acc : list (string * json)) : parsed json :=
  match fuel with
  | O => POutOfFuel
  | S f =>
      match skipWs s with
      | String q r =>
          if (N_of_ascii q =? 34)%N then
            match parseChars r with
            | Some (key, r0) =>
                match skipWs r0 with
                | String colon r1 =>
                    if (N_of_ascii colon =? 58)%N then
                      match parseValue f r1 with
                      | POk v r2 =>
                          match skipWs r2 with
                          | String c r3 =>
                              if (N_of_ascii c =? 44)%N
                              then parseMembers f r3 ((key, v) :: acc)
                              else if (N_of_ascii c =? 125)%N
                              then POk (JObject (rev ((key, v) :: acc))) r3
                              else PSyntaxError
                          | EmptyString => PSyntaxError
                          end
                      | PSyntaxError => PSyntaxError
                      | POutOfFuel => POutOfFuel
                      end
                    else PSyntaxError
                | EmptyString => PSyntaxError
                end
            | None => PSyntaxError
            end
          else PSyntaxError
      | EmptyString => PSyntaxError
      end
  end.

(** [JSON.parse(text)]: [None] when it throws a [SyntaxError]. *)
Definition parse (text : string) : option json :=
  match parseValue (S (2 * String.length text)) text with
  | POk v rest =>
      match skipWs rest with
      | EmptyString => Some v
      | String _ _ => None
      end
  | PSyntaxError | POutOfFuel => None
  end.

(** [o[key]] on a parsed value: [None] is [undefined].  Only an object
    has own members; a repeated key keeps its last value. *)
Fixpoint lookupLast (key : string) (members : list (string * json)) : option json :=
  match members with
  | [] => None
  | (k, v) :: rest =>
      match lookupLast key rest with
      | Some w => Some w
      | None => if String.eqb k key then Some v else None
      end
  end.

Definition get (key : string) (v : option json) : option json :=
  match v with
  | Some (JObject members) => lookupLast key members
  | _ => None
  end.

End Json.

(** ** The rate-limit classifier *)

Module Classifier.
Import Json.

(** How the body of the [try] block ends: by a [return], by running to
    its end, or by an exception, which the empty [catch] swallows. *)
Inductive completion : Set :=
| Returned (r : RateLimitReason)
| Normal
| Thrown.

(** The three phrases checked before anything else, on a lowercased
    text. *)
Definition mentionsRateLimit (lower : string) : bool :=
  Str.includes lower "per minute" || Str.includes lower "rate limit"
  || Str.includes lower "too many requests".

(** The loop over [json.error.details]: the first entry whose [reason]
    is one of the three known strings decides. *)
Fixpoint detailsVerdict (details : list json) : option RateLimitReason :=
  match details with
  | [] => None
  | detail :: rest =>
      match get "reason" (Some detail) with
      | Some (JString reason) =>
          if String.eqb reason "QUOTA_EXHAUSTED" then Some quota_exhausted
          else if String.eqb reason "RATE_LIMIT_EXCEEDED" then Some rate_limit_exceeded
          else if String.eqb reason "MODEL_CAPACITY_EXHAUSTED" then Some model_capacity_exhausted
          else detailsVerdict rest
      | _ => detailsVerdict rest
      end
  end.

(** The part of the [try] block after [JSON.parse].  [msgLower] is
    declared by [const] inside the block of [if (typeof message ===
    "string")], so the later [msgLower.includes("quota")], which sits
    outside that block, names no binding: evaluating it raises a
    [ReferenceError] whenever [status === "RESOURCE_EXHAUSTED"] is
    reached. *)
Definition inspect (json : json) : completion :=
  let error := get "error" (Some json) in
  let fromDetails :=
    match get "details" error with
    | Some (JArray details) => detailsVerdict details
    | _ => None
    end in
  match fromDetails with
  | Some r => Returned r
  | None =>
      let fromMessage :=
        match get "message" error with
        | Some (JString message) =>
            mentionsRateLimit (Str.toLowerCase message)
        | _ => false
        end in
      if fromMessage then Returned rate_limit_exceeded
      else
        match get "status" error with
        | Some (JString status) =>
            if String.eqb status "RESOURCE_EXHAUSTED" then Thrown else Normal
        | _ => Normal
        end
  end.

(** The whole [if (trimmed.startsWith ...) { try { ... } catch { } }]. *)
Definition structured (errorText : string) : completion :=
  let trimmed := Str.trim errorText in
  if Str.startsWith trimmed "{" || Str.startsWith trimmed "[" then
    match parse trimmed with
    | Some json => inspect json
    | None => Thrown
    end
  else Normal.

(** The keyword scan that ends the function, on [errorText.toLowerCase()]. *)
Definition keywordScan (lower : string) : RateLimitReason :=
  if mentionsRateLimit lower then rate_limit_exceeded
  else if Str.includes lower "model_capacity" || Str.includes lower "capacity"
  then model_capacity_exhausted
  else if Str.includes lower "quota" then quota_exhausted
  else if Str.includes lower "exhausted" then rate_limit_exceeded
  else unknown.

(** [parseRateLimitReason(statusCode, errorText)] *)
Definition parseRateLimitReason (statusCode : Z) (errorText : string) : RateLimitReason :=
  if negb (statusCode =? 429) then
    if 500 <=? statusCode then server_error else unknown
  else
    match structured errorText with
    | Returned r => r
    | Normal | Thrown => keywordScan (Str.toLowerCase errorText)
    end.

End Classifier.

(** ** Model categories and accounts *)

Inductive ModelCategory : Set :=
| llm
| image
| unknownCategory.

#[global] Instance ModelCategory_eq_dec : EqDecision ModelCategory.
Proof. solve_decision. Defined.

#[global] Instance ModelCategory_countable : Countable ModelCategory.
Proof.
  refine (inj_countable'
            (fun c => match c with llm => 0%nat | image => 1%nat | unknownCategory => 2%nat end)
            (fun n => match n with 0%nat => llm | 1%nat => image | _ => unknownCategory end)
            _).
  by intros [].
Defined.

(** Truthiness of an optional string argument: [undefined] and the empty
    string are falsy. *)
Definition given (s : option string) : bool :=
  match s with
  | Some (String _ _) => true
  | _ => false
  end.

(** Truthiness of a [number | null]. *)
Definition truthy (v : option Z) : bool :=
  match v with
  | Some n => negb (n =? 0)
  | None => false
  end.

(** [getModelCategory(modelId)] *)
Definition getModelCategory (modelId : option string) : ModelCategory :=
  match modelId with
  | Some (String c r) =>
      let lower := Str.toLowerCase (String c r) in
      if Str.includes lower "image" || Str.includes lower "imagen" then image
      else if Str.includes lower "claude" || Str.includes lower "gpt"
              || Str.includes lower "gemini" || Str.includes lower "sonnet"
              || Str.includes lower "opus" || Str.includes lower "flash"
              || Str.includes lower "pro"
      then llm
      else unknownCategory
  | _ => unknownCategory
  end.

(** [category !== "unknown" && modelId], the test that picks the category
    scope over the global one. *)
Definition categoryScoped (modelId : option string) : bool :=
  negb (bool_decide (getModelCategory modelId = unknownCategory)) && given modelId.

Record CategoryRateLimit : Set := {
  until : Z;
  failures : Z;
}.

Record Account : Type := {
  id : string;
  email : string;
  accessToken : string;
  refreshToken : string;
  expiresAt : Z;
  projectId : option string;
  categoryRateLimits : gmap ModelCategory CategoryRateLimit;
  rateLimitedUntil : option Z;
  consecutiveFailures : Z;
}.

(** Assignments to one field of an account object. *)
Definition withCategoryRateLimits (a : Account) (c : gmap ModelCategory CategoryRateLimit) : Account :=
  {| id := a.(id); email := a.(email); accessToken := a.(accessToken);
     refreshToken := a.(refreshToken); expiresAt := a.(expiresAt);
     projectId := a.(projectId); categoryRateLimits := c;
     rateLimitedUntil := a.(rateLimitedUntil);
     consecutiveFailures := a.(consecutiveFailures) |}.

Definition withGlobalLimit (a : Account) (u : option Z) (n : Z) : Account :=
  {| id := a.(id); email := a.(email); accessToken := a.(accessToken);
     refreshToken := a.(refreshToken); expiresAt := a.(expiresAt);
     projectId := a.(projectId); categoryRateLimits := a.(categoryRateLimits);
     rateLimitedUntil := u; consecutiveFailures := n |}.

Definition withTokens (a : Account) (token : string) (expiry : Z) : Account :=
  {| id := a.(id); email := a.(email); accessToken := token;
     refreshToken := a.(refreshToken); expiresAt := expiry;
     projectId := a.(projectId); categoryRateLimits := a.(categoryRateLimits);
     rateLimitedUntil := a.(rateLimitedUntil);
     consecutiveFailures := a.(consecutiveFailures) |}.

Definition withProjectId (a : Account) (p : option string) : Account :=
  {| id := a.(id); email := a.(email); accessToken := a.(accessToken);
     refreshToken := a.(refreshToken); expiresAt := a.(expiresAt);
     projectId := p; categoryRateLimits := a.(categoryRateLimits);
     rateLimitedUntil := a.(rateLimitedUntil);
     consecutiveFailures := a.(consecutiveFailures) |}.

(** ** A JavaScript [Map] with string keys, in insertion order *)

Module JsMap.
Section ops.
Context {V : Type}.

Fixpoint get (k : string) (m : list (string * V)) : option V :=
  match m with
  | [] => None
  | (k', v) :: rest => if String.eqb k' k then Some v else get k rest
  end.

Definition has (k : string) (m : list (string * V)) : bool :=
  match get k m with Some _ => true | None => false end.

(** [m.set(k, v)]: an existing key keeps its place, a new one goes last. *)
Fixpoint set (k : string) (v : V) (m : list (string * V)) : list (string * V) :=
  match m with
  | [] => [(k, v)]
  | (k', v') :: rest =>
      if String.eqb k' k then (k, v) :: rest else (k', v') :: set k v rest
  end.

Fixpoint delete (k : string) (m : list (string * V)) : list (string * V) :=
  match m with
  | [] => []
  | (k', v') :: rest =>
      if String.eqb k' k then rest else (k', v') :: delete k rest
  end.

Definition keys (m : list (string * V)) : list string := map fst m.
Definition values (m : list (string * V)) : list V := map snd m.
Definition size (m : list (string * V)) : nat := length m.
End ops.
End JsMap.

(** ** The account manager: registry and rotation queue *)

(** A record of the roster file [accounts.json], as [save] writes it. *)
Record PersistedAccount : Set := {
  p_id : string;
  p_email : string;
  p_accessToken : string;
  p_refreshToken : string;
  p_expiresAt : Z;
  p_projectId : option string;
}.

(** An entry of the credential store ([authStore]) for this provider. *)
Record StoredAccount : Set := {
  s_id : string;
  s_email : option string;
  s_login : option string;
  s_accessToken : string;
  s_refreshToken : option string;
  s_expiresAt : option Z;
  s_projectId : option string;
}.

(** The fields of [AccountManager] that its methods read or write.  The
    lock ledger ([accountLocks], [lastCallByAccount]) is in [Guard]. *)
Record Manager : Type := {
  accounts : list (string * Account);
  loaded : bool;
  lastUsedAccount : option (string * Z);
  accountQueue : list string;
  inFlightAccounts : gset string;
}.

Definition newManager : Manager :=
  {| accounts := []; loaded := false; lastUsedAccount := None;
     accountQueue := []; inFlightAccounts := ∅ |}.

Definition withAccounts (m : Manager) (accs : list (string * Account)) : Manager :=
  {| accounts := accs; loaded := m.(loaded);
     lastUsedAccount := m.(lastUsedAccount);
     accountQueue := m.(accountQueue);
     inFlightAccounts := m.(inFlightAccounts) |}.

Definition withQueue (m : Manager) (q : list string) : Manager :=
  {| accounts := m.(accounts); loaded := m.(loaded);
     lastUsedAccount := m.(lastUsedAccount);
     accountQueue := q;
     inFlightAccounts := m.(inFlightAccounts) |}.

Definition withLastUsed (m : Manager) (l : option (string * Z)) : Manager :=
  {| accounts := m.(accounts); loaded := m.(loaded);
     lastUsedAccount := l;
     accountQueue := m.(accountQueue);
     inFlightAccounts := m.(inFlightAccounts) |}.

(** [a || b] on strings. *)
Definition orElse (a : option string) (b : string) : string :=
  match a with
  | Some (String c r) => String c r
  | _ => b
  end.

(** A registry entry with every lockout clear, as [load], [addAccount] and
    [hydrateFromAuthStore] build it. *)
Definition clearAccount (i e tok rtok : string) (exp : Z) (proj : option string) : Account :=
  {| id := i; email := e; accessToken := tok; refreshToken := rtok;
     expiresAt := exp; projectId := proj;
     categoryRateLimits := ∅; rateLimitedUntil := None;
     consecutiveFailures := 0 |}.

Definition fromStored (stored : StoredAccount) : Account :=
  clearAccount stored.(s_id)
    (orElse stored.(s_email) (orElse stored.(s_login) stored.(s_id)))
    stored.(s_accessToken)
    (orElse stored.(s_refreshToken) "")
    (match stored.(s_expiresAt) with Some e => e | None => 0 end)
    (match stored.(s_projectId) with
     | Some (String c r) => Some (String c r)
     | _ => None
     end).

Definition fromPersisted (acc : PersistedAccount) : Account :=
  clearAccount acc.(p_id) acc.(p_email) acc.(p_accessToken)
    acc.(p_refreshToken) acc.(p_expiresAt) acc.(p_projectId).

(** [hydrateFromAuthStore]: [fromStore] is what the credential store
    answers (one entry when an id is asked for, the whole list otherwise).
    Entries whose id is registered are skipped. *)
Fixpoint hydrateFromAuthStore (fromStore : list StoredAccount) (m : Manager) : Manager :=
  match fromStore with
  | [] => m
  | stored :: rest =>
      if JsMap.has stored.(s_id) m.(accounts) then hydrateFromAuthStore rest m
      else hydrateFromAuthStore rest
             (withAccounts m (JsMap.set stored.(s_id) (fromStored stored) m.(accounts)))
  end.

(** [load()]: [file] is the [accounts] array of the roster file, [None]
    when the file is missing, unreadable or holds no such array; [store]
    is the credential store's list, consulted when the registry is still
    empty. *)
Definition load (file : option (list PersistedAccount)) (store : list StoredAccount)
    (m : Manager) : Manager :=
  let fromFile :=
    match file with
    | Some records =>
        fold_left (fun accs acc => JsMap.set acc.(p_id) (fromPersisted acc) accs)
          records m.(accounts)
    | None => m.(accounts)
    end in
  let m1 := withAccounts m fromFile in
  let m2 := if (JsMap.size m1.(accounts) =? 0)%nat
            then hydrateFromAuthStore store m1 else m1 in
  {| accounts := m2.(accounts); loaded := true; lastUsedAccount := None;
     accountQueue := m2.(accountQueue);
     inFlightAccounts := m2.(inFlightAccounts) |}.

Definition ensureLoaded (file : option (list PersistedAccount)) (store : list StoredAccount)
    (m : Manager) : Manager :=
  if m.(loaded) then m else load file store m.

(** [save()]: the array written under [accounts]. *)
Definition save (m : Manager) : list PersistedAccount :=
  map (fun acc =>
         {| p_id := acc.(id); p_email := acc.(email);
            p_accessToken := acc.(accessToken);
            p_refreshToken := acc.(refreshToken);
            p_expiresAt := acc.(expiresAt);
            p_projectId := acc.(projectId) |})
      (JsMap.values m.(accounts)).

(** [accountQueue.includes(id)] *)
Definition queueIncludes (q : list string) (i : string) : bool :=
  existsb (String.eqb i) q.

(** [idx = q.indexOf(id); if (idx !== -1) q.splice(idx, 1)] *)
Fixpoint removeFromQueue (i : string) (q : list string) : list string :=
  match q with
  | [] => []
  | x :: rest => if String.eqb x i then rest else x :: removeFromQueue i rest
  end.

(** [addAccount(account)]: the argument carries the six persisted fields. *)
Definition addAccount (account : PersistedAccount) (m : Manager) : Manager :=
  let accs := JsMap.set account.(p_id) (fromPersisted account) m.(accounts) in
  let q := if queueIncludes m.(accountQueue) account.(p_id)
           then m.(accountQueue) else (m.(accountQueue) ++ [account.(p_id)])%list in
  withQueue (withAccounts m accs) q.

(** The first account, in registry order, with the given email. *)
Fixpoint findByEmail (e : string) (accs : list (string * Account)) : option string :=
  match accs with
  | [] => None
  | (k, acc) :: rest => if String.eqb acc.(email) e then Some k else findByEmail e rest
  end.

Definition purge (i : string) (m : Manager) : Manager :=
  {| accounts := JsMap.delete i m.(accounts); loaded := m.(loaded);
     lastUsedAccount := m.(lastUsedAccount);
     accountQueue := removeFromQueue i m.(accountQueue);
     inFlightAccounts := m.(inFlightAccounts) ∖ {[ i ]} |}.

(** [removeAccount(accountIdOrEmail)] *)
Definition removeAccount (accountIdOrEmail : string) (m : Manager) : Manager * bool :=
  if JsMap.has accountIdOrEmail m.(accounts) then (purge accountIdOrEmail m, true)
  else
    match findByEmail accountIdOrEmail m.(accounts) with
    | Some i => (purge i m, true)
    | None => (m, false)
    end.

(** [moveToEndOfQueue(accountId)] *)
Definition moveToEndOfQueue (accountId : string) (m : Manager) : Manager :=
  if queueIncludes m.(accountQueue) accountId
  then withQueue m (removeFromQueue accountId m.(accountQueue) ++ [accountId])%list
  else m.

(** [ensureQueueInitialized()] *)
Definition ensureQueueInitialized (m : Manager) : Manager :=
  if (length m.(accountQueue) =? 0)%nat && (0 <? JsMap.size m.(accounts))%nat
  then withQueue m (JsMap.keys m.(accounts))
  else m.

(** ** Recording outcomes *)

(** Mutation of the account object stored under [accountId]. *)
Definition updateAccount (accountId : string) (a : Account) (m : Manager) : Manager :=
  withAccounts m (JsMap.set accountId a m.(accounts)).

(** [categoryRateLimits.get(category) || { until: 0, failures: 0 }] *)
Definition existingLimit (a : Account) (category : ModelCategory) : CategoryRateLimit :=
  match a.(categoryRateLimits) !! category with
  | Some l => l
  | None => {| until := 0; failures := 0 |}
  end.

(** The write that ends both [markRateLimited] and
    [markRateLimitedFromError]: the category's entry when the model has a
    known category, the global fields otherwise. *)
Definition recordLimit (a : Account) (modelId : option string) (limitedUntil : Z) : Account :=
  let category := getModelCategory modelId in
  if categoryScoped modelId then
    withCategoryRateLimits a
      (<[category := {| until := limitedUntil;
                        failures := (existingLimit a category).(failures) + 1 |}]>
         a.(categoryRateLimits))
  else
    withGlobalLimit a (Some limitedUntil) (a.(consecutiveFailures) + 1).

(** [markRateLimited(accountId, durationMs, modelId)] at time [now]. *)
Definition markRateLimited (now : Z) (accountId : string) (durationMs : Z)
    (modelId : option string) (m : Manager) : Manager :=
  match JsMap.get accountId m.(accounts) with
  | Some account => updateAccount accountId (recordLimit account modelId (now + durationMs)) m
  | None => m
  end.

(** What [markRateLimitedFromError] obtains from outside the manager. *)
Record ErrorContext : Set := {
  e_now : Z;                      (* [Date.now()] *)
  e_retryDelayMs : option Z;      (* [parseRetryDelay(errorText, retryAfterHeader)] *)
  e_cachedResetMs : option Z;     (* [getCachedResetTime(accountId, modelId)] *)
  e_jitter : Z;                   (* [Math.random() * 2000] *)
  e_maxDurationMs : option Z;     (* [options?.maxDurationMs] *)
}.

(** The lockout [(durationMs, rateLimitedUntil)] that
    [markRateLimitedFromError] computes for an account. *)
Definition lockoutFor (ctx : ErrorContext) (account : Account) (statusCode : Z)
    (reason : RateLimitReason) (modelId : option string) : Z * Z :=
  let now := ctx.(e_now) in
  let category := getModelCategory modelId in
  (* 1: the cached reset time, for quota exhaustion *)
  let s1 : Z * option Z :=
    if RateLimitReason_eqb reason quota_exhausted && given modelId then
      if truthy ctx.(e_cachedResetMs) then
        match ctx.(e_cachedResetMs) with
        | Some cachedResetMs =>
            if now <? cachedResetMs then (cachedResetMs - now, Some cachedResetMs)
            else (0, None)
        | None => (0, None)
        end
      else (0, None)
    else (0, None) in
  (* 2: the retry delay given by the API *)
  let s2 : Z * option Z :=
    match ctx.(e_retryDelayMs) with
    | Some retryDelayMs =>
        if negb (truthy (snd s1)) then
          let d := Z.max (retryDelayMs + 500) 2000 in (d, Some (now + d))
        else s1
    | None => s1
    end in
  (* 3: short defaults for a 429 *)
  let s3 : Z * option Z :=
    if negb (truthy (snd s2)) && (statusCode =? 429) then
      let d := match reason with
               | rate_limit_exceeded => 2000 + ctx.(e_jitter)
               | model_capacity_exhausted => 5000
               | _ => 10000
               end in
      (d, Some (now + d))
    else s2 in
  (* 4: the default schedule *)
  let s4 : Z * Z :=
    let fallback :=
      let count :=
        if negb (bool_decide (category = unknownCategory)) then
          (match account.(categoryRateLimits) !! category with
           | Some l => l.(failures)
           | None => 0
           end) + 1
        else account.(consecutiveFailures) + 1 in
      let d := defaultRateLimitMs reason count in
      (d, now + d) in
    match snd s3 with
    | Some u => if u =? 0 then fallback else (fst s3, u)
    | None => fallback
    end in
  (* 5: the caller's cap *)
  match ctx.(e_maxDurationMs) with
  | Some maxDurationMs =>
      if negb (maxDurationMs =? 0) && negb (RateLimitReason_eqb reason quota_exhausted)
         && (maxDurationMs <? fst s4)
      then (maxDurationMs, now + maxDurationMs)
      else s4
  | None => s4
  end.

(** [markRateLimitedFromError(accountId, statusCode, errorText,
    retryAfterHeader, modelId, options)] *)
Definition markRateLimitedFromError (ctx : ErrorContext) (accountId : string)
    (statusCode : Z) (errorText : string) (modelId : option string) (m : Manager)
  : Manager * option (RateLimitReason * Z) :=
  match JsMap.get accountId m.(accounts) with
  | None => (m, None)
  | Some account =>
      let reason := Classifier.parseRateLimitReason statusCode errorText in
      let '(durationMs, limitedUntil) := lockoutFor ctx account statusCode reason modelId in
      (updateAccount accountId (recordLimit account modelId limitedUntil) m,
       Some (reason, durationMs))
  end.

(** [markSuccess(accountId, modelId)] *)
Definition markSuccess (accountId : string) (modelId : option string) (m : Manager) : Manager :=
  match JsMap.get accountId m.(accounts) with
  | Some account =>
      let category := getModelCategory modelId in
      updateAccount accountId
        (if categoryScoped modelId
         then withCategoryRateLimits account (delete category account.(categoryRateLimits))
         else withGlobalLimit account None 0)
        m
  | None => m
  end.

(** [isAccountRateLimited(accountId, modelId)] at time [now]. *)
Definition isAccountRateLimited (now : Z) (accountId : string) (modelId : option string)
    (m : Manager) : bool :=
  match JsMap.get accountId m.(accounts) with
  | None => false
  | Some account =>
      if match account.(rateLimitedUntil) with
         | Some u => now <? u
         | None => false
         end
      then true
      else if given modelId then
        let category := getModelCategory modelId in
        if negb (bool_decide (category = unknownCategory)) then
          match account.(categoryRateLimits) !! category with
          | Some catLimit => now <? catLimit.(until)
          | None => false
          end
        else false
      else false
  end.

(** ** The scheduler *)

(** What a selection reads from outside the manager during one call. *)
Record Env : Type := {
  now : Z;                                     (* [Date.now()] on entry *)
  later : Z;                                   (* [Date.now()] when the scan returns *)
  rosterFile : option (list PersistedAccount); (* the roster file, for [load] *)
  storeList : list StoredAccount;              (* [authStore.listAccounts] *)
  storeGet : string -> option StoredAccount;   (* [authStore.getAccount] *)
  isAccountDisabled : string -> bool;
  isQuotaBlacklisted : string -> string -> bool;
  getAccountModelQuotaPercent : string -> string -> option Q;
  quotaReservePercent : Q;                     (* [getSetting("quotaReservePercent")] *)
  refreshAccessToken : string -> option (string * Z);
                                               (* [None]: the refresh throws *)
  getProjectID : string -> option string;
  generateMockProjectId : string;
}.

Record Credential : Set := {
  c_accessToken : string;
  c_projectId : string;
  c_email : string;
  c_accountId : string;
}.

(** [getSetting("quotaReservePercent") || 0] *)
Definition reservePercent (env : Env) : Q :=
  if Qeq_bool env.(quotaReservePercent) 0 then 0%Q else env.(quotaReservePercent).

(** [account.rateLimitedUntil && account.rateLimitedUntil > now] *)
Definition lockedOut (now : Z) (a : Account) : bool :=
  truthy a.(rateLimitedUntil) &&
  match a.(rateLimitedUntil) with Some u => now <? u | None => false end.

(** [account.expiresAt > 0 && now > account.expiresAt - 5 * 60 * 1000] *)
Definition nearExpiry (now : Z) (a : Account) : bool :=
  (0 <? a.(expiresAt)) && (a.(expiresAt) - 5 * 60 * 1000 <? now).

(** The closure [hasModelQuota(accountId)] of [getNextAvailableAccount]. *)
Definition hasModelQuota (env : Env) (modelId : option string) (m : Manager)
    (accountId : string) : bool :=
  match modelId with
  | Some (String c r) =>
      let model := String c r in
      match JsMap.get accountId m.(accounts) with
      | None => false
      | Some _ =>
          if env.(isQuotaBlacklisted) accountId model then false
          else
            match env.(getAccountModelQuotaPercent) accountId model with
            | None => false
            | Some quotaPercent => negb (Qle_bool quotaPercent (reservePercent env))
            end
      end
  | _ => true
  end.

(** [hasIdleAccount]: some queued, registered account is neither locked
    out nor in flight. *)
Definition hasIdleAccount (now : Z) (m : Manager) : bool :=
  existsb (fun i =>
             match JsMap.get i m.(accounts) with
             | None => false
             | Some account =>
                 if lockedOut now account then false
                 else negb (bool_decide (i ∈ m.(inFlightAccounts)))
             end)
          m.(accountQueue).

(** [ensureProjectId(account)]: the id to use and the account after the
    assignment. *)
Definition ensureProjectId (env : Env) (a : Account) : string * Account :=
  match a.(projectId) with
  | Some (String c r) =>
      if negb (String.eqb (String c r) "unknown") then (String c r, a)
      else
        let resolved := orElse (env.(getProjectID) a.(accessToken)) env.(generateMockProjectId) in
        (resolved, withProjectId a (Some resolved))
  | _ =>
      let resolved := orElse (env.(getProjectID) a.(accessToken)) env.(generateMockProjectId) in
      (resolved, withProjectId a (Some resolved))
  end.

(** The [return { ... }] that ends a successful selection of the account
    object [a] registered under [key]. *)
Definition hand (env : Env) (stamp : Z) (key : string) (a : Account) (m : Manager)
  : Manager * option Credential :=
  let '(project, a') := ensureProjectId env a in
  (withLastUsed (updateAccount key a' m) (Some (a.(id), stamp)),
   Some {| c_accessToken := a.(accessToken); c_projectId := project;
           c_email := a.(email); c_accountId := a.(id) |}).

(** The sticky fast path on the queue head.  [None]: the path is left
    without returning and the scan follows. *)
Definition stickyHead (env : Env) (modelId : option string) (idle : bool) (m : Manager)
  : option (Manager * option Credential) :=
  match m.(accountQueue) with
  | [] => None
  | firstId :: _ =>
      match JsMap.get firstId m.(accounts) with
      | None => None
      | Some firstAccount =>
          if negb (truthy firstAccount.(rateLimitedUntil))
             || match firstAccount.(rateLimitedUntil) with
                | Some u => u <=? env.(now)
                | None => false
                end
          then
            if env.(isAccountDisabled) firstId then None
            else
              let hasQuota := hasModelQuota env modelId m firstId in
              if idle && bool_decide (firstId ∈ m.(inFlightAccounts)) then None
              else if negb hasQuota then None
              else
                let refreshed :=
                  if nearExpiry env.(now) firstAccount then
                    match env.(refreshAccessToken) firstAccount.(refreshToken) with
                    | Some (token, expiresIn) =>
                        withTokens firstAccount token (env.(now) + expiresIn * 1000)
                    | None => firstAccount     (* caught; only a warning *)
                    end
                  else firstAccount in
                Some (hand env env.(now) firstId refreshed (updateAccount firstId refreshed m))
          else None
      end
  end.

(** The loop [for (const accountId of this.accountQueue)]. *)
Fixpoint scanQueue (env : Env) (modelId : option string) (idle : bool)
    (queue : list string) (m : Manager) : Manager * option Credential :=
  match queue with
  | [] => (m, None)
  | accountId :: rest =>
      match JsMap.get accountId m.(accounts) with
      | None => scanQueue env modelId idle rest m
      | Some account =>
          if env.(isAccountDisabled) accountId then scanQueue env modelId idle rest m
          else if lockedOut env.(now) account then scanQueue env modelId idle rest m
          else if idle && bool_decide (accountId ∈ m.(inFlightAccounts))
          then scanQueue env modelId idle rest m
          else if negb (hasModelQuota env modelId m accountId)
          then scanQueue env modelId idle rest m
          else if nearExpiry env.(now) account then
            match env.(refreshAccessToken) account.(refreshToken) with
            | Some (token, expiresIn) =>
                let a1 := withTokens account token (env.(now) + expiresIn * 1000) in
                let a2 := match a1.(projectId) with
                          | Some (String _ _) => a1
                          | _ => withProjectId a1 (env.(getProjectID) a1.(accessToken))
                          end in
                hand env env.(later) accountId a2 (updateAccount accountId a2 m)
            | None =>
                scanQueue env modelId idle rest
                  (updateAccount accountId
                     (withGlobalLimit account (Some (env.(now) + 60000))
                        account.(consecutiveFailures)) m)
            end
          else hand env env.(later) accountId account m
      end
  end.

(** [getNextAvailableAccount(forceRotate, modelId)] *)
Definition getNextAvailableAccount (env : Env) (forceRotate : bool)
    (modelId : option string) (m : Manager) : Manager * option Credential :=
  let m1 := ensureLoaded env.(rosterFile) env.(storeList) m in
  let m2 := if (JsMap.size m1.(accounts) =? 0)%nat
            then hydrateFromAuthStore env.(storeList) m1 else m1 in
  let m3 := ensureQueueInitialized m2 in
  if (JsMap.size m3.(accounts) =? 0)%nat then (m3, None)
  else
    let idle := hasIdleAccount env.(now) m3 in
    match (if negb forceRotate then stickyHead env modelId idle m3 else None) with
    | Some result => result
    | None => scanQueue env modelId idle m3.(accountQueue) m3
    end.

(** [getAccountById(accountId, modelId)] *)
Definition getAccountById (env : Env) (accountId : string) (modelId : option string)
    (m : Manager) : Manager * option Credential :=
  let m1 := ensureLoaded env.(rosterFile) env.(storeList) m in
  let m2 :=
    if JsMap.has accountId m1.(accounts) then m1
    else hydrateFromAuthStore
           (match accountId with
            | String _ _ =>
                match env.(storeGet) accountId with Some s => [s] | None => [] end
            | EmptyString => env.(storeList)
            end) m1 in
  match JsMap.get accountId m2.(accounts) with
  | None => (m2, None)
  | Some account =>
      if env.(isAccountDisabled) accountId then (m2, None)
      else if lockedOut env.(now) account then (m2, None)
      else
        let insufficient :=
          match modelId with
          | Some (String c r) =>
              match env.(getAccountModelQuotaPercent) accountId (String c r) with
              | Some quotaPercent => Qle_bool quotaPercent (reservePercent env)
              | None => false
              end
          | _ => false
          end in
        if insufficient then (m2, None)
        else if nearExpiry env.(now) account then
          match env.(refreshAccessToken) account.(refreshToken) with
          | Some (token, expiresIn) =>
              let a1 := withTokens account token (env.(now) + expiresIn * 1000) in
              let a2 := match a1.(projectId) with
                        | Some (String _ _) => a1
                        | _ => withProjectId a1 (env.(getProjectID) a1.(accessToken))
                        end in
              let '(project, a3) := ensureProjectId env a2 in
              (updateAccount accountId a3 m2,
               Some {| c_accessToken := a2.(accessToken); c_projectId := project;
                       c_email := a2.(email); c_accountId := a2.(id) |})
          | None =>
              (updateAccount accountId
                 (withGlobalLimit account (Some (env.(now) + 60000))
                    account.(consecutiveFailures)) m2,
               None)
          end
        else
          let '(project, a3) := ensureProjectId env account in
          (updateAccount accountId a3 m2,
           Some {| c_accessToken := account.(accessToken); c_projectId := project;
                   c_email := account.(email); c_accountId := account.(id) |})
  end.

(** ** The concurrency guard *)

(** [acquireAccountLock] is an [async] method: between two [await]s it
    runs without interruption, and at an [await] it yields to whatever
    else the event loop has ready.  The guard is therefore a transition
    system whose steps are the uninterrupted segments of the method, the
    promise reaction that settles a [tail], the release closure, the
    passing of time, and [removeAccount], the one other method that
    writes the ledger.

    The state is the ledger of one account id: what [accountLocks],
    [lastCallByAccount] and [inFlightAccounts] hold under that id (calls
    for other ids use other keys), the calls made so far in request
    order, and the clock.  The clock does not run backwards and a timer
    is not fired before its delay has passed. *)

Module Guard.

(** Where a call of [acquireAccountLock] stands. *)
Inductive phase : Set :=
| AwaitPrevious            (* suspended at [await previous] *)
| AwaitTimer (wake : Z)    (* suspended at the [setTimeout] promise *)
| Holding                  (* returned; release closure not yet run *)
| Released.                (* [released = true] *)

Record call : Set := {
  previous : option nat;   (* the [tail] of that call; [None]: [Promise.resolve()] *)
  stage : phase;
  started : option Z;      (* the value written to [lastCallByAccount] *)
}.

Record ledger : Set := {
  accountLock : option nat;   (* [accountLocks.get(id)]: whose [tail] it is *)
  lastCall : option Z;        (* [lastCallByAccount.get(id)] *)
  inFlight : bool;            (* [inFlightAccounts.has(id)] *)
  calls : list call;          (* call [k] is the [k]-th request *)
  settled : list nat;         (* the calls whose [tail] is fulfilled *)
  clock : Z;                  (* [Date.now()] *)
}.

Definition initial (t : Z) : ledger :=
  {| accountLock := None; lastCall := None; inFlight := false;
     calls := []; settled := []; clock := t |}.

Inductive event : Set :=
| Acquire              (* the method is called and runs up to [await previous] *)
| Settle (k : nat)     (* [tail] of call [k] is fulfilled *)
| Resume (k : nat)     (* call [k] continues after [await previous] *)
| Fire (k : nat)       (* the timer of call [k] fires *)
| Release (k : nat)    (* the closure returned to call [k] is invoked *)
| Tick (dt : Z)        (* time passes *)
| Remove.              (* [removeAccount] purges the id *)

Definition isSettled (s : ledger) (p : option nat) : bool :=
  match p with
  | None => true
  | Some j => bool_decide (j ∈ s.(settled))
  end.

Definition setCall (k : nat) (c : call) (s : ledger) (lock : option nat)
    (last : option Z) (flight : bool) : ledger :=
  {| accountLock := lock; lastCall := last; inFlight := flight;
     calls := <[k := c]> s.(calls); settled := s.(settled);
     clock := s.(clock) |}.

(** The segment from [lastCallByAccount.set] to the [return]. *)
Definition enter (k : nat) (c : call) (s : ledger) : ledger :=
  setCall k {| previous := c.(previous); stage := Holding;
               started := Some s.(clock) |}
    s s.(accountLock) (Some s.(clock)) true.

Section steps.
Variable MIN_REQUEST_INTERVAL_MS : Z.

(** One step; [None] when the event cannot happen in that state. *)
Definition step (e : event) (s : ledger) : option ledger :=
  match e with
  | Acquire =>
      let k := length s.(calls) in
      Some {| accountLock := Some k; lastCall := s.(lastCall);
              inFlight := s.(inFlight);
              calls := s.(calls) ++ [{| previous := s.(accountLock);
                                        stage := AwaitPrevious;
                                        started := None |}];
              settled := s.(settled); clock := s.(clock) |}
  | Settle k =>
      match s.(calls) !! k with
      | Some c =>
          match c.(stage) with
          | Released =>
              if isSettled s c.(previous) then
                Some {| accountLock := s.(accountLock); lastCall := s.(lastCall);
                        inFlight := s.(inFlight); calls := s.(calls);
                        settled := k :: s.(settled); clock := s.(clock) |}
              else None
          | _ => None
          end
      | None => None
      end
  | Resume k =>
      match s.(calls) !! k with
      | Some c =>
          match c.(stage) with
          | AwaitPrevious =>
              if isSettled s c.(previous) then
                let last := match s.(lastCall) with Some t => t | None => 0 end in
                let elapsed := s.(clock) - last in
                if elapsed <? MIN_REQUEST_INTERVAL_MS then
                  Some (setCall k
                          {| previous := c.(previous);
                             stage := AwaitTimer
                                        (s.(clock) + (MIN_REQUEST_INTERVAL_MS - elapsed));
                             started := None |}
                          s s.(accountLock) s.(lastCall) s.(inFlight))
                else Some (enter k c s)
              else None
          | _ => None
          end
      | None => None
      end
  | Fire k =>
      match s.(calls) !! k with
      | Some c =>
          match c.(stage) with
          | AwaitTimer wake =>
              if wake <=? s.(clock) then Some (enter k c s) else None
          | _ => None
          end
      | None => None
      end
  | Release k =>
      match s.(calls) !! k with
      | Some c =>
          match c.(stage) with
          | Holding =>
              Some (setCall k
                      {| previous := c.(previous); stage := Released;
                         started := c.(started) |}
                      s
                      (if bool_decide (s.(accountLock) = Some k)
                       then None else s.(accountLock))
                      s.(lastCall) false)
          | Released => Some s        (* [if (released) return] *)
          | _ => None                 (* the closure does not exist yet *)
          end
      | None => None
      end
  | Tick dt =>
      if 0 <=? dt then
        Some {| accountLock := s.(accountLock); lastCall := s.(lastCall);
                inFlight := s.(inFlight); calls := s.(calls);
                settled := s.(settled); clock := s.(clock) + dt |}
      else None
  | Remove =>
      Some {| accountLock := None; lastCall := None; inFlight := false;
              calls := s.(calls); settled := s.(settled);
              clock := s.(clock) |}
  end.

Fixpoint run (es : list event) (s : ledger) : option ledger :=
  match es with
  | [] => Some s
  | e :: rest =>
      match step e s with
      | Some s' => run rest s'
      | None => None
      end
  end.
End steps.

Definition isRemove (e : event) : bool :=
  match e with Remove => true | _ => false end.

Definition holding (c : call) : bool :=
  match c.(stage) with Holding => true | _ => false end.

Definition released (c : call) : bool :=
  match c.(stage) with Released => true | _ => false end.

(** Past its wait: the call has left [await previous]. *)
Definition proceeded (c : call) : bool :=
  match c.(stage) with AwaitPrevious => false | _ => true end.

(** No two holders at once. *)
Definition exclusive (s : ledger) : Prop :=
  forall j k cj ck,
    s.(calls) !! j = Some cj -> s.(calls) !! k = Some ck ->
    holding cj = true -> holding ck = true -> j = k.

(** A call is past its wait only when every earlier call has been
    released: the calls get through in request order. *)
Definition fifo (s : ledger) : Prop :=
  forall j k cj ck,
    s.(calls) !! j = Some cj -> s.(calls) !! k = Some ck ->
    (j < k)%nat -> proceeded ck = true -> released cj = true.

(** Consecutive recorded starts are at least [minInterval] apart. *)
Definition spaced (minInterval : Z) (s : ledger) : Prop :=
  forall k cj ck tj tk,
    s.(calls) !! k = Some cj -> s.(calls) !! (S k) = Some ck ->
    cj.(started) = Some tj -> ck.(started) = Some tk ->
    tj + minInterval <= tk.

(** What every reachable state of the ledger satisfies as long as the id
    is not purged: the facts that make [fifo] and [spaced] go through a
    step. *)
Record consistent (minInterval : Z) (s : ledger) : Prop := {
  lock_is_last :
    forall k, s.(accountLock) = Some k -> S k = length s.(calls);
  unlocked_all_released :
    s.(accountLock) = None ->
    forall j c, s.(calls) !! j = Some c -> released c = true;
  previous_is_predecessor :
    forall k c j, s.(calls) !! k = Some c -> c.(previous) = Some j -> S j = k;
  no_previous_all_released :
    forall k c, s.(calls) !! k = Some c -> c.(previous) = None ->
    forall j cj, (j < k)%nat -> s.(calls) !! j = Some cj -> released cj = true;
  settled_known :
    forall j, j ∈ s.(settled) -> (j < length s.(calls))%nat;
  settled_released :
    forall j, j ∈ s.(settled) ->
    forall i ci, (i <= j)%nat -> s.(calls) !! i = Some ci -> released ci = true;
  in_order : fifo s;
  started_recorded :
    forall k c t, s.(calls) !! k = Some c -> c.(started) = Some t ->
    proceeded c = true /\ exists t', s.(lastCall) = Some t' /\ t <= t';
  last_in_past :
    forall t', s.(lastCall) = Some t' -> t' <= s.(clock);
  timer_after_last :
    forall k c wake t', s.(calls) !! k = Some c -> c.(stage) = AwaitTimer wake ->
    s.(lastCall) = Some t' -> t' + minInterval <= wake;
  starts_spaced : spaced minInterval s;
}.

End Guard.

(** ** Queries and resets *)

(** [count()] *)
Definition count (m : Manager) : nat := JsMap.size m.(accounts).

(** [hasAccount(accountId)]: the manager after [ensureLoaded] and the
    answer. *)
Definition hasAccount (file : option (list PersistedAccount)) (store : list StoredAccount)
    (accountId : string) (m : Manager) : Manager * bool :=
  let m1 := ensureLoaded file store m in
  (m1, JsMap.has accountId m1.(accounts)).

(** [isAccountInFlight(accountId)] *)
Definition isAccountInFlight (accountId : string) (m : Manager) : bool :=
  bool_decide (accountId ∈ m.(inFlightAccounts)).

(** [getEmails()] *)
Definition getEmails (m : Manager) : list string :=
  map email (JsMap.values m.(accounts)).

(** [getRateLimitRemaining(accountId, modelId)] at time [now]. *)
Definition getRateLimitRemaining (now : Z) (accountId : string) (modelId : option string)
    (m : Manager) : Z :=
  match JsMap.get accountId m.(accounts) with
  | None => 0
  | Some account =>
      let remaining :=
        match account.(rateLimitedUntil) with
        | Some u => if now <? u then Z.max 0 (u - now) else 0
        | None => 0
        end in
      if given modelId then
        let category := getModelCategory modelId in
        if negb (bool_decide (category = unknownCategory)) then
          match account.(categoryRateLimits) !! category with
          | Some catLimit =>
              if now <? catLimit.(until)
              then Z.max remaining (catLimit.(until) - now) else remaining
          | None => remaining
          end
        else remaining
      else remaining
  end.

(** The body of the loop of [clearAllRateLimits] on one account object:
    the account afterwards and whether [count] was incremented. *)
Definition clearLimits (modelId : option string) (account : Account) : Account * bool :=
  let category := getModelCategory modelId in
  if given modelId && negb (bool_decide (category = unknownCategory)) then
    match account.(categoryRateLimits) !! category with
    | Some _ =>
        (withCategoryRateLimits account (delete category account.(categoryRateLimits)), true)
    | None => (account, false)
    end
  else
    let '(a1, counted) :=
      match account.(rateLimitedUntil) with
      | Some _ => (withGlobalLimit account None 0, true)
      | None => (account, false)
      end in
    (if (0 <? size a1.(categoryRateLimits))%nat then withCategoryRateLimits a1 ∅ else a1,
     counted).

(** The loop [for (const account of this.accounts.values())] of
    [clearAllRateLimits], threading [count]. *)
Fixpoint clearEach (modelId : option string) (entries : list (string * Account))
    (count : nat) : list (string * Account) * nat :=
  match entries with
  | [] => ([], count)
  | (k, account) :: rest =>
      let '(account', counted) := clearLimits modelId account in
      let '(rest', n) := clearEach modelId rest (if counted then S count else count) in
      ((k, account') :: rest', n)
  end.

(** [clearAllRateLimits(modelId)]: the manager afterwards and the number
    of accounts the warning reports. *)
Definition clearAllRateLimits (modelId : option string) (m : Manager) : Manager * nat :=
  let '(accs, n) := clearEach modelId m.(accounts) 0%nat in
  (withAccounts m accs, n).

(** [if (minWait === null || wait < minWait) minWait = wait] *)
Definition shorter (minWait : option Z) (wait : Z) : option Z :=
  match minWait with
  | None => Some wait
  | Some w => if wait <? w then Some wait else Some w
  end.

(** The body of the loop of [getMinRateLimitWait] on one account. *)
Definition accountWait (now : Z) (modelId : option string) (minWait : option Z)
    (account : Account) : option Z :=
  let category := getModelCategory modelId in
  let minWait1 :=
    match account.(rateLimitedUntil) with
    | Some u => if now <? u then shorter minWait (u - now) else minWait
    | None => minWait
    end in
  if given modelId && negb (bool_decide (category = unknownCategory)) then
    match account.(categoryRateLimits) !! category with
    | Some catLimit =>
        if now <? catLimit.(until) then shorter minWait1 (catLimit.(until) - now)
        else minWait1
    | None => minWait1
    end
  else minWait1.

(** [getMinRateLimitWait(modelId)] at time [now]. *)
Definition getMinRateLimitWait (now : Z) (modelId : option string) (m : Manager) : option Z :=
  fold_left (accountWait now modelId) (JsMap.values m.(accounts)) None.


(** ** The quota blacklist *)

(** The module-level [Map] from [provider:accountId:model] to the expiry
    timestamp, in insertion order; every function takes it and, when it
    writes, returns it. *)
Module QuotaBlacklist.

Definition QUOTA_BLACKLIST_DURATION : Z := 5 * 60 * 1000.

Definition getKey (provider accountId model : string) : string :=
  provider ++ ":" ++ accountId ++ ":" ++ model.

(** [isQuotaBlacklisted(provider, accountId, model)] at time [now]. *)
Definition isQuotaBlacklisted (now : Z) (provider accountId model : string)
    (quotaBlacklist : list (string * Z)) : list (string * Z) * bool :=
  let key := getKey provider accountId model in
  match JsMap.get key quotaBlacklist with
  | None => (quotaBlacklist, false)
  | Some expiry =>
      if expiry =? 0 then (quotaBlacklist, false)
      else if expiry <? now then (JsMap.delete key quotaBlacklist, false)
      else (quotaBlacklist, true)
  end.

(** [addToQuotaBlacklist(provider, accountId, model, durationMs)] at time
    [now]. *)
Definition addToQuotaBlacklist (now : Z) (provider accountId model : string)
    (durationMs : option Z) (quotaBlacklist : list (string * Z)) : list (string * Z) :=
  let key := getKey provider accountId model in
  let duration := match durationMs with Some d => d | None => QUOTA_BLACKLIST_DURATION end in
  JsMap.set key (now + duration) quotaBlacklist.

(** [removeFromQuotaBlacklist(provider, accountId, model)] *)
Definition removeFromQuotaBlacklist (provider accountId model : string)
    (quotaBlacklist : list (string * Z)) : list (string * Z) :=
  JsMap.delete (getKey provider accountId model) quotaBlacklist.

(** The loop of [cleanupExpiredEntries] over the entries still to visit. *)
Fixpoint cleanupLoop (now : Z) (entries quotaBlacklist : list (string * Z)) (cleaned : nat)
  : list (string * Z) * nat :=
  match entries with
  | [] => (quotaBlacklist, cleaned)
  | (key, expiry) :: rest =>
      if expiry <? now
      then cleanupLoop now rest (JsMap.delete key quotaBlacklist) (S cleaned)
      else cleanupLoop now rest quotaBlacklist cleaned
  end.

(** [cleanupExpiredEntries()] at time [now]. *)
Definition cleanupExpiredEntries (now : Z) (quotaBlacklist : list (string * Z))
  : list (string * Z) * nat :=
  cleanupLoop now quotaBlacklist quotaBlacklist 0.

(** [getBlacklistSize()] *)
Definition getBlacklistSize (quotaBlacklist : list (string * Z)) : nat :=
  JsMap.size quotaBlacklist.

End QuotaBlacklist.


(** ** The log capture buffer *)

(** The module-level variables [buffer], [nextId] and [captureEnabled]
    are the state; the listeners are callbacks, and [appendLog] returns
    the entry it passes to each of them. *)
Module LogCapture.

Inductive LogLevel : Set :=
| log
| info
| warn
| error
| debug.

Record LogEntry : Set := {
  id : Z;
  ts : string;
  level : LogLevel;
  line : string;
}.

Record state : Set := {
  buffer : list LogEntry;
  nextId : Z;
  captureEnabled : bool;
}.

Definition initial : state :=
  {| buffer := []; nextId := 1; captureEnabled := false |}.

Definition DEFAULT_MAX_LINES : Z := 2000.

Record snapshot : Set := {
  entries : list LogEntry;
  lastId : Z;
  maxLines : Z;
  enabled : bool;
}.

Section capture.
(** What [Number.parseInt] makes of the environment variable
    [ANTI_API_LOG_LINES]; [None] when it is [NaN]. *)
Variable envLines : option Z.

Definition MAX_LINES : Z :=
  Z.max 100
    (match envLines with
     | Some n => if n =? 0 then DEFAULT_MAX_LINES else n
     | None => DEFAULT_MAX_LINES
     end).

(** [appendLog(level, args)], with [line] the formatted arguments and
    [stamp] the time stamp. *)
Definition appendLog (lvl : LogLevel) (text stamp : string) (st : state)
  : state * option LogEntry :=
  if negb st.(captureEnabled) then (st, None)
  else
    let entry := {| id := st.(nextId); ts := stamp; level := lvl; line := text |} in
    let pushed := (st.(buffer) ++ [entry])%list in
    let kept :=
      if MAX_LINES <? Z.of_nat (length pushed)
      then drop (Z.to_nat (Z.of_nat (length pushed) - MAX_LINES)) pushed
      else pushed in
    ({| buffer := kept; nextId := st.(nextId) + 1;
        captureEnabled := st.(captureEnabled) |},
     Some entry).

(** [setLogCaptureEnabled(enabled)] *)
Definition setLogCaptureEnabled (on : bool) (st : state) : state :=
  {| buffer := if on then st.(buffer) else [];
     nextId := st.(nextId); captureEnabled := on |}.

(** [isLogCaptureEnabled()] *)
Definition isLogCaptureEnabled (st : state) : bool := st.(captureEnabled).

(** [getLogSnapshot({ limit, sinceId })]; [None] stands for a missing
    option. *)
Definition getLogSnapshot (limit sinceId : option Z) (st : state) : snapshot :=
  if negb st.(captureEnabled)
  then {| entries := []; lastId := 0; maxLines := MAX_LINES; enabled := false |}
  else
    let wanted := match limit with
                  | Some l => if l =? 0 then 500 else l
                  | None => 500
                  end in
    let bounded := Z.min (Z.max wanted 1) MAX_LINES in
    let since := match sinceId with Some s => s | None => 0 end in
    {| entries :=
         if 0 <? since
         then List.filter (fun entry => since <? entry.(id)) st.(buffer)
         else drop (length st.(buffer) - Z.to_nat bounded) st.(buffer);
       lastId := match last st.(buffer) with Some entry => entry.(id) | None => 0 end;
       maxLines := MAX_LINES; enabled := true |}.
End capture.

(** What happens to the buffer over time. *)
Inductive action : Set :=
| Append (lvl : LogLevel) (text stamp : string)
| SetEnabled (on : bool).

Definition perform (envLines : option Z) (a : action) (st : state) : state :=
  match a with
  | Append lvl text stamp => fst (appendLog envLines lvl text stamp st)
  | SetEnabled on => setLogCaptureEnabled on st
  end.

Definition performAll (envLines : option Z) (actions : list action) (st : state) : state :=
  fold_left (fun st a => perform envLines a st) actions st.

(** The entries that the lines [lines] become when they are appended
    from id [n] on. *)
Fixpoint stamped (n : Z) (lines : list (LogLevel * string * string)) : list LogEntry :=
  match lines with
  | [] => []
  | l :: rest =>
      {| id := n; ts := snd l; level := fst (fst l); line := snd (fst l) |}
      :: stamped (n + 1) rest
  end.

(** What every reachable state satisfies: the buffer holds at most
    [MAX_LINES] entries, numbered consecutively from 1 or more up to
    [nextId - 1], and nothing while capture is off. *)
Record tidy (envLines : option Z) (st : state) : Prop := {
  bounded : Z.of_nat (length st.(buffer)) <= MAX_LINES envLines;
  consecutive :
    forall i entry, st.(buffer) !! i = Some entry ->
    entry.(id) = st.(nextId) - Z.of_nat (length st.(buffer)) + Z.of_nat i;
  ids_positive : Z.of_nat (length st.(buffer)) < st.(nextId);
  off_empty : st.(captureEnabled) = false -> st.(buffer) = [];
}.

(** The appends that log [lines], one after the other. *)
Definition appends (lines : list (LogLevel * string * string)) : list action :=
  map (fun l => Append (fst (fst l)) (snd (fst l)) (snd l)) lines.

End LogCapture.


(** ** Disabled accounts in the routing configuration *)

(** [disabledAccounts] is the array of that name that [loadRoutingConfig]
    returns: the one in [routing.json], or the empty one when the file is
    missing or unreadable or holds no such array.  [toggleAccountDisabled]
    writes the array back through [saveRoutingConfig], so the next load
    returns what it left. *)
Module Routing.

(** The [key] of an account, [provider:accountId]. *)
Definition accountKey (provider accountId : string) : string :=
  provider ++ ":" ++ accountId.

(** [isAccountDisabled(provider, accountId)] *)
Definition isAccountDisabled (disabledAccounts : list string) (provider accountId : string)
  : bool :=
  queueIncludes disabledAccounts (accountKey provider accountId).

(** [getDisabledAccounts()] *)
Definition getDisabledAccounts (disabledAccounts : list string) : list string :=
  disabledAccounts.

(** [toggleAccountDisabled(provider, accountId)]: the [disabled] flag
    returned and the array saved. *)
Definition toggleAccountDisabled (provider accountId : string)
    (disabledAccounts : list string) : bool * list string :=
  let key := accountKey provider accountId in
  if queueIncludes disabledAccounts key
  then (false, removeFromQueue key disabledAccounts)
  else (true, (disabledAccounts ++ [key])%list).

End Routing.


(** ** Model name normalization *)

Module ModelNames.

(** The own properties of the object literal [MODEL_ALIASES]. *)
Definition MODEL_ALIASES : list (string * string) :=
  [("claude-sonnet-4-5-20250929", "claude-sonnet-4-5-thinking");
   ("claude-haiku-4-5-20251001", "claude-haiku-4-5");
   ("claude-opus-4-5-20251101", "claude-opus-4-5-thinking");
   ("claude-3-5-sonnet-20241022", "claude-sonnet-4-5");
   ("claude-3-5-sonnet-20240620", "claude-sonnet-4-5");
   ("claude-3-haiku-20240307", "claude-haiku-4-5");
   ("claude-opus-4", "claude-opus-4-5-thinking");
   ("claude-haiku-4", "claude-haiku-4-5")].

(** The properties that an object literal inherits from
    [Object.prototype]; [MODEL_ALIASES[name]] finds them too, and each is
    a function or an object, so truthy. *)
Definition objectPrototypeKeys : list string :=
  ["constructor"; "__defineGetter__"; "__defineSetter__"; "hasOwnProperty";
   "__lookupGetter__"; "__lookupSetter__"; "isPrototypeOf"; "propertyIsEnumerable";
   "toString"; "valueOf"; "__proto__"; "toLocaleString"].

(** What [normalizeModelName] returns: a model name, or the inherited
    member of [Object.prototype] found under the given name. *)
Inductive normalized : Set :=
| Name (name : string)
| Inherited (key : string).

(** The alternation [(?:sonnet|opus|haiku)]. *)
Definition families : list string := ["sonnet"; "opus"; "haiku"].

Fixpoint dropFamily (fams : list string) (s : string) : option (string * string) :=
  match fams with
  | [] => None
  | family :: rest =>
      match Json.dropPrefix family s with
      | Some r => Some (family, r)
      | None => dropFamily rest s
      end
  end.

(** [modelName.match(/^(claude-(?:sonnet|opus|haiku)-\d+-\d+)-\d{8}$/)]:
    the first group of the match.  A run of digits is followed by a
    hyphen or by the end, so the greedy match is the only one. *)
Definition matchDate (modelName : string) : option string :=
  match Json.dropPrefix "claude-" modelName with
  | None => None
  | Some r1 =>
      match dropFamily families r1 with
      | None => None
      | Some (family, r2) =>
          match Json.dropPrefix "-" r2 with
          | None => None
          | Some r3 =>
              let (major, r4) := Json.takeDigits r3 in
              match major, Json.dropPrefix "-" r4 with
              | String _ _, Some r5 =>
                  let (minor, r6) := Json.takeDigits r5 in
                  match minor, Json.dropPrefix "-" r6 with
                  | String _ _, Some r7 =>
                      let (date, r8) := Json.takeDigits r7 in
                      if (String.length date =? 8)%nat
                         && match r8 with EmptyString => true | _ => false end
                      then Some ("claude-" ++ family ++ "-" ++ major ++ "-" ++ minor)
                      else None
                  | _, _ => None
                  end
              | _, _ => None
              end
          end
      end
  end.

(** [normalizeModelName(modelName)] *)
Definition normalizeModelName (modelName : string) : normalized :=
  let byPattern :=
    match matchDate modelName with
    | Some base => Name base
    | None => Name modelName
    end in
  match JsMap.get modelName MODEL_ALIASES with
  | Some (String c r) => Name (String c r)
  | Some EmptyString => byPattern
  | None =>
      if existsb (String.eqb modelName) objectPrototypeKeys
      then Inherited modelName
      else byPattern
  end.

End ModelNames.

(** ** Inputs used in the examples *)

Definition quote (s : string) : string :=
  String (ascii_of_N 34) (s ++ String (ascii_of_N 34) EmptyString).

(** The body
    [{"error":{"status":"RESOURCE_EXHAUSTED","message":"Resource has been exhausted (e.g. check quota)."}}] *)
Definition resourceExhaustedBody : string :=
  "{" ++ quote "error" ++ ":{" ++ quote "status" ++ ":" ++ quote "RESOURCE_EXHAUSTED"
  ++ "," ++ quote "message" ++ ":"
  ++ quote "Resource has been exhausted (e.g. check quota)." ++ "}}".

Definition sampleRecord (i : string) : PersistedAccount :=
  {| p_id := i; p_email := i ++ "@example.com"; p_accessToken := "token-" ++ i;
     p_refreshToken := "refresh-" ++ i; p_expiresAt := 0; p_projectId := Some "project" |}.

(** A loaded manager with the single account [a], nothing locked. *)
Definition oneAccount : Manager :=
  {| accounts := [("a", fromPersisted (sampleRecord "a"))]; loaded := true;
     lastUsedAccount := None; accountQueue := ["a"]; inFlightAccounts := ∅ |}.

(** No stored credentials, nothing disabled or blacklisted, no quota data,
    no reserve, a refresh endpoint that rejects every token. *)
Definition quietEnv (t : Z) : Env :=
  {| now := t; later := t; rosterFile := None; storeList := [];
     storeGet := fun _ => None;
     isAccountDisabled := fun _ => false;
     isQuotaBlacklisted := fun _ _ => false;
     getAccountModelQuotaPercent := fun _ _ => None;
     quotaReservePercent := 0%Q;
     refreshAccessToken := fun _ => None;
     getProjectID := fun _ => None;
     generateMockProjectId := "mock-project" |}.

(** The account [a] locked globally and for images, with failures counted
    in both scopes. *)
Definition lockedAccount : Account :=
  {| id := "a"; email := "a@example.com"; accessToken := "token-a";
     refreshToken := "refresh-a"; expiresAt := 0; projectId := Some "project";
     categoryRateLimits := {[ image := {| until := 61000; failures := 2 |} ]};
     rateLimitedUntil := Some 61000; consecutiveFailures := 3 |}.

Definition lockedManager : Manager :=
  {| accounts := [("a", lockedAccount)]; loaded := true;
     lastUsedAccount := None; accountQueue := ["a"]; inFlightAccounts := ∅ |}.

(** A loaded manager whose single account [a] has a token that expires at
    200000. *)
Definition expiringManager : Manager :=
  {| accounts := [("a", clearAccount "a" "a@example.com" "token-a" "refresh-a"
                          200000 (Some "project"))];
     loaded := true; lastUsedAccount := None; accountQueue := ["a"];
     inFlightAccounts := ∅ |}.

(** Two acquisitions of the same id with a [removeAccount] of that id in
    between, and none released. *)
Definition purgedRun : list Guard.event :=
  [Guard.Acquire; Guard.Resume 0; Guard.Remove; Guard.Acquire; Guard.Resume 1].

(** Two acquisitions, the second one queued behind the first. *)
Definition orderlyRun : list Guard.event :=
  [Guard.Acquire; Guard.Resume 0; Guard.Acquire; Guard.Release 0; Guard.Settle 0;
   Guard.Resume 1; Guard.Tick 200; Guard.Fire 1].

Definition noContext (t : Z) : ErrorContext :=
  {| e_now := t; e_retryDelayMs := None; e_cachedResetMs := None;
     e_jitter := 0; e_maxDurationMs := None |}.

(** The ledger once a first call holds the lock. *)
Definition heldLedger : Guard.ledger :=
  {| Guard.accountLock := Some 0%nat; Guard.lastCall := Some 1000;
     Guard.inFlight := true;
     Guard.calls := [{| Guard.previous := None; Guard.stage := Guard.Holding;
                        Guard.started := Some 1000 |}];
     Guard.settled := []; Guard.clock := 1000 |}.

(** The ledger once a first call has been released while a second one
    waits behind it. *)
Definition queuedLedger : Guard.ledger :=
  {| Guard.accountLock := Some 1%nat; Guard.lastCall := Some 1000;
     Guard.inFlight := false;
     Guard.calls := [{| Guard.previous := None; Guard.stage := Guard.Released;
                        Guard.started := Some 1000 |};
                     {| Guard.previous := Some 0%nat; Guard.stage := Guard.AwaitPrevious;
                        Guard.started := None |}];
     Guard.settled := []; Guard.clock := 1000 |}.

(** A blacklist with one entry that expired at 1500. *)
Definition staleBlacklist : list (string * Z) :=
  [(QuotaBlacklist.getKey "antigravity" "a" "gemini-3-pro", 1500)].

(** ** Predicates used to state the properties *)

(** The keyword scan as the specification words it: rate-limit phrases,
    then "capacity", then "quota", then a bare "exhausted". *)
Definition scanBySpec (lower : string) : RateLimitReason :=
  if Str.includes lower "per minute" || Str.includes lower "rate limit"
     || Str.includes lower "too many requests" then rate_limit_exceeded
  else if Str.includes lower "capacity" then model_capacity_exhausted
  else if Str.includes lower "quota" then quota_exhausted
  else if Str.includes lower "exhausted" then rate_limit_exceeded
  else unknown.

(** Structured parsing of the body gives no verdict: the [try] block does
    not return. *)
Definition noVerdict (errorText : string) : Prop :=
  forall r, Classifier.structured errorText <> Classifier.Returned r.

(** The queue is a permutation of the registry's ids. *)
Definition queueIsPermutation (m : Manager) : Prop :=
  m.(accountQueue) ≡ₚ JsMap.keys m.(accounts).

(** The queue holds no id twice and only registered ids, and the registry
    holds no key twice. *)
Definition queueWithinRegistry (m : Manager) : Prop :=
  NoDup m.(accountQueue)
  /\ NoDup (JsMap.keys m.(accounts))
  /\ forall i, i ∈ m.(accountQueue) -> i ∈ JsMap.keys m.(accounts).

(** The operations of the manager's lifecycle that touch the registry or
    the queue. *)
Inductive operation : Type :=
| OpAdd (account : PersistedAccount)
| OpRemove (accountIdOrEmail : string)
| OpDemote (accountId : string)
| OpLoad (file : option (list PersistedAccount)) (store : list StoredAccount)
| OpHydrate (fromStore : list StoredAccount)
| OpSelect (env : Env) (forceRotate : bool) (modelId : option string)
| OpGetById (env : Env) (accountId : string) (modelId : option string).

Definition perform (op : operation) (m : Manager) : Manager :=
  match op with
  | OpAdd account => addAccount account m
  | OpRemove i => fst (removeAccount i m)
  | OpDemote i => moveToEndOfQueue i m
  | OpLoad file store => load file store m
  | OpHydrate fromStore => hydrateFromAuthStore fromStore m
  | OpSelect env forceRotate modelId => fst (getNextAvailableAccount env forceRotate modelId m)
  | OpGetById env i modelId => fst (getAccountById env i modelId m)
  end.

Definition performAll (ops : list operation) (m : Manager) : Manager :=
  fold_left (fun m op => perform op m) ops m.

(** The operations that keep the queue a permutation of the registry:
    add, remove and demote in every state, a selection once the manager is
    loaded. *)
Definition keepsPermutation (op : operation) (m : Manager) : bool :=
  match op with
  | OpAdd _ | OpRemove _ | OpDemote _ => true
  | OpSelect _ _ _ => m.(loaded)
  | OpLoad _ _ | OpHydrate _ | OpGetById _ _ _ => false
  end.

(** Every registry entry sits under its own [id], and no key occurs
    twice: what [load], [addAccount] and [hydrateFromAuthStore] maintain. *)
Definition registryKeyed (m : Manager) : Prop :=
  NoDup (JsMap.keys m.(accounts))
  /\ Forall (fun entry => (snd entry).(id) = fst entry) m.(accounts).

(** Every lockout of the account is clear. *)
Definition lockoutsClear (a : Account) : Prop :=
  a.(rateLimitedUntil) = None /\ a.(consecutiveFailures) = 0
  /\ a.(categoryRateLimits) = ∅.

(** Two accounts agree on the six persisted fields. *)
Definition sameCredentials (a b : Account) : Prop :=
  a.(id) = b.(id) /\ a.(email) = b.(email) /\ a.(accessToken) = b.(accessToken)
  /\ a.(refreshToken) = b.(refreshToken) /\ a.(expiresAt) = b.(expiresAt)
  /\ a.(projectId) = b.(projectId).

(** A scope's lockout is absent or has expired at [T]. *)
Definition expiredOrAbsent (T : Z) (lockedUntil : option Z) : Prop :=
  match lockedUntil with
  | None => True
  | Some u => u <= T
  end.

(** [m'] has the queue of [m] and a registry that still holds, once each,
    at least the keys of [m]. *)
Definition grows (m m' : Manager) : Prop :=
  m'.(accountQueue) = m.(accountQueue)
  /\ (NoDup (JsMap.keys m.(accounts)) -> NoDup (JsMap.keys m'.(accounts)))
  /\ forall i, i ∈ JsMap.keys m.(accounts) -> i ∈ JsMap.keys m'.(accounts).

(** [m'] has the queue of [m] and the same registry keys in the same
    order. *)
Definition sameShape (m m' : Manager) : Prop :=
  m'.(accountQueue) = m.(accountQueue)
  /\ JsMap.keys m'.(accounts) = JsMap.keys m.(accounts).

(** The lockouts of an account that a query for [modelId] reads, as the
    waits left at [now]: the global one, and the category's when the model
    has a known category. *)
Definition activeWaits (now : Z) (modelId : option string) (account : Account) : list Z :=
  (match account.(rateLimitedUntil) with
   | Some u => if now <? u then [u - now] else []
   | None => []
   end
   ++
   (if given modelId && negb (bool_decide (getModelCategory modelId = unknownCategory)) then
      match account.(categoryRateLimits) !! getModelCategory modelId with
      | Some catLimit => if now <? catLimit.(until) then [catLimit.(until) - now] else []
      | None => []
      end
    else []))%list.

(** The failure count that the cool-down schedule reads for a model: the
    category's when the model has a known category, the account's
    otherwise. *)
Definition failuresOf (a : Account) (modelId : option string) : Z :=
  let category := getModelCategory modelId in
  if negb (bool_decide (category = unknownCategory)) then
    match a.(categoryRateLimits) !! category with
    | Some l => l.(failures)
    | None => 0
    end
  else a.(consecutiveFailures).

(** [inFlightAccounts] holds the id exactly while some call holds the
    lock. *)
Definition flagAccurate (s : Guard.ledger) : Prop :=
  s.(Guard.inFlight) = true
  <-> exists k c, s.(Guard.calls) !! k = Some c /\ Guard.holding c = true.

(** [accountLocks] has no entry for the id exactly when every call made
    so far has been released. *)
Definition lockTidy (s : Guard.ledger) : Prop :=
  s.(Guard.accountLock) = None
  <-> forall j c, s.(Guard.calls) !! j = Some c -> Guard.released c = true.

(** The entry of [accountLocks], when there is one, is the [tail] of a
    call that has not been released. *)
Definition lockPending (s : Guard.ledger) : Prop :=
  forall k, s.(Guard.accountLock) = Some k ->
  exists c, s.(Guard.calls) !! k = Some c /\ Guard.released c = false.

(** The events that need no caller: promise reactions, timers and the
    passing of time. *)
Definition isInternal (e : Guard.event) : bool :=
  match e with
  | Guard.Settle _ | Guard.Resume _ | Guard.Fire _ | Guard.Tick _ => true
  | _ => false
  end.

(** The string holds a colon. *)
Fixpoint hasColon (s : string) : bool :=
  match s with
  | EmptyString => false
  | String c r => Ascii.eqb c ":" || hasColon r
  end.

(** Every character is a decimal digit. *)
Fixpoint allDigits (s : string) : bool :=
  match s with
  | EmptyString => true
  | String c r => Json.isDigit c && allDigits r
  end.

(** The string does not begin with a decimal digit. *)
Definition noLeadingDigit (s : string) : bool :=
  match s with
  | EmptyString => true
  | String c _ => negb (Json.isDigit c)
  end.

(** The shape of a name without its date: [claude-], a family, and two
    runs of digits set off by hyphens. *)
Definition isBase (s : string) : bool :=
  match Json.dropPrefix "claude-" s with
  | None => false
  | Some r1 =>
      match ModelNames.dropFamily ModelNames.families r1 with
      | None => false
      | Some (_, r2) =>
          match Json.dropPrefix "-" r2 with
          | None => false
          | Some r3 =>
              let (major, r4) := Json.takeDigits r3 in
              match major, Json.dropPrefix "-" r4 with
              | String _ _, Some r5 =>
                  let (minor, r6) := Json.takeDigits r5 in
                  match minor, r6 with
                  | String _ _, EmptyString => true
                  | _, _ => false
                  end
              | _, _ => false
              end
          end
      end
  end.

(** * Properties *)

(** ** Strings *)

Lemma append_nil (s : string) : EmptyString ++ s = s.
Proof. reflexivity. Qed.

Lemma append_cons (c : ascii) (s t : string) : String c s ++ t = String c (s ++ t).
Proof. reflexivity. Qed.

Lemma startsWith_app (s p : string) :
  Str.startsWith s p = true <-> exists r, s = p ++ r.
Proof.
  revert s. induction p as [|a p IH]; intros s; simpl.
  - split; [intros _; exists s; reflexivity | trivial].
  - destruct s as [|b s]; simpl.
    + split; [discriminate | intros [r Hr]; discriminate].
    + rewrite andb_true_iff, IH. split.
      * intros [Hab [r ->]]. apply Ascii.eqb_eq in Hab. subst. eauto.
      * intros [r Hr]. rewrite append_cons in Hr. injection Hr as -> ->.
        split; [apply Ascii.eqb_refl | eauto].
Qed.

Lemma string_app_assoc (a b c : string) : (a ++ b) ++ c = a ++ (b ++ c).
Proof.
  induction a as [|x a IH]; [reflexivity|].
  rewrite !append_cons. now rewrite IH.
Qed.

(** [includes] is the substring test. *)
Lemma includes_app (s t : string) :
  Str.includes s t = true <-> exists a b, s = a ++ t ++ b.
Proof.
  induction s as [|c s IH].
  - simpl. rewrite orb_false_r, startsWith_app. split.
    + intros [r Hr]. exists EmptyString, r. exact Hr.
    + intros [a [b Hab]]. destruct a; [eauto | discriminate].
  - simpl. rewrite orb_true_iff, startsWith_app, IH. split.
    + intros [[r Hr] | [a [b Hab]]].
      * exists EmptyString, r. exact Hr.
      * exists (String c a), b. rewrite append_cons. now rewrite Hab.
    + intros [a [b Hab]]. destruct a as [|x a].
      * left. eauto.
      * right. rewrite append_cons in Hab. injection Hab as _ ->. eauto.
Qed.

Lemma includes_trans (s t u : string) :
  Str.includes s t = true -> Str.includes t u = true -> Str.includes s u = true.
Proof.
  rewrite !includes_app. intros [a [b ->]] [c [d ->]].
  exists (a ++ c), (d ++ b). now rewrite !string_app_assoc.
Qed.

Lemma includes_capacity (lower : string) :
  Str.includes lower "model_capacity" = true -> Str.includes lower "capacity" = true.
Proof. intros H. apply (includes_trans _ _ _ H). reflexivity. Qed.

(** ** The JSON parser *)

Section json_facts.
Import Json.

Lemma skipWs_length (s : string) : (String.length (skipWs s) <= String.length s)%nat.
Proof.
  induction s as [|c s IH]; simpl; [lia|].
  destruct (isWs c); simpl; lia.
Qed.

Lemma skipWs_cons_length (s r : string) (c : ascii) :
  skipWs s = String c r -> (String.length r < String.length s)%nat.
Proof.
  intros H. pose proof (skipWs_length s) as Hl. rewrite H in Hl. simpl in Hl. lia.
Qed.

Lemma utf8_length (n : N) (tail : string) :
  (String.length tail < String.length (utf8 n tail))%nat.
Proof. unfold utf8. destruct (_ <? _)%N; [|destruct (_ <? _)%N]; simpl; lia. Qed.

Lemma parseChars_length_bounded (n : nat) (s str rest : string) :
  (String.length s <= n)%nat ->
  parseChars s = Some (str, rest) -> (String.length rest < String.length s)%nat.
Proof.
  revert s str rest. induction n as [|n IH]; intros s str rest Hn.
  - destruct s; [discriminate | simpl in Hn; lia].
  - destruct s as [|c r]; simpl; [discriminate|]. simpl in Hn.
    destruct (N_of_ascii c =? 34)%N; [intros [= _ <-]; lia|].
    destruct (N_of_ascii c =? 92)%N.
    + destruct r as [|e r1]; [discriminate|].
      destruct (N_of_ascii e =? 117)%N.
      * destruct r1 as [|h1 [|h2 [|h3 [|h4 r2]]]]; try discriminate.
        destruct (hexValue h1), (hexValue h2), (hexValue h3), (hexValue h4);
          try discriminate.
        destruct (parseChars r2) as [[str' rest']|] eqn:E; [|discriminate].
        intros [= _ <-]. apply IH in E; simpl in *; lia.
      * destruct (simpleEscape e); [|discriminate].
        destruct (parseChars r1) as [[str' rest']|] eqn:E; [|discriminate].
        intros [= _ <-]. apply IH in E; simpl in *; lia.
    + destruct (N_of_ascii c <? 32)%N; [discriminate|].
      destruct (parseChars r) as [[str' rest']|] eqn:E; [|discriminate].
      intros [= _ <-]. apply IH in E; simpl in *; lia.
Qed.

Lemma parseChars_length (s str rest : string) :
  parseChars s = Some (str, rest) -> (String.length rest < String.length s)%nat.
Proof. apply (parseChars_length_bounded (String.length s)). lia. Qed.

Lemma takeDigits_length (s : string) :
  (String.length (fst (takeDigits s)) + String.length (snd (takeDigits s))
   = String.length s)%nat.
Proof.
  induction s as [|c s IH]; simpl; [reflexivity|].
  destruct (isDigit c); simpl; [|reflexivity].
  destruct (takeDigits s) as [d rest]. simpl in *. lia.
Qed.

Lemma takeDigits_rest (s d rest : string) :
  takeDigits s = (d, rest) ->
  (String.length d + String.length rest = String.length s)%nat.
Proof.
  intros H. pose proof (takeDigits_length s) as Hl. rewrite H in Hl. exact Hl.
Qed.

Lemma parseUnsigned_length (s lex rest : string) :
  parseUnsigned s = Some (lex, rest) -> (String.length rest < String.length s)%nat.
Proof.
  unfold parseUnsigned.
  destruct (takeDigits s) as [int r0] eqn:E0. apply takeDigits_rest in E0.
  destruct int as [|d more]; [discriminate|]. simpl in E0.
  destruct (_ && _); [discriminate|].
  match goal with |- context [match ?f with Some _ => _ | None => _ end] =>
    destruct f as [[frac r2]|] eqn:Ef end; [|discriminate].
  assert (H2 : (String.length r2 <= String.length r0)%nat).
  { destruct r0 as [|dot r1]; [injection Ef as _ <-; lia|].
    destruct (N_of_ascii dot =? 46)%N; [|injection Ef as _ <-; lia].
    destruct (takeDigits r1) as [f r2'] eqn:E1. apply takeDigits_rest in E1.
    destruct f; [discriminate|]. injection Ef as _ <-. simpl in *. lia. }
  match goal with |- context [match ?f with Some _ => _ | None => _ end] =>
    destruct f as [[ex r5]|] eqn:Ee end; [|discriminate].
  assert (H5 : (String.length r5 <= String.length r2)%nat).
  { destruct r2 as [|e r3]; [injection Ee as _ <-; lia|].
    destruct (_ || _); [|injection Ee as _ <-; lia].
    match type of Ee with context [let (_, _) := ?p in _] =>
      destruct p as [sign r4] eqn:Es end.
    assert (H4 : (String.length r4 <= String.length r3)%nat).
    { destruct r3 as [|sg r4']; [injection Es as _ <-; lia|].
      destruct (_ || _); injection Es as _ <-; simpl; lia. }
    destruct (takeDigits r4) as [ds r5'] eqn:E4. apply takeDigits_rest in E4.
    destruct ds; [discriminate|]. injection Ee as _ <-. simpl in *. lia. }
  intros [= _ <-]. lia.
Qed.

Lemma parseNumber_length (s lex rest : string) :
  parseNumber s = Some (lex, rest) -> (String.length rest < String.length s)%nat.
Proof.
  unfold parseNumber. destruct s as [|c r]; [discriminate|].
  destruct (N_of_ascii c =? 45)%N.
  - destruct (parseUnsigned r) as [[lex' rest']|] eqn:E; [|discriminate].
    intros [= _ <-]. apply parseUnsigned_length in E. simpl. lia.
  - apply parseUnsigned_length.
Qed.

Lemma dropPrefix_length (p s rest : string) :
  dropPrefix p s = Some rest ->
  (String.length rest + String.length p = String.length s)%nat.
Proof.
  revert s. induction p as [|a p IH]; intros s; simpl.
  - intros [= <-]. lia.
  - destruct s as [|b s]; [discriminate|].
    destruct (Ascii.eqb a b); [|discriminate].
    intros H. apply IH in H. simpl. lia.
Qed.

(** A successful parsing function has read at least one character. *)
Lemma parse_consumes (fuel : nat) :
  forall (s : string) (v : json) (rest : string),
    (parseValue fuel s = POk v rest -> (String.length rest < String.length s)%nat)
    /\ (forall acc, parseElements fuel s acc = POk v rest ->
                    (String.length rest < String.length s)%nat)
    /\ (forall acc, parseMembers fuel s acc = POk v rest ->
                    (String.length rest < String.length s)%nat).
Proof.
  induction fuel as [|f IH]; intros s v rest.
  - repeat split; intros; discriminate.
  - split; [|split].
    + cbn [parseValue].
      destruct (skipWs s) as [|c r0] eqn:Hs; [discriminate|].
      pose proof (skipWs_cons_length _ _ _ Hs) as Hr0.
      destruct (N_of_ascii c =? 123)%N.
      { destruct (skipWs r0) as [|c1 r1] eqn:Hs1; [discriminate|].
        pose proof (skipWs_cons_length _ _ _ Hs1) as Hr1.
        destruct (N_of_ascii c1 =? 125)%N; [intros [= _ <-]; lia|].
        intros H. apply (IH r0 v rest) in H. lia. }
      destruct (N_of_ascii c =? 91)%N.
      { destruct (skipWs r0) as [|c1 r1] eqn:Hs1; [discriminate|].
        pose proof (skipWs_cons_length _ _ _ Hs1) as Hr1.
        destruct (N_of_ascii c1 =? 93)%N; [intros [= _ <-]; lia|].
        intros H. apply (IH r0 v rest) in H. lia. }
      destruct (N_of_ascii c =? 34)%N.
      { destruct (parseChars r0) as [[str rest']|] eqn:E; [|discriminate].
        intros [= _ <-]. apply parseChars_length in E. lia. }
      pose proof (skipWs_length s) as Hle. rewrite Hs in Hle.
      destruct (N_of_ascii c =? 116)%N.
      { destruct (dropPrefix "true" (String c r0)) as [rest'|] eqn:E; [|discriminate].
        intros [= _ <-]. apply dropPrefix_length in E. simpl in *. lia. }
      destruct (N_of_ascii c =? 102)%N.
      { destruct (dropPrefix "false" (String c r0)) as [rest'|] eqn:E; [|discriminate].
        intros [= _ <-]. apply dropPrefix_length in E. simpl in *. lia. }
      destruct (N_of_ascii c =? 110)%N.
      { destruct (dropPrefix "null" (String c r0)) as [rest'|] eqn:E; [|discriminate].
        intros [= _ <-]. apply dropPrefix_length in E. simpl in *. lia. }
      destruct (parseNumber (String c r0)) as [[lex rest']|] eqn:E; [|discriminate].
      intros [= _ <-]. apply parseNumber_length in E. lia.
    + intros acc. cbn [parseElements].
      destruct (parseValue f s) as [v0 r|  |] eqn:Hv; try discriminate.
      apply (IH s v0 r) in Hv.
      destruct (skipWs r) as [|c r1] eqn:Hs1; [discriminate|].
      pose proof (skipWs_cons_length _ _ _ Hs1) as Hr1.
      destruct (N_of_ascii c =? 44)%N.
      { intros H. apply (IH r1 v rest) in H. lia. }
      destruct (N_of_ascii c =? 93)%N; [|discriminate].
      intros [= _ <-]. lia.
    + intros acc. cbn [parseMembers].
      destruct (skipWs s) as [|q r] eqn:Hs; [discriminate|].
      pose proof (skipWs_cons_length _ _ _ Hs) as Hr.
      destruct (N_of_ascii q =? 34)%N; [|discriminate].
      destruct (parseChars r) as [[key r0]|] eqn:Hkey; [|discriminate].
      apply parseChars_length in Hkey.
      destruct (skipWs r0) as [|colon r1] eqn:Hs0; [discriminate|].
      pose proof (skipWs_cons_length _ _ _ Hs0) as Hr1.
      destruct (N_of_ascii colon =? 58)%N; [|discriminate].
      destruct (parseValue f r1) as [v0 r2|  |] eqn:Hv; try discriminate.
      apply (IH r1 v0 r2) in Hv.
      destruct (skipWs r2) as [|c r3] eqn:Hs2; [discriminate|].
      pose proof (skipWs_cons_length _ _ _ Hs2) as Hr3.
      destruct (N_of_ascii c =? 44)%N.
      { intros H. apply (IH r3 v rest) in H. lia. }
      destruct (N_of_ascii c =? 125)%N; [|discriminate].
      intros [= _ <-]. lia.
Qed.

(** With a budget of twice the length of the input the parsing functions
    do not run out of it. *)
Lemma parse_fuel_enough (fuel : nat) :
  forall s : string,
    ((2 * String.length s + 1 <= fuel)%nat -> parseValue fuel s <> POutOfFuel)
    /\ ((2 * String.length s + 2 <= fuel)%nat ->
        forall acc, parseElements fuel s acc <> POutOfFuel)
    /\ ((2 * String.length s + 2 <= fuel)%nat ->
        forall acc, parseMembers fuel s acc <> POutOfFuel).
Proof.
  induction fuel as [|f IH]; intros s.
  - repeat split; intros; lia.
  - split; [|split]; intros Hf.
    + cbn [parseValue].
      destruct (skipWs s) as [|c r0] eqn:Hs; [discriminate|].
      pose proof (skipWs_cons_length _ _ _ Hs) as Hr0.
      destruct (N_of_ascii c =? 123)%N.
      { destruct (skipWs r0) as [|c1 r1]; [discriminate|].
        destruct (N_of_ascii c1 =? 125)%N; [discriminate|].
        apply (IH r0). lia. }
      destruct (N_of_ascii c =? 91)%N.
      { destruct (skipWs r0) as [|c1 r1]; [discriminate|].
        destruct (N_of_ascii c1 =? 93)%N; [discriminate|].
        apply (IH r0). lia. }
      destruct (N_of_ascii c =? 34)%N; [destruct (parseChars r0) as [[? ?]|]; discriminate|].
      destruct (N_of_ascii c =? 116)%N; [destruct (dropPrefix _ _); discriminate|].
      destruct (N_of_ascii c =? 102)%N; [destruct (dropPrefix _ _); discriminate|].
      destruct (N_of_ascii c =? 110)%N; [destruct (dropPrefix _ _); discriminate|].
      destruct (parseNumber _) as [[? ?]|]; discriminate.
    + intros acc. cbn [parseElements].
      destruct (parseValue f s) as [v0 r|  |] eqn:Hv; [|discriminate|].
      * apply (parse_consumes f s v0 r) in Hv.
        destruct (skipWs r) as [|c r1] eqn:Hs1; [discriminate|].
        pose proof (skipWs_cons_length _ _ _ Hs1) as Hr1.
        destruct (N_of_ascii c =? 44)%N; [apply (IH r1); lia|].
        destruct (N_of_ascii c =? 93)%N; discriminate.
      * exfalso. revert Hv. apply (IH s). lia.
    + intros acc. cbn [parseMembers].
      destruct (skipWs s) as [|q r] eqn:Hs; [discriminate|].
      pose proof (skipWs_cons_length _ _ _ Hs) as Hr.
      destruct (N_of_ascii q =? 34)%N; [|discriminate].
      destruct (parseChars r) as [[key r0]|] eqn:Hkey; [|discriminate].
      apply parseChars_length in Hkey.
      destruct (skipWs r0) as [|colon r1] eqn:Hs0; [discriminate|].
      pose proof (skipWs_cons_length _ _ _ Hs0) as Hr1.
      destruct (N_of_ascii colon =? 58)%N; [|discriminate].
      destruct (parseValue f r1) as [v0 r2|  |] eqn:Hv; [|discriminate|].
      * apply (parse_consumes f r1 v0 r2) in Hv.
        destruct (skipWs r2) as [|c r3] eqn:Hs2; [discriminate|].
        pose proof (skipWs_cons_length _ _ _ Hs2) as Hr3.
        destruct (N_of_ascii c =? 44)%N; [apply (IH r3); lia|].
        destruct (N_of_ascii c =? 125)%N; discriminate.
      * exfalso. revert Hv. apply (IH r1). lia.
Qed.

(** [parse] fails only on a syntax error. *)
Lemma parse_budget (text : string) :
  parseValue (S (2 * String.length text)) text <> POutOfFuel.
Proof. apply parse_fuel_enough. lia. Qed.
End json_facts.

(** ** The cool-down policy *)

Lemma quota_schedule_values :
  defaultRateLimitMs quota_exhausted 1 = 300000
  /\ defaultRateLimitMs quota_exhausted 2 = 900000
  /\ defaultRateLimitMs quota_exhausted 3 = 3600000
  /\ defaultRateLimitMs quota_exhausted 4 = 7200000.
Proof. repeat split. Qed.

Lemma quota_schedule_floor (n : Z) : 300000 <= defaultRateLimitMs quota_exhausted n.
Proof.
  unfold defaultRateLimitMs.
  repeat match goal with |- context [if ?b then _ else _] => destruct b end; lia.
Qed.

(** C6: for every reason the lockout duration is non-decreasing in the
    consecutive-failure count, and the quota schedule never exceeds its
    ceiling of two hours, which it reaches from the fourth failure on. *)
Theorem C6_cooldown_monotone_and_capped :
  (forall (reason : RateLimitReason) (n m : Z),
      n <= m -> defaultRateLimitMs reason n <= defaultRateLimitMs reason m)
  /\ (forall n : Z, defaultRateLimitMs quota_exhausted n <= 2 * 60 * 60000)
  /\ (forall n : Z, 4 <= n -> defaultRateLimitMs quota_exhausted n = 2 * 60 * 60000).
Proof.
  split; [|split].
  - intros reason n m Hnm. destruct reason; simpl; try lia.
    destruct (Z.leb_spec n 1), (Z.leb_spec m 1); try lia;
      destruct (Z.eqb_spec n 2), (Z.eqb_spec m 2); try lia;
      destruct (Z.eqb_spec n 3), (Z.eqb_spec m 3); lia.
  - intros n. simpl.
    destruct (Z.leb_spec n 1); [lia|].
    destruct (Z.eqb_spec n 2); [lia|].
    destruct (Z.eqb_spec n 3); lia.
  - intros n Hn. simpl.
    destruct (Z.leb_spec n 1); [lia|].
    destruct (Z.eqb_spec n 2); [lia|].
    destruct (Z.eqb_spec n 3); lia.
Qed.

Lemma C6_witness :
  defaultRateLimitMs quota_exhausted 1 <= defaultRateLimitMs quota_exhausted 3
  /\ defaultRateLimitMs server_error 2 <= defaultRateLimitMs server_error 9
  /\ defaultRateLimitMs quota_exhausted 6 = 2 * 60 * 60000.
Proof.
  destruct C6_cooldown_monotone_and_capped as (Hmono & _ & Hceiling).
  split; [apply Hmono; lia|]. split; [apply Hmono; lia | apply Hceiling; lia].
Defined.

(** ** The classifier *)

Lemma parseRateLimitReason_not_429 (statusCode : Z) (errorText : string) :
  statusCode <> 429 ->
  Classifier.parseRateLimitReason statusCode errorText
  = if 500 <=? statusCode then server_error else unknown.
Proof.
  intros H. unfold Classifier.parseRateLimitReason.
  destruct (Z.eqb_spec statusCode 429); [contradiction | reflexivity].
Qed.

Lemma keywordScan_scanBySpec (lower : string) :
  Classifier.keywordScan lower = scanBySpec lower.
Proof.
  unfold Classifier.keywordScan, scanBySpec, Classifier.mentionsRateLimit.
  destruct (_ || _ || _); [reflexivity|].
  destruct (Str.includes lower "model_capacity") eqn:Hm; [|reflexivity].
  now rewrite (includes_capacity _ Hm).
Qed.

Lemma parseRateLimitReason_429_scan (errorText : string) :
  noVerdict errorText ->
  Classifier.parseRateLimitReason 429 errorText
  = scanBySpec (Str.toLowerCase errorText).
Proof.
  intros H. unfold Classifier.parseRateLimitReason. simpl.
  destruct (Classifier.structured errorText) as [r| |] eqn:E.
  - exfalso. exact (H r E).
  - apply keywordScan_scanBySpec.
  - apply keywordScan_scanBySpec.
Qed.

(** C2, as amended: a status of 500 or more, other than 429, gives
    [server_error]; any other status than 429 gives [unknown] without a
    look at the body; for status 429, when structured parsing gives no
    verdict, the keyword scan of the lowercased body decides, in the order
    of the specification ([scanBySpec]): rate-limit phrases, "capacity",
    "quota", "exhausted", else [unknown]. *)
Theorem C2_classifier_by_status_then_scan (statusCode : Z) (errorText : string) :
  (500 <= statusCode -> statusCode <> 429 ->
   Classifier.parseRateLimitReason statusCode errorText = server_error)
  /\ (statusCode < 500 -> statusCode <> 429 ->
      Classifier.parseRateLimitReason statusCode errorText = unknown)
  /\ (statusCode = 429 -> noVerdict errorText ->
      Classifier.parseRateLimitReason statusCode errorText
      = scanBySpec (Str.toLowerCase errorText)).
Proof.
  split; [|split].
  - intros Hge Hne. rewrite parseRateLimitReason_not_429 by assumption.
    destruct (Z.leb_spec 500 statusCode); [reflexivity | lia].
  - intros Hlt Hne. rewrite parseRateLimitReason_not_429 by assumption.
    destruct (Z.leb_spec 500 statusCode); [lia | reflexivity].
  - intros -> Hnone. apply parseRateLimitReason_429_scan, Hnone.
Qed.

Lemma noVerdict_plain_text : noVerdict "quota exceeded".
Proof. intros r. vm_compute. discriminate. Qed.

(** At status 403 the body "quota exceeded" is not scanned. *)
Lemma C2_counterexample :
  ~ (500 <= 403 /\ 403 <> 429)
  /\ noVerdict "quota exceeded"
  /\ scanBySpec (Str.toLowerCase "quota exceeded") = quota_exhausted
  /\ Classifier.parseRateLimitReason 403 "quota exceeded" = unknown
  /\ Classifier.parseRateLimitReason 403 "quota exceeded"
     <> scanBySpec (Str.toLowerCase "quota exceeded").
Proof.
  split; [lia|]. split; [exact noVerdict_plain_text|].
  repeat split; vm_compute; discriminate.
Qed.

Lemma noVerdict_quota_429 : noVerdict "Quota exceeded for this project".
Proof. intros r. vm_compute. discriminate. Qed.

Lemma C2_witness :
  Classifier.parseRateLimitReason 503 "upstream unavailable" = server_error
  /\ Classifier.parseRateLimitReason 403 "quota exceeded" = unknown
  /\ Classifier.parseRateLimitReason 429 "Quota exceeded for this project"
     = scanBySpec (Str.toLowerCase "Quota exceeded for this project").
Proof.
  split; [|split].
  - destruct (C2_classifier_by_status_then_scan 503 "upstream unavailable") as (H & _).
    apply H; lia.
  - destruct (C2_classifier_by_status_then_scan 403 "quota exceeded") as (_ & H & _).
    apply H; lia.
  - destruct (C2_classifier_by_status_then_scan 429 "Quota exceeded for this project")
      as (_ & _ & H).
    apply H; [reflexivity | exact noVerdict_quota_429].
Defined.

(** What the scan gives on some bodies of a 429. *)
Lemma scan_examples :
  Classifier.parseRateLimitReason 429 "Too many requests, slow down" = rate_limit_exceeded
  /\ Classifier.parseRateLimitReason 429 "No capacity available for model" = model_capacity_exhausted
  /\ Classifier.parseRateLimitReason 429 "Quota exceeded for this project" = quota_exhausted
  /\ Classifier.parseRateLimitReason 429 "Resource exhausted" = rate_limit_exceeded
  /\ Classifier.parseRateLimitReason 429 "try again" = unknown.
Proof. repeat split. Qed.

(** ** Lockouts computed from an error *)

Lemma resourceExhausted_is_quota :
  Classifier.parseRateLimitReason 429 resourceExhaustedBody = quota_exhausted.
Proof. vm_compute. reflexivity. Qed.

(** Structured inspection of that body ends in the exception, so the
    verdict comes from the keyword scan. *)
Lemma resourceExhausted_structured :
  Classifier.structured resourceExhaustedBody = Classifier.Thrown.
Proof. vm_compute. reflexivity. Qed.

(** A 429 classified as quota exhaustion, with neither a cached reset time
    nor a retry delay, is locked for the 429 default of ten seconds; the
    default schedule is not consulted. *)
Lemma lockoutFor_quota_429 (ctx : ErrorContext) (account : Account) (modelId : option string) :
  ctx.(e_retryDelayMs) = None -> ctx.(e_cachedResetMs) = None -> 0 <= ctx.(e_now) ->
  lockoutFor ctx account 429 quota_exhausted modelId = (10000, ctx.(e_now) + 10000).
Proof.
  intros Hr Hc Hn. unfold lockoutFor. rewrite Hr, Hc. simpl.
  replace (if given modelId then (0, None) else (0, None)) with (0, @None Z)
    by (destruct (given modelId); reflexivity).
  simpl.
  destruct (Z.eqb_spec (e_now ctx + 10000) 0); [lia|].
  destruct (e_maxDurationMs ctx); [|reflexivity].
  now rewrite andb_false_r.
Qed.

(** C1: the classifier returns [quota_exhausted] for the 429 with the
    RESOURCE_EXHAUSTED body, but such a failure, with no retry delay and
    no cached reset time, locks the account until ten seconds from now,
    whatever the count of consecutive failures: not for the first tier of
    the quota schedule (five minutes), which every tier of that schedule
    exceeds. *)
Theorem C1_quota_429_locks_ten_seconds
    (ctx : ErrorContext) (m : Manager) (accountId : string) (account : Account)
    (modelId : option string) :
  JsMap.get accountId m.(accounts) = Some account ->
  ctx.(e_retryDelayMs) = None -> ctx.(e_cachedResetMs) = None -> 0 <= ctx.(e_now) ->
  Classifier.parseRateLimitReason 429 resourceExhaustedBody = quota_exhausted
  /\ markRateLimitedFromError ctx accountId 429 resourceExhaustedBody modelId m
     = (updateAccount accountId (recordLimit account modelId (ctx.(e_now) + 10000)) m,
        Some (quota_exhausted, 10000))
  /\ defaultRateLimitMs quota_exhausted 1 = 5 * 60000
  /\ forall n, 10000 < defaultRateLimitMs quota_exhausted n.
Proof.
  intros Hget Hr Hc Hn. split; [exact resourceExhausted_is_quota|].
  split; [|split].
  - unfold markRateLimitedFromError. rewrite Hget, resourceExhausted_is_quota.
    now rewrite lockoutFor_quota_429.
  - reflexivity.
  - intros n. pose proof (quota_schedule_floor n). lia.
Qed.

Lemma C1_witness :
  snd (markRateLimitedFromError (noContext 1000) "a" 429 resourceExhaustedBody None oneAccount)
  = Some (quota_exhausted, 10000).
Proof.
  destruct (C1_quota_429_locks_ten_seconds (noContext 1000) oneAccount "a"
              (fromPersisted (sampleRecord "a")) None) as (_ & H & _);
    [reflexivity | reflexivity | reflexivity | simpl; lia |].
  now rewrite H.
Defined.

(** ** The insertion-ordered map *)

Section JsMap_facts.
Context {V : Type}.
Implicit Types (m : list (string * V)) (k : string) (v : V).

Lemma get_set_eq m k v : JsMap.get k (JsMap.set k v m) = Some v.
Proof.
  induction m as [|[k' v'] m IH]; simpl.
  - now rewrite String.eqb_refl.
  - destruct (String.eqb_spec k' k); simpl.
    + now rewrite String.eqb_refl.
    + destruct (String.eqb_spec k' k); [contradiction | exact IH].
Qed.

Lemma get_set_ne m k k' v : k <> k' -> JsMap.get k' (JsMap.set k v m) = JsMap.get k' m.
Proof.
  intros Hne. induction m as [|[k0 v0] m IH]; simpl.
  - destruct (String.eqb_spec k k'); [contradiction | reflexivity].
  - destruct (String.eqb_spec k0 k) as [->|Hk]; simpl.
    + destruct (String.eqb_spec k k'); [contradiction | reflexivity].
    + destruct (String.eqb_spec k0 k'); [reflexivity | exact IH].
Qed.

Lemma get_Some_keys m k v : JsMap.get k m = Some v -> k ∈ JsMap.keys m.
Proof.
  induction m as [|[k0 v0] m IH]; simpl; [discriminate|].
  destruct (String.eqb_spec k0 k) as [->|Hk].
  - intros _. apply list_elem_of_here.
  - intros H. apply list_elem_of_further, IH, H.
Qed.

Lemma get_None_keys m k : JsMap.get k m = None <-> k ∉ JsMap.keys m.
Proof.
  induction m as [|[k0 v0] m IH]; simpl.
  - split; [intros _; apply not_elem_of_nil | reflexivity].
  - rewrite not_elem_of_cons. destruct (String.eqb_spec k0 k) as [->|Hk].
    + split; [discriminate | intros [H _]; contradiction].
    + rewrite IH. split; [intros H; split; [congruence | exact H] | intros [_ H]; exact H].
Qed.

Lemma has_keys m k : JsMap.has k m = true <-> k ∈ JsMap.keys m.
Proof.
  unfold JsMap.has. destruct (JsMap.get k m) eqn:E.
  - split; [intros _; eapply get_Some_keys, E | reflexivity].
  - apply get_None_keys in E. split; [discriminate | contradiction].
Qed.

Lemma keys_set_present m k v : k ∈ JsMap.keys m -> JsMap.keys (JsMap.set k v m) = JsMap.keys m.
Proof.
  induction m as [|[k0 v0] m IH]; simpl.
  - intros H. inversion H.
  - destruct (String.eqb_spec k0 k) as [->|Hk]; [reflexivity|].
    intros H. apply elem_of_cons in H as [->|H]; [contradiction|].
    simpl. f_equal. apply IH, H.
Qed.

Lemma keys_set_absent m k v :
  k ∉ JsMap.keys m -> JsMap.keys (JsMap.set k v m) = (JsMap.keys m ++ [k])%list.
Proof.
  induction m as [|[k0 v0] m IH]; simpl; [reflexivity|].
  rewrite not_elem_of_cons. intros [Hne H].
  destruct (String.eqb_spec k0 k) as [->|Hk]; [contradiction|].
  simpl. f_equal. apply IH, H.
Qed.

Lemma keys_delete m k : JsMap.keys (JsMap.delete k m) = removeFromQueue k (JsMap.keys m).
Proof.
  induction m as [|[k0 v0] m IH]; simpl; [reflexivity|].
  destruct (String.eqb_spec k0 k); [reflexivity|]. simpl. now rewrite IH.
Qed.

Lemma size_zero_keys m : (JsMap.size m =? 0)%nat = true -> m = [].
Proof. destruct m; [reflexivity | discriminate]. Qed.
End JsMap_facts.

Lemma queueIncludes_elem (q : list string) (i : string) :
  queueIncludes q i = true <-> i ∈ q.
Proof.
  unfold queueIncludes. induction q as [|x q IH]; simpl.
  - split; [discriminate | intros H; inversion H].
  - rewrite orb_true_iff, IH, elem_of_cons.
    destruct (String.eqb_spec i x); split; intros [H|H]; auto; discriminate.
Qed.

Lemma removeFromQueue_absent (q : list string) (i : string) :
  i ∉ q -> removeFromQueue i q = q.
Proof.
  induction q as [|x q IH]; simpl; [reflexivity|].
  rewrite not_elem_of_cons. intros [Hne H].
  destruct (String.eqb_spec x i) as [->|_]; [contradiction|]. now rewrite IH.
Qed.

(** Removing a queued id leaves a list that, with the id put back in
    front, is a permutation of the queue. *)
Lemma removeFromQueue_perm (q : list string) (i : string) :
  i ∈ q -> q ≡ₚ i :: removeFromQueue i q.
Proof.
  induction q as [|x q IH]; simpl.
  - intros H. inversion H.
  - destruct (String.eqb_spec x i) as [->|Hne]; [reflexivity|].
    intros H. apply elem_of_cons in H as [->|H]; [contradiction|].
    rewrite (IH H) at 1. apply Permutation_swap.
Qed.

Lemma removeFromQueue_subset (q : list string) (i x : string) :
  x ∈ removeFromQueue i q -> x ∈ q.
Proof.
  induction q as [|y q IH]; simpl; [trivial|].
  destruct (String.eqb_spec y i).
  - apply list_elem_of_further.
  - rewrite !elem_of_cons. intros [->|H]; [left; reflexivity | right; apply IH, H].
Qed.

Lemma removeFromQueue_NoDup (q : list string) (i : string) :
  NoDup q -> NoDup (removeFromQueue i q) /\ i ∉ removeFromQueue i q.
Proof.
  induction q as [|x q IH]; simpl.
  - intros _. split; [constructor | apply not_elem_of_nil].
  - rewrite NoDup_cons. intros [Hx Hq]. destruct (IH Hq) as [IH1 IH2].
    destruct (String.eqb_spec x i) as [->|Hne].
    + split; assumption.
    + split.
      * apply NoDup_cons. split; [|exact IH1].
        intros H. apply Hx. eapply removeFromQueue_subset, H.
      * rewrite not_elem_of_cons. split; [congruence | exact IH2].
Qed.

(** ** Lockout scopes *)

Lemma category_known_given (modelId : option string) :
  getModelCategory modelId <> unknownCategory -> given modelId = true.
Proof. destruct modelId as [[|c r]|]; simpl; [contradiction | trivial | contradiction]. Qed.

Lemma categoryScoped_known (modelId : option string) :
  getModelCategory modelId <> unknownCategory -> categoryScoped modelId = true.
Proof.
  intros H. unfold categoryScoped. rewrite (category_known_given _ H).
  rewrite bool_decide_eq_false_2 by exact H. reflexivity.
Qed.

Lemma categoryScoped_unknown (modelId : option string) :
  getModelCategory modelId = unknownCategory -> categoryScoped modelId = false.
Proof.
  intros H. unfold categoryScoped. rewrite bool_decide_eq_true_2 by exact H. reflexivity.
Qed.

(** A lockout recorded under a known category leaves the global scope and
    every other category as they were. *)
Lemma recordLimit_category_frame (a : Account) (modelId : option string) (u : Z) :
  getModelCategory modelId <> unknownCategory ->
  (recordLimit a modelId u).(rateLimitedUntil) = a.(rateLimitedUntil)
  /\ (recordLimit a modelId u).(consecutiveFailures) = a.(consecutiveFailures)
  /\ forall c, c <> getModelCategory modelId ->
       (recordLimit a modelId u).(categoryRateLimits) !! c = a.(categoryRateLimits) !! c.
Proof.
  intros H. unfold recordLimit. rewrite (categoryScoped_known _ H). simpl.
  repeat split. intros c Hc. apply lookup_insert_ne. congruence.
Qed.

(** [isAccountRateLimited] reads the global lockout and the entry of the
    model's category, nothing else. *)
Lemma isAccountRateLimited_reads (T : Z) (k : string) (modelId : option string)
    (m m' : Manager) (a a' : Account) :
  JsMap.get k m.(accounts) = Some a -> JsMap.get k m'.(accounts) = Some a' ->
  a.(rateLimitedUntil) = a'.(rateLimitedUntil) ->
  a.(categoryRateLimits) !! getModelCategory modelId
  = a'.(categoryRateLimits) !! getModelCategory modelId ->
  isAccountRateLimited T k modelId m = isAccountRateLimited T k modelId m'.
Proof.
  intros Hm Hm' Hg Hc. unfold isAccountRateLimited. rewrite Hm, Hm', Hg, Hc. reflexivity.
Qed.

Lemma isAccountRateLimited_update_other_scope (T : Z) (k accountId : string)
    (query recorded : option string) (u : Z) (account : Account) (m : Manager) :
  JsMap.get accountId m.(accounts) = Some account ->
  getModelCategory recorded <> unknownCategory ->
  getModelCategory query <> getModelCategory recorded ->
  isAccountRateLimited T k query (updateAccount accountId (recordLimit account recorded u) m)
  = isAccountRateLimited T k query m.
Proof.
  intros Hget Hrec Hne.
  destruct (recordLimit_category_frame account recorded u Hrec) as (Hg & _ & Hc).
  destruct (String.eqb_spec accountId k) as [->|Hk].
  - eapply isAccountRateLimited_reads.
    + simpl. apply get_set_eq.
    + exact Hget.
    + exact Hg.
    + apply Hc, Hne.
  - unfold isAccountRateLimited, updateAccount. simpl.
    now rewrite get_set_ne by exact Hk.
Qed.

Lemma markRateLimited_other_scope (T now d : Z) (k accountId : string)
    (query recorded : option string) (m : Manager) :
  getModelCategory recorded <> unknownCategory ->
  getModelCategory query <> getModelCategory recorded ->
  isAccountRateLimited T k query (markRateLimited now accountId d recorded m)
  = isAccountRateLimited T k query m.
Proof.
  intros Hrec Hne. unfold markRateLimited.
  destruct (JsMap.get accountId (accounts m)) as [account|] eqn:Hget; [|reflexivity].
  now apply isAccountRateLimited_update_other_scope.
Qed.

Lemma markRateLimitedFromError_other_scope (T : Z) (ctx : ErrorContext)
    (statusCode : Z) (errorText : string) (k accountId : string)
    (query recorded : option string) (m : Manager) :
  getModelCategory recorded <> unknownCategory ->
  getModelCategory query <> getModelCategory recorded ->
  isAccountRateLimited T k query
    (fst (markRateLimitedFromError ctx accountId statusCode errorText recorded m))
  = isAccountRateLimited T k query m.
Proof.
  intros Hrec Hne. unfold markRateLimitedFromError.
  destruct (JsMap.get accountId (accounts m)) as [account|] eqn:Hget; [|reflexivity].
  destruct (lockoutFor _ _ _ _ _) as [durationMs limitedUntil]. simpl.
  now apply isAccountRateLimited_update_other_scope.
Qed.

(** For a model of a known category the account is free exactly when the
    global lockout and the category's lockout are both absent or expired. *)
Lemma isAccountRateLimited_false_iff (T : Z) (accountId : string) (modelId : option string)
    (m : Manager) (account : Account) :
  JsMap.get accountId m.(accounts) = Some account ->
  getModelCategory modelId <> unknownCategory ->
  isAccountRateLimited T accountId modelId m = false
  <-> expiredOrAbsent T account.(rateLimitedUntil)
      /\ expiredOrAbsent T
           (until <$> account.(categoryRateLimits) !! getModelCategory modelId).
Proof.
  intros Hget Hcat. unfold isAccountRateLimited. rewrite Hget.
  rewrite (category_known_given _ Hcat).
  rewrite bool_decide_eq_false_2 by exact Hcat. simpl.
  destruct (rateLimitedUntil account) as [u|]; simpl.
  - destruct (Z.ltb_spec T u).
    + split; [discriminate | intros [H1 _]; lia].
    + destruct (categoryRateLimits account !! getModelCategory modelId) as [l|]; simpl.
      * destruct (Z.ltb_spec T (until l)); split; try discriminate; try tauto;
          intros [_ H2]; lia.
      * tauto.
  - destruct (categoryRateLimits account !! getModelCategory modelId) as [l|]; simpl.
    + destruct (Z.ltb_spec T (until l)); split; try discriminate; try tauto;
        intros [_ H2]; lia.
    + tauto.
Qed.

(** C7: a lockout recorded for an image model does not change whether any
    account is rate-limited for an llm model, and the other way round, at
    every time [T]; for a model of a known category an account is not
    rate-limited iff its global lockout and that category's lockout are
    both absent or expired at [T]. *)
Theorem C7_category_lockouts_independent
    (m : Manager) (accountId k : string) (imageModel llmModel : option string)
    (now d T : Z) (ctx : ErrorContext) (statusCode : Z) (errorText : string) :
  getModelCategory imageModel = image ->
  getModelCategory llmModel = llm ->
  isAccountRateLimited T k llmModel (markRateLimited now accountId d imageModel m)
  = isAccountRateLimited T k llmModel m
  /\ isAccountRateLimited T k imageModel (markRateLimited now accountId d llmModel m)
     = isAccountRateLimited T k imageModel m
  /\ isAccountRateLimited T k llmModel
       (fst (markRateLimitedFromError ctx accountId statusCode errorText imageModel m))
     = isAccountRateLimited T k llmModel m
  /\ isAccountRateLimited T k imageModel
       (fst (markRateLimitedFromError ctx accountId statusCode errorText llmModel m))
     = isAccountRateLimited T k imageModel m
  /\ forall (modelId : option string) (account : Account),
       JsMap.get k m.(accounts) = Some account ->
       getModelCategory modelId <> unknownCategory ->
       (isAccountRateLimited T k modelId m = false
        <-> expiredOrAbsent T account.(rateLimitedUntil)
            /\ expiredOrAbsent T
                 (until <$> account.(categoryRateLimits) !! getModelCategory modelId)).
Proof.
  intros Hi Hl.
  split; [|split; [|split; [|split]]].
  - apply markRateLimited_other_scope; rewrite ?Hi, ?Hl; discriminate.
  - apply markRateLimited_other_scope; rewrite ?Hi, ?Hl; discriminate.
  - apply markRateLimitedFromError_other_scope; rewrite ?Hi, ?Hl; discriminate.
  - apply markRateLimitedFromError_other_scope; rewrite ?Hi, ?Hl; discriminate.
  - intros modelId account Hget Hcat. now apply isAccountRateLimited_false_iff.
Qed.

Lemma C7_witness :
  isAccountRateLimited 2000 "a" (Some "gemini-2.5-pro")
    (markRateLimited 1000 "a" 60000 (Some "gemini-3-pro-image") oneAccount)
  = isAccountRateLimited 2000 "a" (Some "gemini-2.5-pro") oneAccount.
Proof.
  destruct (C7_category_lockouts_independent oneAccount "a" "a"
              (Some "gemini-3-pro-image") (Some "gemini-2.5-pro")
              1000 60000 2000 (noContext 1000) 429 "" eq_refl eq_refl) as (H & _).
  exact H.
Defined.

(** ** Recording a success *)

Lemma markSuccess_get (accountId : string) (modelId : option string) (m : Manager)
    (account : Account) :
  JsMap.get accountId m.(accounts) = Some account ->
  JsMap.get accountId (markSuccess accountId modelId m).(accounts)
  = Some (if categoryScoped modelId
          then withCategoryRateLimits account
                 (delete (getModelCategory modelId) account.(categoryRateLimits))
          else withGlobalLimit account None 0).
Proof.
  intros Hget. unfold markSuccess. rewrite Hget. simpl. apply get_set_eq.
Qed.

Lemma markSuccess_other (accountId k : string) (modelId : option string) (m : Manager) :
  accountId <> k ->
  JsMap.get k (markSuccess accountId modelId m).(accounts) = JsMap.get k m.(accounts).
Proof.
  intros Hne. unfold markSuccess.
  destruct (JsMap.get accountId (accounts m)); [|reflexivity].
  simpl. now apply get_set_ne.
Qed.

(** C8: a success recorded for a model of a known category removes that
    category's entry (its [until] and its failure count) and leaves the
    global lockout, the global failure count and the other categories'
    entries as they were; a success recorded without a category clears the
    global scope ([rateLimitedUntil] null, [consecutiveFailures] 0) and
    leaves the category entries untouched.  Other accounts are not
    changed. *)
Theorem C8_success_clears_one_scope
    (m : Manager) (accountId : string) (account : Account) (modelId : option string) :
  JsMap.get accountId m.(accounts) = Some account ->
  exists account',
    JsMap.get accountId (markSuccess accountId modelId m).(accounts) = Some account'
    /\ sameCredentials account' account
    /\ (getModelCategory modelId <> unknownCategory ->
        account'.(categoryRateLimits) !! getModelCategory modelId = None
        /\ account'.(rateLimitedUntil) = account.(rateLimitedUntil)
        /\ account'.(consecutiveFailures) = account.(consecutiveFailures)
        /\ forall c, c <> getModelCategory modelId ->
             account'.(categoryRateLimits) !! c = account.(categoryRateLimits) !! c)
    /\ (getModelCategory modelId = unknownCategory ->
        account'.(rateLimitedUntil) = None
        /\ account'.(consecutiveFailures) = 0
        /\ account'.(categoryRateLimits) = account.(categoryRateLimits))
    /\ forall k, k <> accountId ->
         JsMap.get k (markSuccess accountId modelId m).(accounts)
         = JsMap.get k m.(accounts).
Proof.
  intros Hget. eexists. split; [apply markSuccess_get, Hget|].
  split; [destruct (categoryScoped modelId); repeat split|].
  split; [|split].
  - intros Hcat. rewrite (categoryScoped_known _ Hcat). simpl.
    split; [apply lookup_delete_eq|]. repeat split.
    intros c Hc. apply lookup_delete_ne. congruence.
  - intros Hcat. rewrite (categoryScoped_unknown _ Hcat). simpl. repeat split.
  - intros k Hk. apply markSuccess_other. congruence.
Qed.

Lemma C8_witness :
  exists account',
    JsMap.get "a" (markSuccess "a" (Some "gemini-3-pro-image") lockedManager).(accounts)
    = Some account'
    /\ account'.(categoryRateLimits) !! image = None
    /\ account'.(rateLimitedUntil) = Some 61000
    /\ account'.(consecutiveFailures) = 3.
Proof.
  destruct (C8_success_clears_one_scope lockedManager "a" lockedAccount
              (Some "gemini-3-pro-image") eq_refl)
    as (account' & Hget & _ & Hcat & _).
  exists account'. split; [exact Hget|].
  destruct Hcat as (H1 & H2 & H3 & _); [discriminate|].
  split; [exact H1|]. split; [exact H2 | exact H3].
Defined.

(** ** Persistence *)

Lemma save_reads_credentials (m m' : Manager) :
  Forall2 (fun x y => sameCredentials (snd x) (snd y)) m.(accounts) m'.(accounts) ->
  save m = save m'.
Proof.
  unfold save, JsMap.values. intros H.
  induction H as [|[k a] [k' a'] l l' Hs _ IH]; simpl; [reflexivity|].
  destruct Hs as (H1 & H2 & H3 & H4 & H5 & H6). simpl in *.
  rewrite H1, H2, H3, H4, H5, H6. f_equal. exact IH.
Qed.

Lemma fromPersisted_clear (acc : PersistedAccount) : lockoutsClear (fromPersisted acc).
Proof. repeat split. Qed.

Lemma fromStored_clear (stored : StoredAccount) : lockoutsClear (fromStored stored).
Proof. repeat split. Qed.

Lemma get_set_cases {V : Type} (m : list (string * V)) (k k' : string) (v a : V) :
  JsMap.get k (JsMap.set k' v m) = Some a -> (k' = k /\ a = v) \/ JsMap.get k m = Some a.
Proof.
  destruct (String.eqb_spec k' k) as [->|Hne].
  - rewrite get_set_eq. intros [= <-]. left. split; reflexivity.
  - rewrite get_set_ne by exact Hne. intros H. right. exact H.
Qed.

(** Reading the roster leaves a cleared entry under every id it contains,
    whatever was registered under that id before. *)
Lemma fold_records_clear (records : list PersistedAccount) (accs : list (string * Account))
    (k : string) :
  (exists record, record ∈ records /\ record.(p_id) = k)
  \/ (exists a, JsMap.get k accs = Some a /\ lockoutsClear a) ->
  exists a,
    JsMap.get k (fold_left (fun accs acc => JsMap.set acc.(p_id) (fromPersisted acc) accs)
                   records accs) = Some a
    /\ lockoutsClear a.
Proof.
  revert accs. induction records as [|r rs IH]; intros accs H; simpl.
  - destruct H as [(record & Hin & _) | H]; [inversion Hin | exact H].
  - apply IH. destruct (String.eqb_spec r.(p_id) k) as [Hk|Hk].
    + right. exists (fromPersisted r). rewrite <- Hk, get_set_eq.
      split; [reflexivity | apply fromPersisted_clear].
    + destruct H as [(record & Hin & Hid) | (a & Ha & Hc)].
      * left. exists record. split; [|exact Hid].
        apply elem_of_cons in Hin as [->|Hin]; [contradiction | exact Hin].
      * right. exists a. rewrite get_set_ne by exact Hk. split; assumption.
Qed.

Lemma fold_records_all_clear (records : list PersistedAccount) (accs : list (string * Account)) :
  (forall k a, JsMap.get k accs = Some a -> lockoutsClear a) ->
  forall k a,
    JsMap.get k (fold_left (fun accs acc => JsMap.set acc.(p_id) (fromPersisted acc) accs)
                   records accs) = Some a ->
    lockoutsClear a.
Proof.
  revert accs. induction records as [|r rs IH]; intros accs H; simpl; [exact H|].
  apply IH. intros k a Hget. apply get_set_cases in Hget as [[_ ->] | Hget].
  - apply fromPersisted_clear.
  - eapply H, Hget.
Qed.

Lemma hydrate_all_clear (fromStore : list StoredAccount) (m : Manager) :
  (forall k a, JsMap.get k m.(accounts) = Some a -> lockoutsClear a) ->
  forall k a, JsMap.get k (hydrateFromAuthStore fromStore m).(accounts) = Some a ->
              lockoutsClear a.
Proof.
  revert m. induction fromStore as [|stored rest IH]; intros m H; simpl; [exact H|].
  destruct (JsMap.has (s_id stored) (accounts m)); [apply IH, H|].
  apply IH. simpl. intros k a Hget. apply get_set_cases in Hget as [[_ ->] | Hget].
  - apply fromStored_clear.
  - eapply H, Hget.
Qed.

Lemma get_Some_size {V : Type} (m : list (string * V)) (k : string) (v : V) :
  JsMap.get k m = Some v -> (JsMap.size m =? 0)%nat = false.
Proof. destruct m; [discriminate | reflexivity]. Qed.

Lemma load_roster_clear (file : list PersistedAccount) (store : list StoredAccount)
    (m : Manager) (record : PersistedAccount) :
  record ∈ file ->
  exists a, JsMap.get record.(p_id) (load (Some file) store m).(accounts) = Some a
            /\ lockoutsClear a.
Proof.
  intros Hin.
  destruct (fold_records_clear file m.(accounts) record.(p_id)) as (a & Hget & Hclear).
  { left. exists record. split; [exact Hin | reflexivity]. }
  exists a. split; [|exact Hclear].
  unfold load. simpl. rewrite (get_Some_size _ _ _ Hget). simpl. exact Hget.
Qed.

Lemma load_fresh_clear (file : option (list PersistedAccount)) (store : list StoredAccount)
    (k : string) (a : Account) :
  JsMap.get k (load file store newManager).(accounts) = Some a -> lockoutsClear a.
Proof.
  unfold load. simpl.
  set (fromFile := match file with Some records => _ | None => _ end).
  assert (Hclear : forall k a, JsMap.get k fromFile = Some a -> lockoutsClear a).
  { subst fromFile. destruct file as [records|].
    - apply fold_records_all_clear. intros k' a' H. discriminate.
    - intros k' a' H. discriminate. }
  destruct (JsMap.size fromFile =? 0)%nat; simpl.
  - apply hydrate_all_clear. exact Hclear.
  - apply Hclear.
Qed.

Lemma set_absent_app {V : Type} (m : list (string * V)) (k : string) (v : V) :
  k ∉ JsMap.keys m -> JsMap.set k v m = (m ++ [(k, v)])%list.
Proof.
  induction m as [|[k0 v0] m IH]; simpl; [reflexivity|].
  rewrite not_elem_of_cons. intros [Hne H].
  destruct (String.eqb_spec k0 k) as [->|_]; [contradiction|]. now rewrite IH.
Qed.

(** Records with fresh, distinct ids are appended in order. *)
Lemma fold_records_fresh (records : list PersistedAccount) (accs : list (string * Account)) :
  NoDup (JsMap.keys accs ++ map p_id records) ->
  fold_left (fun accs acc => JsMap.set acc.(p_id) (fromPersisted acc) accs) records accs
  = (accs ++ map (fun acc => (acc.(p_id), fromPersisted acc)) records)%list.
Proof.
  revert accs. induction records as [|r rs IH]; intros accs Hnd; simpl.
  - now rewrite app_nil_r.
  - assert (Hr : r.(p_id) ∉ JsMap.keys accs).
    { apply NoDup_app in Hnd as (_ & Hdisj & _). intros Hin.
      apply (Hdisj _ Hin). apply list_elem_of_here. }
    rewrite (set_absent_app _ _ _ Hr), IH.
    + now rewrite <- app_assoc.
    + unfold JsMap.keys in *. rewrite map_app. simpl. now rewrite <- app_assoc.
Qed.

Lemma save_ids (m : Manager) :
  Forall (fun entry => (snd entry).(id) = fst entry) m.(accounts) ->
  map p_id (save m) = JsMap.keys m.(accounts).
Proof.
  unfold save, JsMap.values, JsMap.keys. intros H.
  induction H as [|[k a] l Hk _ IH]; simpl in *; [reflexivity|].
  now rewrite Hk, IH.
Qed.

Lemma get_saved (accs : list (string * Account)) (k : string) (a : Account) :
  Forall (fun entry => (snd entry).(id) = fst entry) accs ->
  JsMap.get k accs = Some a ->
  exists a',
    JsMap.get k (map (fun acc => (acc.(p_id), fromPersisted acc))
                   (save {| accounts := accs; loaded := true; lastUsedAccount := None;
                            accountQueue := []; inFlightAccounts := ∅ |}))
    = Some a'
    /\ sameCredentials a' a /\ lockoutsClear a'.
Proof.
  unfold save, JsMap.values. simpl. intros H.
  induction H as [|[k0 a0] l Hk _ IH]; simpl in *; [discriminate|].
  rewrite Hk. destruct (String.eqb_spec k0 k) as [->|Hne].
  - intros [= ->]. eexists. split; [reflexivity|].
    split; repeat split; simpl in *; congruence.
  - exact IH.
Qed.

(** After a restart the roster written by [save] comes back with the same
    credentials and every lockout clear. *)
Lemma restart_roundtrip (m : Manager) (store : list StoredAccount) (k : string) (a : Account) :
  registryKeyed m ->
  JsMap.get k m.(accounts) = Some a ->
  exists a',
    JsMap.get k (load (Some (save m)) store newManager).(accounts) = Some a'
    /\ sameCredentials a' a /\ lockoutsClear a'.
Proof.
  intros [Hnd Hkeyed] Hget.
  destruct (get_saved _ k a Hkeyed Hget) as (a' & Hget' & Hsame & Hclear).
  exists a'. split; [|split; assumption].
  unfold load. simpl. rewrite fold_records_fresh.
  - simpl. unfold save in *. simpl in *.
    rewrite (get_Some_size _ _ _ Hget'). simpl. exact Hget'.
  - simpl. now rewrite save_ids.
Qed.

(** C9: what [save] writes is made of the six credential fields of each
    account and of nothing else (two registries that differ only in
    lockouts and failure counts are saved alike); every [load] leaves each
    account of the roster with its global lockout null, its failure count 0
    and its category map empty, whatever the registry held before; a
    freshly started manager holds only cleared accounts after [load]; and
    the roster saved from any state comes back, after a restart, with the
    same credentials and no lockout. *)
Theorem C9_lockouts_not_persisted :
  (forall m m' : Manager,
      Forall2 (fun x y => sameCredentials (snd x) (snd y)) m.(accounts) m'.(accounts) ->
      save m = save m')
  /\ (forall (file : list PersistedAccount) (store : list StoredAccount) (m : Manager)
        (record : PersistedAccount),
        record ∈ file ->
        exists a, JsMap.get record.(p_id) (load (Some file) store m).(accounts) = Some a
                  /\ lockoutsClear a)
  /\ (forall (file : option (list PersistedAccount)) (store : list StoredAccount)
        (k : string) (a : Account),
        JsMap.get k (load file store newManager).(accounts) = Some a -> lockoutsClear a)
  /\ (forall (m : Manager) (store : list StoredAccount) (k : string) (a : Account),
        registryKeyed m ->
        JsMap.get k m.(accounts) = Some a ->
        exists a',
          JsMap.get k (load (Some (save m)) store newManager).(accounts) = Some a'
          /\ sameCredentials a' a /\ lockoutsClear a').
Proof.
  split; [exact save_reads_credentials|].
  split; [exact load_roster_clear|].
  split; [exact load_fresh_clear | exact restart_roundtrip].
Qed.

Lemma C9_witness :
  exists a,
    JsMap.get "a" (load (Some (save lockedManager)) [] lockedManager).(accounts) = Some a
    /\ lockoutsClear a.
Proof.
  destruct C9_lockouts_not_persisted as (_ & H & _).
  apply (H (save lockedManager) [] lockedManager
           {| p_id := "a"; p_email := "a@example.com"; p_accessToken := "token-a";
              p_refreshToken := "refresh-a"; p_expiresAt := 0;
              p_projectId := Some "project" |}).
  apply list_elem_of_here.
Defined.

(** ** The rotation queue and the registry *)

Lemma keys_set_NoDup {V : Type} (m : list (string * V)) (k : string) (v : V) :
  NoDup (JsMap.keys m) -> NoDup (JsMap.keys (JsMap.set k v m)).
Proof.
  intros H. destruct (decide (k ∈ JsMap.keys m)) as [Hin|Hout].
  - now rewrite keys_set_present.
  - rewrite keys_set_absent by exact Hout. apply NoDup_app.
    split; [exact H|]. split; [|apply NoDup_singleton].
    intros x Hx Hk. apply list_elem_of_singleton in Hk. subst. contradiction.
Qed.

Lemma keys_set_mono {V : Type} (m : list (string * V)) (k i : string) (v : V) :
  i ∈ JsMap.keys m -> i ∈ JsMap.keys (JsMap.set k v m).
Proof.
  intros H. destruct (decide (k ∈ JsMap.keys m)) as [Hin|Hout].
  - now rewrite keys_set_present.
  - rewrite keys_set_absent by exact Hout. apply elem_of_app. left. exact H.
Qed.

Lemma grows_refl (m : Manager) : grows m m.
Proof. repeat split; auto. Qed.

Lemma grows_trans (m1 m2 m3 : Manager) : grows m1 m2 -> grows m2 m3 -> grows m1 m3.
Proof.
  intros (Hq & Hn & Hs) (Hq' & Hn' & Hs'). repeat split.
  - congruence.
  - auto.
  - auto.
Qed.

Lemma sameShape_refl (m : Manager) : sameShape m m.
Proof. split; reflexivity. Qed.

Lemma sameShape_trans (m1 m2 m3 : Manager) :
  sameShape m1 m2 -> sameShape m2 m3 -> sameShape m1 m3.
Proof. intros [H1 H2] [H3 H4]. split; congruence. Qed.

Lemma sameShape_grows (m m' : Manager) : sameShape m m' -> grows m m'.
Proof. intros [Hq Hk]. repeat split; [exact Hq | |]; rewrite Hk; auto. Qed.

Lemma grows_within (m m' : Manager) :
  grows m m' -> queueWithinRegistry m -> queueWithinRegistry m'.
Proof.
  intros (Hq & Hn & Hs) (H1 & H2 & H3). repeat split.
  - now rewrite Hq.
  - auto.
  - intros i Hi. rewrite Hq in Hi. auto.
Qed.

Lemma sameShape_permutation (m m' : Manager) :
  sameShape m m' -> queueIsPermutation m -> queueIsPermutation m'.
Proof. intros [Hq Hk]. unfold queueIsPermutation. now rewrite Hq, Hk. Qed.

Lemma updateAccount_sameShape (k : string) (a a' : Account) (m : Manager) :
  JsMap.get k m.(accounts) = Some a -> sameShape m (updateAccount k a' m).
Proof.
  intros Hget. split; [reflexivity|]. simpl.
  apply keys_set_present. eapply get_Some_keys, Hget.
Qed.

Lemma withAccounts_set_grows (k : string) (a : Account) (m : Manager) :
  grows m (withAccounts m (JsMap.set k a m.(accounts))).
Proof.
  repeat split; simpl.
  - apply keys_set_NoDup.
  - intros i. apply keys_set_mono.
Qed.

Lemma hydrate_grows (fromStore : list StoredAccount) (m : Manager) :
  grows m (hydrateFromAuthStore fromStore m).
Proof.
  revert m. induction fromStore as [|stored rest IH]; intros m; simpl.
  - apply grows_refl.
  - destruct (JsMap.has (s_id stored) (accounts m)); [apply IH|].
    eapply grows_trans; [apply withAccounts_set_grows | apply IH].
Qed.

Lemma fold_records_grows (records : list PersistedAccount) (m : Manager) :
  grows m (withAccounts m
             (fold_left (fun accs acc => JsMap.set acc.(p_id) (fromPersisted acc) accs)
                records m.(accounts))).
Proof.
  revert m. induction records as [|r rs IH]; intros m; simpl.
  - destruct m; apply grows_refl.
  - eapply grows_trans; [apply (withAccounts_set_grows r.(p_id) (fromPersisted r))|].
    apply (IH (withAccounts m (JsMap.set r.(p_id) (fromPersisted r) m.(accounts)))).
Qed.

Lemma load_grows (file : option (list PersistedAccount)) (store : list StoredAccount)
    (m : Manager) : grows m (load file store m).
Proof.
  unfold load.
  set (m1 := withAccounts m _).
  assert (H1 : grows m m1).
  { subst m1. destruct file as [records|].
    - apply fold_records_grows.
    - destruct m; apply grows_refl. }
  set (m2 := if (JsMap.size (accounts m1) =? 0)%nat then _ else _).
  assert (H2 : grows m m2).
  { subst m2. destruct (JsMap.size (accounts m1) =? 0)%nat; [|exact H1].
    eapply grows_trans; [exact H1 | apply hydrate_grows]. }
  destruct H2 as (Hq & Hn & Hs). repeat split; simpl; auto.
Qed.

Lemma ensureLoaded_grows (file : option (list PersistedAccount))
    (store : list StoredAccount) (m : Manager) : grows m (ensureLoaded file store m).
Proof.
  unfold ensureLoaded. destruct (loaded m); [apply grows_refl | apply load_grows].
Qed.

Lemma hand_sameShape (env : Env) (stamp : Z) (key : string) (a a0 : Account) (m : Manager) :
  JsMap.get key m.(accounts) = Some a0 -> sameShape m (fst (hand env stamp key a m)).
Proof.
  intros Hget. unfold hand. destruct (ensureProjectId env a) as [project a']. simpl.
  split; [reflexivity|]. simpl. apply keys_set_present. eapply get_Some_keys, Hget.
Qed.

Lemma stickyHead_sameShape (env : Env) (modelId : option string) (idle : bool)
    (m m' : Manager) (r : option Credential) :
  stickyHead env modelId idle m = Some (m', r) -> sameShape m m'.
Proof.
  unfold stickyHead. destruct (accountQueue m) as [|firstId rest]; [discriminate|].
  destruct (JsMap.get firstId (accounts m)) as [firstAccount|] eqn:Hget; [|discriminate].
  destruct (_ || _); [|discriminate].
  destruct (isAccountDisabled env firstId); [discriminate|].
  destruct (_ && _); [discriminate|].
  destruct (negb _); [discriminate|].
  set (refreshed := if nearExpiry (now env) firstAccount then _ else _).
  intros [= H]. 
  assert (Hs : sameShape m (updateAccount firstId refreshed m))
    by (eapply updateAccount_sameShape, Hget).
  eapply sameShape_trans; [exact Hs|].
  replace m' with (fst (hand env (now env) firstId refreshed (updateAccount firstId refreshed m)))
    by (rewrite H; reflexivity).
  eapply hand_sameShape. simpl. apply get_set_eq.
Qed.

Lemma scanQueue_sameShape (env : Env) (modelId : option string) (idle : bool)
    (queue : list string) (m : Manager) :
  sameShape m (fst (scanQueue env modelId idle queue m)).
Proof.
  revert m. induction queue as [|accountId rest IH]; intros m; simpl.
  - apply sameShape_refl.
  - destruct (JsMap.get accountId (accounts m)) as [account|] eqn:Hget; [|apply IH].
    destruct (isAccountDisabled env accountId); [apply IH|].
    destruct (lockedOut (now env) account); [apply IH|].
    destruct (_ && _); [apply IH|].
    destruct (negb _); [apply IH|].
    destruct (nearExpiry (now env) account).
    + destruct (refreshAccessToken env (refreshToken account)) as [[token expiresIn]|].
      * eapply sameShape_trans; [eapply updateAccount_sameShape, Hget|].
        eapply hand_sameShape. simpl. apply get_set_eq.
      * eapply sameShape_trans; [eapply updateAccount_sameShape, Hget | apply IH].
    + eapply hand_sameShape, Hget.
Qed.

Lemma ensureQueueInitialized_cases (m : Manager) :
  (ensureQueueInitialized m = withQueue m (JsMap.keys m.(accounts))
   /\ m.(accountQueue) = [])
  \/ (ensureQueueInitialized m = m
      /\ (m.(accountQueue) = [] -> m.(accounts) = [])).
Proof.
  unfold ensureQueueInitialized.
  destruct (accountQueue m) as [|x q] eqn:Hq; simpl.
  - destruct (accounts m) as [|e accs] eqn:Ha; simpl.
    + right. split; [reflexivity | trivial].
    + left. split; reflexivity.
  - right. split; [reflexivity | discriminate].
Qed.

Lemma ensureQueueInitialized_within (m : Manager) :
  queueWithinRegistry m -> queueWithinRegistry (ensureQueueInitialized m).
Proof.
  intros (H1 & H2 & H3).
  destruct (ensureQueueInitialized_cases m) as [[-> _] | [-> _]].
  - repeat split; simpl; auto.
  - repeat split; auto.
Qed.

Lemma ensureQueueInitialized_permutation (m : Manager) :
  queueIsPermutation m \/ m.(accountQueue) = [] ->
  queueIsPermutation (ensureQueueInitialized m).
Proof.
  intros H. unfold queueIsPermutation.
  destruct (ensureQueueInitialized_cases m) as [[-> _] | [-> Hempty]].
  - reflexivity.
  - destruct H as [H | H]; [exact H|]. rewrite H, (Hempty H). reflexivity.
Qed.

(** What a selection does before it looks for an account. *)
Lemma selection_result (env : Env) (forceRotate : bool) (modelId : option string)
    (m : Manager) :
  let m1 := ensureLoaded env.(rosterFile) env.(storeList) m in
  let m2 := if (JsMap.size m1.(accounts) =? 0)%nat
            then hydrateFromAuthStore env.(storeList) m1 else m1 in
  sameShape (ensureQueueInitialized m2)
    (fst (getNextAvailableAccount env forceRotate modelId m)).
Proof.
  cbv zeta. unfold getNextAvailableAccount.
  set (m3 := ensureQueueInitialized _).
  destruct (JsMap.size (accounts m3) =? 0)%nat; [apply sameShape_refl|].
  destruct forceRotate; simpl.
  - apply scanQueue_sameShape.
  - destruct (stickyHead env modelId (hasIdleAccount (now env) m3) m3)
      as [[m' r]|] eqn:Hs.
    + simpl. eapply stickyHead_sameShape, Hs.
    + apply scanQueue_sameShape.
Qed.

Lemma selection_within (env : Env) (forceRotate : bool) (modelId : option string)
    (m : Manager) :
  queueWithinRegistry m ->
  queueWithinRegistry (fst (getNextAvailableAccount env forceRotate modelId m)).
Proof.
  intros H.
  eapply grows_within; [apply sameShape_grows, selection_result|].
  apply ensureQueueInitialized_within.
  set (m1 := ensureLoaded _ _ m).
  assert (H1 : queueWithinRegistry m1)
    by (eapply grows_within; [apply ensureLoaded_grows | exact H]).
  destruct (JsMap.size (accounts m1) =? 0)%nat; [|exact H1].
  eapply grows_within; [apply hydrate_grows | exact H1].
Qed.

Lemma getAccountById_grows (env : Env) (accountId : string) (modelId : option string)
    (m : Manager) : grows m (fst (getAccountById env accountId modelId m)).
Proof.
  unfold getAccountById.
  set (m1 := ensureLoaded _ _ m).
  set (m2 := if JsMap.has accountId (accounts m1) then m1 else _).
  assert (H2 : grows m m2).
  { eapply grows_trans; [apply ensureLoaded_grows|]. subst m2.
    destruct (JsMap.has accountId (accounts m1)); [apply grows_refl | apply hydrate_grows]. }
  destruct (JsMap.get accountId (accounts m2)) as [account|] eqn:Hget; [|exact H2].
  destruct (isAccountDisabled env accountId); [exact H2|].
  destruct (lockedOut (now env) account); [exact H2|].
  match goal with |- context [if ?b then (m2, None) else _] => destruct b end; [exact H2|].
  eapply grows_trans; [exact H2|]. apply sameShape_grows.
  destruct (nearExpiry (now env) account).
  - destruct (refreshAccessToken env (refreshToken account)) as [[token expiresIn]|].
    + destruct (ensureProjectId env _) as [project a3]. simpl.
      eapply updateAccount_sameShape, Hget.
    + simpl. eapply updateAccount_sameShape, Hget.
  - destruct (ensureProjectId env account) as [project a3]. simpl.
    eapply updateAccount_sameShape, Hget.
Qed.

Lemma removeFromQueue_keeps (q : list string) (i x : string) :
  x ∈ q -> x <> i -> x ∈ removeFromQueue i q.
Proof.
  induction q as [|y q IH]; simpl; [trivial|].
  rewrite elem_of_cons. intros [->|H] Hne.
  - destruct (String.eqb_spec y i); [contradiction | apply list_elem_of_here].
  - destruct (String.eqb_spec y i); [exact H | apply list_elem_of_further, IH; assumption].
Qed.

Lemma findByEmail_key (e : string) (accs : list (string * Account)) (i : string) :
  findByEmail e accs = Some i -> i ∈ JsMap.keys accs.
Proof.
  induction accs as [|[k a] accs IH]; simpl; [discriminate|].
  destruct (String.eqb (email a) e).
  - intros [= ->]. apply list_elem_of_here.
  - intros H. apply list_elem_of_further, IH, H.
Qed.

Lemma addAccount_within (account : PersistedAccount) (m : Manager) :
  queueWithinRegistry m -> queueWithinRegistry (addAccount account m).
Proof.
  intros (H1 & H2 & H3). unfold addAccount, queueWithinRegistry. simpl.
  split; [|split].
  - destruct (queueIncludes (accountQueue m) (p_id account)) eqn:Hq; [exact H1|].
    apply NoDup_app. split; [exact H1|]. split; [|apply NoDup_singleton].
    intros x Hx Hk. apply list_elem_of_singleton in Hk. subst.
    apply queueIncludes_elem in Hx. congruence.
  - apply keys_set_NoDup, H2.
  - intros i Hi.
    assert (Hcases : i ∈ accountQueue m \/ i = p_id account).
    { destruct (queueIncludes (accountQueue m) (p_id account)); [left; exact Hi|].
      apply elem_of_app in Hi as [Hi|Hi]; [left; exact Hi|].
      right. now apply list_elem_of_singleton in Hi. }
    destruct Hcases as [Hi'| ->].
    + apply keys_set_mono, H3, Hi'.
    + eapply get_Some_keys, get_set_eq.
Qed.

Lemma purge_within (i : string) (m : Manager) :
  queueWithinRegistry m -> queueWithinRegistry (purge i m).
Proof.
  intros (H1 & H2 & H3). unfold purge, queueWithinRegistry. simpl.
  rewrite keys_delete.
  destruct (removeFromQueue_NoDup _ i H1) as [Hn Hout].
  split; [exact Hn|]. split; [apply removeFromQueue_NoDup, H2|].
  intros x Hx. apply removeFromQueue_keeps.
  - apply H3. eapply removeFromQueue_subset, Hx.
  - intros ->. contradiction.
Qed.

Lemma removeAccount_within (i : string) (m : Manager) :
  queueWithinRegistry m -> queueWithinRegistry (fst (removeAccount i m)).
Proof.
  intros H. unfold removeAccount.
  destruct (JsMap.has i (accounts m)); [apply purge_within, H|].
  destruct (findByEmail i (accounts m)); [apply purge_within, H | exact H].
Qed.

Lemma moveToEndOfQueue_within (i : string) (m : Manager) :
  queueWithinRegistry m -> queueWithinRegistry (moveToEndOfQueue i m).
Proof.
  intros (H1 & H2 & H3). unfold moveToEndOfQueue.
  destruct (queueIncludes (accountQueue m) i) eqn:Hq; [|repeat split; assumption].
  apply queueIncludes_elem in Hq.
  destruct (removeFromQueue_NoDup _ i H1) as [Hn Hout].
  repeat split; simpl.
  - apply NoDup_app. split; [exact Hn|]. split; [|apply NoDup_singleton].
    intros x Hx Hk. apply list_elem_of_singleton in Hk. subst. contradiction.
  - exact H2.
  - intros x Hx. apply elem_of_app in Hx as [Hx|Hx].
    + apply H3. eapply removeFromQueue_subset, Hx.
    + apply list_elem_of_singleton in Hx. subst. apply H3, Hq.
Qed.

Lemma perform_within (op : operation) (m : Manager) :
  queueWithinRegistry m -> queueWithinRegistry (perform op m).
Proof.
  intros H. destruct op; simpl.
  - apply addAccount_within, H.
  - apply removeAccount_within, H.
  - apply moveToEndOfQueue_within, H.
  - eapply grows_within; [apply load_grows | exact H].
  - eapply grows_within; [apply hydrate_grows | exact H].
  - apply selection_within, H.
  - eapply grows_within; [apply getAccountById_grows | exact H].
Qed.

Lemma performAll_within (ops : list operation) (m : Manager) :
  queueWithinRegistry m -> queueWithinRegistry (performAll ops m).
Proof.
  unfold performAll. revert m. induction ops as [|op ops IH]; intros m H; simpl.
  - exact H.
  - apply IH, perform_within, H.
Qed.

Lemma newManager_within : queueWithinRegistry newManager.
Proof.
  repeat split; simpl; try constructor. intros i Hi. inversion Hi.
Qed.

Lemma permutation_elem (m : Manager) (i : string) :
  queueIsPermutation m -> (i ∈ m.(accountQueue) <-> i ∈ JsMap.keys m.(accounts)).
Proof. intros H. unfold queueIsPermutation in H. now rewrite H. Qed.

Lemma addAccount_permutation (account : PersistedAccount) (m : Manager) :
  queueIsPermutation m -> queueIsPermutation (addAccount account m).
Proof.
  intros H. unfold addAccount, queueIsPermutation. simpl.
  destruct (queueIncludes (accountQueue m) (p_id account)) eqn:Hq.
  - apply queueIncludes_elem in Hq. apply (permutation_elem _ _ H) in Hq.
    now rewrite keys_set_present.
  - assert (Hout : p_id account ∉ JsMap.keys (accounts m)).
    { intros Hin. apply (permutation_elem _ _ H) in Hin.
      apply queueIncludes_elem in Hin. congruence. }
    rewrite keys_set_absent by exact Hout. now apply Permutation_app.
Qed.

Lemma purge_permutation (i : string) (m : Manager) :
  i ∈ JsMap.keys m.(accounts) -> queueIsPermutation m -> queueIsPermutation (purge i m).
Proof.
  intros Hin H. unfold purge, queueIsPermutation. simpl. rewrite keys_delete.
  apply (Permutation_cons_inv (a := i)).
  rewrite <- !removeFromQueue_perm; [exact H | exact Hin |].
  now apply (permutation_elem _ _ H).
Qed.

Lemma removeAccount_permutation (i : string) (m : Manager) :
  queueIsPermutation m -> queueIsPermutation (fst (removeAccount i m)).
Proof.
  intros H. unfold removeAccount.
  destruct (JsMap.has i (accounts m)) eqn:Hhas.
  - apply purge_permutation; [now apply has_keys | exact H].
  - destruct (findByEmail i (accounts m)) as [k|] eqn:Hfind; [|exact H].
    apply purge_permutation; [eapply findByEmail_key, Hfind | exact H].
Qed.

Lemma moveToEndOfQueue_permutation (i : string) (m : Manager) :
  queueIsPermutation m -> queueIsPermutation (moveToEndOfQueue i m).
Proof.
  intros H. unfold moveToEndOfQueue.
  destruct (queueIncludes (accountQueue m) i) eqn:Hq; [|exact H].
  apply queueIncludes_elem in Hq. unfold queueIsPermutation in *. simpl.
  rewrite <- H. rewrite (removeFromQueue_perm _ _ Hq) at 2.
  symmetry. apply Permutation_cons_append.
Qed.

Lemma selection_permutation (env : Env) (forceRotate : bool) (modelId : option string)
    (m : Manager) :
  (m.(loaded) = true /\ queueIsPermutation m) \/ m.(accountQueue) = [] ->
  queueIsPermutation (fst (getNextAvailableAccount env forceRotate modelId m)).
Proof.
  intros H.
  eapply sameShape_permutation; [apply selection_result|].
  apply ensureQueueInitialized_permutation.
  destruct H as [[Hl Hp] | Hq].
  - unfold ensureLoaded. rewrite Hl.
    destruct (JsMap.size (accounts m) =? 0)%nat eqn:Hs; [|left; exact Hp].
    right. destruct (hydrate_grows (storeList env) m) as (-> & _).
    apply size_zero_keys in Hs. unfold queueIsPermutation in Hp. rewrite Hs in Hp.
    now apply Permutation_nil_r in Hp.
  - right.
    set (m1 := ensureLoaded _ _ m).
    assert (H1 : accountQueue m1 = []).
    { destruct (ensureLoaded_grows (rosterFile env) (storeList env) m) as (Hq' & _).
      subst m1. rewrite Hq'. exact Hq. }
    destruct (JsMap.size (accounts m1) =? 0)%nat; [|exact H1].
    destruct (hydrate_grows (storeList env) m1) as (Hq' & _). rewrite Hq'. exact H1.
Qed.

(** C4, as amended: after any sequence of add, remove, demote, load,
    hydrate and selection operations the rotation queue holds no id twice
    and every queue entry is a registered account; add, remove and demote
    keep the queue a permutation of the registry's ids, and so does a
    selection on a loaded manager; a selection that starts from an empty
    queue ends with the queue a permutation of the registry's ids. *)
Theorem C4_queue_within_registry :
  (forall ops : list operation, queueWithinRegistry (performAll ops newManager))
  /\ (forall (op : operation) (m : Manager),
        keepsPermutation op m = true -> queueIsPermutation m ->
        queueIsPermutation (perform op m))
  /\ (forall (env : Env) (forceRotate : bool) (modelId : option string) (m : Manager),
        m.(accountQueue) = [] ->
        queueIsPermutation (fst (getNextAvailableAccount env forceRotate modelId m))).
Proof.
  split; [|split].
  - intros ops. apply performAll_within, newManager_within.
  - intros op m Hk Hp. destruct op; simpl in *; try discriminate.
    + apply addAccount_permutation, Hp.
    + apply removeAccount_permutation, Hp.
    + apply moveToEndOfQueue_permutation, Hp.
    + apply selection_permutation. left. split; assumption.
  - intros env forceRotate modelId m Hq. apply selection_permutation. right. exact Hq.
Qed.

(** Loading a roster does not fill the queue. *)
Lemma C4_counterexample :
  ~ queueIsPermutation (performAll [OpLoad (Some [sampleRecord "a"]) []] newManager).
Proof.
  intros H. apply Permutation_length in H. vm_compute in H. discriminate.
Qed.

Lemma C4_witness :
  queueWithinRegistry
    (performAll [OpLoad (Some [sampleRecord "a"]) []; OpAdd (sampleRecord "b");
                 OpDemote "b"; OpRemove "a"] newManager)
  /\ queueIsPermutation (perform (OpDemote "a") oneAccount).
Proof.
  destruct C4_queue_within_registry as (H1 & H2 & _). split.
  - apply H1.
  - apply H2; [reflexivity|]. unfold queueIsPermutation. simpl. reflexivity.
Defined.

(** An account added after a load leaves the loaded ones out of the queue,
    and the next selection does not put them back. *)
Lemma add_after_load_leaves_ids_out :
  let m := performAll [OpLoad (Some [sampleRecord "a"]) []; OpAdd (sampleRecord "b");
                       OpSelect (quietEnv 1000) false None] newManager in
  m.(accountQueue) = ["b"] /\ JsMap.keys m.(accounts) = ["a"; "b"].
Proof. vm_compute. split; reflexivity. Qed.

(** ** Token refresh during a selection *)

Lemma lockedOut_false_sticky (t : Z) (a : Account) :
  lockedOut t a = false ->
  negb (truthy a.(rateLimitedUntil))
  || match a.(rateLimitedUntil) with Some u => u <=? t | None => false end = true.
Proof.
  unfold lockedOut. destruct (rateLimitedUntil a) as [u|]; simpl; [|reflexivity].
  destruct (u =? 0); simpl; [reflexivity|].
  destruct (Z.ltb_spec t u); [discriminate|]. intros _. now apply Z.leb_le.
Qed.

Lemma lockedOut_after_failed_refresh (t n : Z) (a : Account) :
  0 <= t -> lockedOut t (withGlobalLimit a (Some (t + 60000)) n) = true.
Proof.
  intros Ht. unfold lockedOut. simpl.
  destruct (Z.eqb_spec (t + 60000) 0); [lia|]. simpl. apply Z.ltb_lt. lia.
Qed.

(** [ensureProjectId] assigns [projectId] and nothing else. *)
Lemma ensureProjectId_frame (env : Env) (a : Account) :
  let a' := snd (ensureProjectId env a) in
  a'.(id) = a.(id) /\ a'.(email) = a.(email) /\ a'.(accessToken) = a.(accessToken)
  /\ a'.(refreshToken) = a.(refreshToken) /\ a'.(expiresAt) = a.(expiresAt)
  /\ a'.(rateLimitedUntil) = a.(rateLimitedUntil)
  /\ a'.(consecutiveFailures) = a.(consecutiveFailures)
  /\ a'.(categoryRateLimits) = a.(categoryRateLimits).
Proof.
  unfold ensureProjectId. destruct (projectId a) as [[|c r]|]; simpl; try tauto.
  destruct (negb _); simpl; tauto.
Qed.

(** The scan hands out only an account that it found registered and not
    locked out. *)
Lemma scanQueue_choice (env : Env) (modelId : option string) (idle : bool)
    (queue : list string) (m m' : Manager) (cred : Credential) :
  0 <= env.(now) ->
  scanQueue env modelId idle queue m = (m', Some cred) ->
  exists key account,
    key ∈ queue /\ JsMap.get key m.(accounts) = Some account
    /\ lockedOut env.(now) account = false
    /\ cred.(c_accountId) = account.(id) /\ cred.(c_email) = account.(email).
Proof.
  intros Hnow. revert m. induction queue as [|accountId rest IH]; intros m; simpl.
  - discriminate.
  - assert (Hskip : scanQueue env modelId idle rest m = (m', Some cred) ->
                    exists key account,
                      key ∈ accountId :: rest /\ JsMap.get key (accounts m) = Some account
                      /\ lockedOut (now env) account = false
                      /\ c_accountId cred = id account /\ c_email cred = email account).
    { intros H. destruct (IH _ H) as (key & account & Hin & Hrest).
      exists key, account. split; [apply list_elem_of_further, Hin | exact Hrest]. }
    destruct (JsMap.get accountId (accounts m)) as [account|] eqn:Hget; [|exact Hskip].
    destruct (isAccountDisabled env accountId); [exact Hskip|].
    destruct (lockedOut (now env) account) eqn:Hlock; [exact Hskip|].
    destruct (_ && _); [exact Hskip|].
    destruct (negb _); [exact Hskip|].
    destruct (nearExpiry (now env) account).
    + destruct (refreshAccessToken env (refreshToken account)) as [[token expiresIn]|].
      * unfold hand. destruct (ensureProjectId env _) as [project a']. intros [= _ <-].
        exists accountId, account. split; [apply list_elem_of_here|].
        split; [exact Hget|]. split; [exact Hlock|].
        simpl. destruct (projectId account) as [[|c r]|]; split; reflexivity.
      * intros H. destruct (IH _ H) as (key & account' & Hin & Hget' & Hlock' & Hrest).
        simpl in Hget'. destruct (String.eqb_spec accountId key) as [->|Hne].
        -- rewrite get_set_eq in Hget'. injection Hget' as <-.
           rewrite lockedOut_after_failed_refresh in Hlock' by exact Hnow. discriminate.
        -- rewrite get_set_ne in Hget' by exact Hne.
           exists key, account'. split; [apply list_elem_of_further, Hin|].
           split; [exact Hget'|]. split; assumption.
    + unfold hand. destruct (ensureProjectId env account) as [project a']. intros [= _ <-].
      exists accountId, account. split; [apply list_elem_of_here|].
      split; [exact Hget|]. split; [exact Hlock|]. split; reflexivity.
Qed.

(** The scan leaves a locked-out account as it is. *)
Lemma scanQueue_keeps_locked (env : Env) (modelId : option string) (idle : bool)
    (queue : list string) (m : Manager) (k : string) (a : Account) :
  JsMap.get k m.(accounts) = Some a -> lockedOut env.(now) a = true ->
  JsMap.get k (fst (scanQueue env modelId idle queue m)).(accounts) = Some a.
Proof.
  revert m. induction queue as [|accountId rest IH]; intros m Hget Hlock; simpl.
  - exact Hget.
  - destruct (JsMap.get accountId (accounts m)) as [account|] eqn:Hacc; [|now apply IH].
    destruct (isAccountDisabled env accountId); [now apply IH|].
    destruct (lockedOut (now env) account) eqn:Hl; [now apply IH|].
    assert (Hne : accountId <> k).
    { intros ->. rewrite Hget in Hacc. injection Hacc as ->. congruence. }
    destruct (_ && _); [now apply IH|].
    destruct (negb _); [now apply IH|].
    destruct (nearExpiry (now env) account).
    + destruct (refreshAccessToken env (refreshToken account)) as [[token expiresIn]|].
      * unfold hand. destruct (ensureProjectId env _) as [project a']. simpl.
        now rewrite !get_set_ne by exact Hne.
      * apply IH; [|exact Hlock]. simpl. now rewrite get_set_ne by exact Hne.
    + unfold hand. destruct (ensureProjectId env account) as [project a']. simpl.
      now rewrite get_set_ne by exact Hne.
Qed.

Lemma ensureQueueInitialized_nonempty (m : Manager) (x : string) (q : list string) :
  m.(accountQueue) = x :: q -> ensureQueueInitialized m = m.
Proof. intros H. unfold ensureQueueInitialized. now rewrite H. Qed.

(** On a loaded manager with a non-empty queue whose head is registered,
    a selection starts from the manager as it is. *)
Lemma selection_prelude (env : Env) (m : Manager) (firstId : string) (rest : list string)
    (firstAccount : Account) :
  m.(loaded) = true -> m.(accountQueue) = firstId :: rest ->
  JsMap.get firstId m.(accounts) = Some firstAccount ->
  forall forceRotate modelId,
    getNextAvailableAccount env forceRotate modelId m
    = match (if negb forceRotate
             then stickyHead env modelId (hasIdleAccount env.(now) m) m else None) with
      | Some result => result
      | None => scanQueue env modelId (hasIdleAccount env.(now) m) m.(accountQueue) m
      end.
Proof.
  intros Hl Hq Hget forceRotate modelId. unfold getNextAvailableAccount, ensureLoaded.
  rewrite Hl, (get_Some_size _ _ _ Hget).
  rewrite (ensureQueueInitialized_nonempty _ _ _ Hq).
  now rewrite (get_Some_size _ _ _ Hget).
Qed.

(** C10: when the queue head is eligible, its token is within the expiry
    margin and the refresh throws, the sticky fast path still returns the
    head with its old access token and leaves its lockout as it was; the
    same failure under forced rotation, in the full scan, locks the account
    for 60 seconds and passes it over. *)
Theorem C10_refresh_failure_sticky_and_scan
    (env : Env) (modelId : option string) (m : Manager)
    (firstId : string) (rest : list string) (firstAccount : Account) :
  m.(loaded) = true ->
  m.(accountQueue) = firstId :: rest ->
  JsMap.get firstId m.(accounts) = Some firstAccount ->
  0 <= env.(now) ->
  env.(isAccountDisabled) firstId = false ->
  lockedOut env.(now) firstAccount = false ->
  hasIdleAccount env.(now) m && bool_decide (firstId ∈ m.(inFlightAccounts)) = false ->
  hasModelQuota env modelId m firstId = true ->
  nearExpiry env.(now) firstAccount = true ->
  env.(refreshAccessToken) firstAccount.(refreshToken) = None ->
  (exists m' cred a',
      getNextAvailableAccount env false modelId m = (m', Some cred)
      /\ cred.(c_accountId) = firstAccount.(id)
      /\ cred.(c_accessToken) = firstAccount.(accessToken)
      /\ JsMap.get firstId m'.(accounts) = Some a'
      /\ a'.(accessToken) = firstAccount.(accessToken)
      /\ a'.(expiresAt) = firstAccount.(expiresAt)
      /\ a'.(rateLimitedUntil) = firstAccount.(rateLimitedUntil)
      /\ a'.(consecutiveFailures) = firstAccount.(consecutiveFailures)
      /\ a'.(categoryRateLimits) = firstAccount.(categoryRateLimits))
  /\ (exists m' r,
        getNextAvailableAccount env true modelId m = (m', r)
        /\ JsMap.get firstId m'.(accounts)
           = Some (withGlobalLimit firstAccount (Some (env.(now) + 60000))
                     firstAccount.(consecutiveFailures))
        /\ forall cred, r = Some cred ->
             exists key account,
               key <> firstId /\ JsMap.get key m.(accounts) = Some account
               /\ cred.(c_accountId) = account.(id)).
Proof.
  intros Hl Hq Hget Hnow Hdis Hlock Hidle Hquota Hnear Hrefresh.
  pose proof (selection_prelude env m firstId rest firstAccount Hl Hq Hget) as Hsel.
  split.
  - rewrite Hsel. simpl. unfold stickyHead. rewrite Hq, Hget.
    rewrite (lockedOut_false_sticky _ _ Hlock), Hdis, Hidle, Hquota, Hnear, Hrefresh.
    simpl. unfold hand.
    pose proof (ensureProjectId_frame env firstAccount) as Hframe.
    destruct (ensureProjectId env firstAccount) as [project a']. simpl in Hframe.
    destruct Hframe as (_ & _ & Htok & _ & Hexp & Hlim & Hfail & Hcat).
    eexists _, _, a'. split; [reflexivity|]. simpl.
    split; [reflexivity|]. split; [reflexivity|].
    split; [apply get_set_eq|]. repeat split; assumption.
  - rewrite Hsel. simpl. rewrite Hq. simpl.
    rewrite Hget, Hdis, Hlock, Hidle, Hquota, Hnear, Hrefresh. simpl.
    set (locked := withGlobalLimit firstAccount (Some (now env + 60000))
                     (consecutiveFailures firstAccount)).
    set (m0 := updateAccount firstId locked m).
    assert (Hget0 : JsMap.get firstId (accounts m0) = Some locked)
      by (simpl; apply get_set_eq).
    assert (Hlocked : lockedOut (now env) locked = true)
      by (apply lockedOut_after_failed_refresh, Hnow).
    destruct (scanQueue env modelId (hasIdleAccount (now env) m) rest m0) as [m' r] eqn:Hscan.
    exists m', r. split; [reflexivity|]. split.
    + replace m' with (fst (scanQueue env modelId (hasIdleAccount (now env) m) rest m0))
        by (rewrite Hscan; reflexivity).
      now apply scanQueue_keeps_locked.
    + intros cred ->.
      destruct (scanQueue_choice _ _ _ _ _ _ _ Hnow Hscan)
        as (key & account & _ & Hkey & Hfree & Hid & _).
      assert (Hne : firstId <> key).
      { intros <-. rewrite Hget0 in Hkey. injection Hkey as <-. congruence. }
      exists key, account. split; [congruence|]. split; [|exact Hid].
      simpl in Hkey. now rewrite get_set_ne in Hkey by exact Hne.
Qed.

Lemma C10_witness :
  (exists m' cred,
      getNextAvailableAccount (quietEnv 1000) false None expiringManager = (m', Some cred)
      /\ cred.(c_accessToken) = "token-a")
  /\ (exists m' r,
        getNextAvailableAccount (quietEnv 1000) true None expiringManager = (m', r)
        /\ JsMap.get "a" m'.(accounts)
           = Some (withGlobalLimit
                     (clearAccount "a" "a@example.com" "token-a" "refresh-a"
                        200000 (Some "project"))
                     (Some 61000) 0)).
Proof.
  destruct (C10_refresh_failure_sticky_and_scan (quietEnv 1000) None expiringManager
              "a" [] (clearAccount "a" "a@example.com" "token-a" "refresh-a"
                        200000 (Some "project")))
    as [(m' & cred & a' & H1 & _ & H2 & _) (m'' & r & H3 & H4 & _)];
    try reflexivity.
  - simpl. lia.
  - split.
    + exists m', cred. split; [exact H1 | exact H2].
    + exists m'', r. split; [exact H3 | exact H4].
Defined.

(** ** The quota gate *)

Lemma hasModelQuota_true (env : Env) (model : string) (m : Manager) (key : string) :
  model <> EmptyString ->
  hasModelQuota env (Some model) m key = true ->
  exists p, env.(getAccountModelQuotaPercent) key model = Some p
            /\ (reservePercent env < p)%Q.
Proof.
  intros Hmodel. unfold hasModelQuota. destruct model as [|c r]; [contradiction|].
  destruct (JsMap.get key (accounts m)); [|discriminate].
  destruct (isQuotaBlacklisted env key (String c r)); [discriminate|].
  destruct (getAccountModelQuotaPercent env key (String c r)) as [p|]; [|discriminate].
  intros H. exists p. split; [reflexivity|].
  apply Qnot_le_lt. intros Hle. apply Qle_bool_iff in Hle.
  rewrite Hle in H. discriminate.
Qed.

Lemma hand_result (env : Env) (stamp : Z) (key : string) (a : Account) (m m' : Manager)
    (r : option Credential) :
  hand env stamp key a m = (m', r) ->
  exists cred a', r = Some cred /\ JsMap.get key m'.(accounts) = Some a'
                  /\ a'.(id) = cred.(c_accountId).
Proof.
  unfold hand. pose proof (ensureProjectId_frame env a) as Hframe.
  destruct (ensureProjectId env a) as [project a']. simpl in Hframe.
  intros [= <- <-]. eexists _, a'. split; [reflexivity|].
  split; [simpl; apply get_set_eq | apply Hframe].
Qed.

(** With a model supplied, the scan hands out only an account whose quota
    percentage is known and above the reserve. *)
Lemma scanQueue_quota (env : Env) (model : string) (idle : bool)
    (queue : list string) (m m' : Manager) (cred : Credential) :
  model <> EmptyString ->
  scanQueue env (Some model) idle queue m = (m', Some cred) ->
  exists key a' p,
    JsMap.get key m'.(accounts) = Some a' /\ a'.(id) = cred.(c_accountId)
    /\ env.(getAccountModelQuotaPercent) key model = Some p
    /\ (reservePercent env < p)%Q.
Proof.
  intros Hmodel. revert m. induction queue as [|accountId rest IH]; intros m; cbn [scanQueue].
  - discriminate.
  - destruct (JsMap.get accountId (accounts m)) as [account|] eqn:Hget; [|apply IH].
    destruct (isAccountDisabled env accountId); [apply IH|].
    destruct (lockedOut (now env) account); [apply IH|].
    destruct (_ && _); [apply IH|].
    destruct (hasModelQuota env (Some model) m accountId) eqn:Hquota; cbn [negb]; [|apply IH].
    destruct (hasModelQuota_true _ _ _ _ Hmodel Hquota) as (p & Hp & Hlt).
    assert (Hhand : forall stamp a m0,
               hand env stamp accountId a m0 = (m', Some cred) ->
               exists key a' p,
                 JsMap.get key (accounts m') = Some a' /\ id a' = c_accountId cred
                 /\ getAccountModelQuotaPercent env key model = Some p
                 /\ (reservePercent env < p)%Q).
    { intros stamp a m0 H. destruct (hand_result _ _ _ _ _ _ _ H) as (cred' & a' & Hc & Ha & Hid).
      injection Hc as <-. exists accountId, a', p. repeat split; assumption. }
    destruct (nearExpiry (now env) account).
    + destruct (refreshAccessToken env (refreshToken account)) as [[token expiresIn]|].
      * apply Hhand.
      * apply IH.
    + apply Hhand.
Qed.

(** The same for the sticky fast path. *)
Lemma stickyHead_quota (env : Env) (model : string) (idle : bool)
    (m m' : Manager) (cred : Credential) :
  model <> EmptyString ->
  stickyHead env (Some model) idle m = Some (m', Some cred) ->
  exists key a' p,
    JsMap.get key m'.(accounts) = Some a' /\ a'.(id) = cred.(c_accountId)
    /\ env.(getAccountModelQuotaPercent) key model = Some p
    /\ (reservePercent env < p)%Q.
Proof.
  intros Hmodel. unfold stickyHead.
  destruct (accountQueue m) as [|firstId rest]; [discriminate|].
  destruct (JsMap.get firstId (accounts m)) as [firstAccount|]; [|discriminate].
  destruct (_ || _); [|discriminate].
  destruct (isAccountDisabled env firstId); [discriminate|].
  destruct (_ && _); [discriminate|].
  destruct (hasModelQuota env (Some model) m firstId) eqn:Hquota; cbn [negb]; [|discriminate].
  destruct (hasModelQuota_true _ _ _ _ Hmodel Hquota) as (p & Hp & Hlt).
  intros [= H]. destruct (hand_result _ _ _ _ _ _ _ H) as (cred' & a' & Hc & Ha & Hid).
  injection Hc as <-. exists firstId, a', p. repeat split; assumption.
Qed.

(** [getNextAvailableAccount] applies the gate on both of its paths: with
    a model supplied, the account it returns has a known quota percentage
    strictly above the reserve. *)
Lemma selection_quota_gate (env : Env) (forceRotate : bool) (model : string)
    (m m' : Manager) (cred : Credential) :
  model <> EmptyString ->
  getNextAvailableAccount env forceRotate (Some model) m = (m', Some cred) ->
  exists key a' p,
    JsMap.get key m'.(accounts) = Some a' /\ a'.(id) = cred.(c_accountId)
    /\ env.(getAccountModelQuotaPercent) key model = Some p
    /\ (reservePercent env < p)%Q.
Proof.
  intros Hmodel. unfold getNextAvailableAccount.
  set (m3 := ensureQueueInitialized _).
  destruct (JsMap.size (accounts m3) =? 0)%nat; [discriminate|].
  destruct forceRotate; simpl.
  - now apply scanQueue_quota.
  - destruct (stickyHead env (Some model) (hasIdleAccount (now env) m3) m3)
      as [[m0 r]|] eqn:Hs.
    + intros [= -> ->]. eapply stickyHead_quota; eassumption.
    + now apply scanQueue_quota.
Qed.

(** In particular, without quota data no account is selected for a
    model. *)
Lemma selection_without_quota_data (env : Env) (forceRotate : bool) (model : string)
    (m : Manager) :
  model <> EmptyString ->
  (forall key, env.(getAccountModelQuotaPercent) key model = None) ->
  snd (getNextAvailableAccount env forceRotate (Some model) m) = None.
Proof.
  intros Hmodel Hnone.
  destruct (getNextAvailableAccount env forceRotate (Some model) m) as [m' [cred|]] eqn:H;
    [|reflexivity].
  destruct (selection_quota_gate _ _ _ _ _ _ Hmodel H) as (key & _ & p & _ & _ & Hp & _).
  rewrite Hnone in Hp. discriminate.
Qed.

(** C5: [getAccountById] with a model supplied hands out an account for
    which the quota lookup returns null: it rejects an account only when
    a percentage is known and at or below the reserve. *)
Theorem C5_getAccountById_passes_unknown_quota
    (env : Env) (m : Manager) (accountId model : string) (account : Account) :
  m.(loaded) = true ->
  JsMap.get accountId m.(accounts) = Some account ->
  model <> EmptyString ->
  env.(getAccountModelQuotaPercent) accountId model = None ->
  env.(isAccountDisabled) accountId = false ->
  lockedOut env.(now) account = false ->
  nearExpiry env.(now) account = false ->
  exists cred,
    snd (getAccountById env accountId (Some model) m) = Some cred
    /\ cred.(c_accountId) = account.(id)
    /\ cred.(c_accessToken) = account.(accessToken).
Proof.
  intros Hl Hget Hmodel Hnone Hdis Hlock Hnear.
  unfold getAccountById, ensureLoaded, JsMap.has. rewrite Hl, Hget, Hget, Hdis, Hlock.
  destruct model as [|c r]; [contradiction|]. rewrite Hnone, Hnear.
  destruct (ensureProjectId env account) as [project a3]. simpl.
  eexists. repeat split.
Qed.

Lemma C5_witness :
  exists cred,
    snd (getAccountById (quietEnv 1000) "a" (Some "gemini-2.5-pro") oneAccount) = Some cred
    /\ cred.(c_accountId) = "a" /\ cred.(c_accessToken) = "token-a".
Proof.
  apply (C5_getAccountById_passes_unknown_quota (quietEnv 1000) oneAccount "a"
           "gemini-2.5-pro" (fromPersisted (sampleRecord "a")));
    try reflexivity.
  discriminate.
Defined.

(** The same account, the same model and the same missing quota data:
    the scheduler's selection finds nothing. *)
Lemma selection_rejects_unknown_quota :
  snd (getNextAvailableAccount (quietEnv 1000) false (Some "gemini-2.5-pro") oneAccount) = None
  /\ snd (getNextAvailableAccount (quietEnv 1000) true (Some "gemini-2.5-pro") oneAccount) = None.
Proof. split; apply selection_without_quota_data; try discriminate; reflexivity. Qed.

(** ** The concurrency guard *)

Section guard_facts.
Import Guard.
Variable MIN : Z.   (* [MIN_REQUEST_INTERVAL_MS] *)

Lemma consistent_initial (t : Z) : consistent MIN (initial t).
Proof.
  split; simpl; try discriminate;
    try (intros j H; inversion H);
    repeat intro;
    match goal with H : [] !! _ = Some _ |- _ => rewrite lookup_nil in H; discriminate end.
Qed.

(** A call whose [previous] is fulfilled has only released calls before
    it. *)
Lemma earlier_released (s : ledger) (k : nat) (c : call) :
  consistent MIN s -> s.(calls) !! k = Some c -> isSettled s c.(previous) = true ->
  forall j cj, (j < k)%nat -> s.(calls) !! j = Some cj -> released cj = true.
Proof.
  intros Hs Hk Hset j cj Hlt Hj.
  destruct (previous c) as [p|] eqn:Hp; simpl in Hset.
  - apply bool_decide_eq_true in Hset.
    pose proof (previous_is_predecessor _ _ Hs _ _ _ Hk Hp) as Hpk.
    apply (settled_released _ _ Hs p Hset j cj); [lia | exact Hj].
  - apply (no_previous_all_released _ _ Hs _ _ Hk Hp j cj Hlt Hj).
Qed.

Lemma released_not_proceeding (c : call) :
  released c = true -> c.(stage) = Released.
Proof. unfold released. destruct (stage c); try discriminate. reflexivity. Qed.

Lemma acquire_consistent (s : ledger) s' :
  consistent MIN s -> step MIN Acquire s = Some s' -> consistent MIN s'.
Proof.
  intros Hs [= <-]. split; simpl.
  - intros k [= <-]. rewrite length_app. simpl. lia.
  - discriminate.
  - intros k c j Hk Hp. apply lookup_snoc_Some in Hk as [[Hlt Hk] | [-> <-]].
    + apply (previous_is_predecessor _ _ Hs k c j Hk Hp).
    + simpl in Hp. apply (lock_is_last _ _ Hs j Hp).
  - intros k c Hk Hp j cj Hlt Hj.
    apply lookup_snoc_Some in Hj as [[Hltj Hj] | [-> <-]].
    + apply lookup_snoc_Some in Hk as [[Hltk Hk] | [-> <-]].
      * apply (no_previous_all_released _ _ Hs k c Hk Hp j cj Hlt Hj).
      * simpl in Hp. apply (unlocked_all_released _ _ Hs Hp j cj Hj).
    + apply lookup_lt_Some in Hk. rewrite length_app in Hk. simpl in Hk. lia.
  - intros j Hj. rewrite length_app. simpl.
    pose proof (settled_known _ _ Hs j Hj). lia.
  - intros j Hj i ci Hle Hi.
    pose proof (settled_known _ _ Hs j Hj) as Hlt.
    apply lookup_snoc_Some in Hi as [[_ Hi] | [-> _]]; [|lia].
    apply (settled_released _ _ Hs j Hj i ci Hle Hi).
  - intros j k cj ck Hj Hk Hlt Hpro.
    apply lookup_snoc_Some in Hk as [[Hltk Hk] | [-> <-]]; [|discriminate].
    apply lookup_snoc_Some in Hj as [[_ Hj] | [-> _]]; [|lia].
    apply (in_order _ _ Hs j k cj ck Hj Hk Hlt Hpro).
  - intros k c t Hk Hst.
    apply lookup_snoc_Some in Hk as [[_ Hk] | [-> <-]]; [|discriminate].
    apply (started_recorded _ _ Hs k c t Hk Hst).
  - apply (last_in_past _ _ Hs).
  - intros k c wake t' Hk Hw.
    apply lookup_snoc_Some in Hk as [[_ Hk] | [-> <-]]; [|discriminate].
    apply (timer_after_last _ _ Hs k c wake t' Hk Hw).
  - intros k cj ck tj tk Hj Hk Hsj Hsk.
    apply lookup_snoc_Some in Hk as [[_ Hk] | [_ <-]]; [|discriminate].
    apply lookup_snoc_Some in Hj as [[_ Hj] | [-> _]].
    + apply (starts_spaced _ _ Hs k cj ck tj tk Hj Hk Hsj Hsk).
    + apply lookup_lt_Some in Hk. lia.
Qed.
Ltac old_call H :=
  apply list_lookup_insert_Some in H as [(? & ? & ?) | (? & H)]; subst.

Lemma settle_consistent (k : nat) (s s' : ledger) :
  consistent MIN s -> step MIN (Settle k) s = Some s' -> consistent MIN s'.
Proof.
  intros Hs. simpl.
  destruct (calls s !! k) as [c|] eqn:Hk; [|discriminate].
  destruct (stage c) eqn:Hst; try discriminate.
  destruct (isSettled s (previous c)) eqn:Hset; [|discriminate].
  intros [= <-]. destruct Hs as [H1 H2 H3 H4 H5 H6 H7 H8 H9 H10 H11].
  split; simpl; try assumption.
  - intros j Hj. apply elem_of_cons in Hj as [->|Hj]; [|auto].
    eapply lookup_lt_Some, Hk.
  - intros j Hj i ci Hle Hi. apply elem_of_cons in Hj as [->|Hj]; [|eauto].
    destruct (decide (i = k)) as [->|Hne].
    + rewrite Hk in Hi. injection Hi as <-. unfold released. now rewrite Hst.
    + eapply (earlier_released s k c); [split; assumption| | | |]; eauto. lia.
Qed.

Lemma tick_consistent (dt : Z) (s s' : ledger) :
  consistent MIN s -> step MIN (Tick dt) s = Some s' -> consistent MIN s'.
Proof.
  intros Hs. simpl. destruct (Z.leb_spec 0 dt); [|discriminate].
  intros [= <-]. destruct Hs as [H1 H2 H3 H4 H5 H6 H7 H8 H9 H10 H11].
  split; simpl; try assumption.
  intros t' Ht. specialize (H9 t' Ht). lia.
Qed.

Lemma release_consistent (k : nat) (s s' : ledger) :
  consistent MIN s -> step MIN (Release k) s = Some s' -> consistent MIN s'.
Proof.
  intros Hs. simpl.
  destruct (calls s !! k) as [c|] eqn:Hk; [|discriminate].
  destruct (stage c) eqn:Hst; try discriminate; [|intros [= <-]; exact Hs].
  intros [= <-].
  assert (Hpro : proceeded c = true) by (unfold proceeded; now rewrite Hst).
  assert (Hnr : released c = false) by (unfold released; now rewrite Hst).
  destruct Hs as [H1 H2 H3 H4 H5 H6 H7 H8 H9 H10 H11].
  split; simpl.
  - intros k0 Hl. rewrite length_insert. apply H1.
    destruct (bool_decide (accountLock s = Some k)); [discriminate | exact Hl].
  - intros Hl j cj Hj.
    destruct (bool_decide (accountLock s = Some k)) eqn:Hd.
    + apply bool_decide_eq_true in Hd. apply H1 in Hd.
      old_call Hj; [reflexivity|].
      apply (H7 j k cj c Hj Hk); [|exact Hpro].
      apply lookup_lt_Some in Hj. lia.
    + rewrite (H2 Hl k c Hk) in Hnr. discriminate.
  - intros k0 c0 j Hk0 Hp. old_call Hk0; eauto.
  - intros k0 c0 Hk0 Hp j cj Hlt Hj.
    old_call Hj; [reflexivity|].
    old_call Hk0; eauto.
  - intros j Hj. rewrite length_insert. auto.
  - intros j Hj i ci Hle Hi. old_call Hi; [reflexivity | eauto].
  - intros j k0 cj ck Hj Hk0 Hlt Hp.
    old_call Hj; [reflexivity|].
    old_call Hk0; eauto.
  - intros k0 c0 t Hk0 Ht. old_call Hk0; [|eauto].
    simpl in Ht. destruct (H8 _ _ _ Hk Ht) as [_ Hex]. split; [reflexivity | exact Hex].
  - exact H9.
  - intros k0 c0 wake t' Hk0 Hw. old_call Hk0; [discriminate | eauto].
  - intros k0 cj ck tj tk Hj Hk0 Hsj Hsk.
    old_call Hj; old_call Hk0; simpl in *; try lia; eauto.
Qed.
(** The segment that records the start and returns the closure keeps
    the ledger consistent when every earlier call is released and the
    minimum interval since the last recorded start has passed. *)
Lemma enter_consistent (k : nat) (c : call) (s : ledger) :
  consistent MIN s -> s.(calls) !! k = Some c -> released c = false ->
  (forall j cj, (j < k)%nat -> s.(calls) !! j = Some cj -> released cj = true) ->
  (forall t', s.(lastCall) = Some t' -> t' + MIN <= s.(clock)) ->
  consistent MIN (enter k c s).
Proof.
  intros [H1 H2 H3 H4 H5 H6 H7 H8 H9 H10 H11] Hk Hnr Hearlier Hlast.
  assert (Hlater : forall j cj, (k < j)%nat -> calls s !! j = Some cj ->
                                proceeded cj = false).
  { intros j cj Hlt Hj. destruct (proceeded cj) eqn:Hp; [|reflexivity].
    rewrite (H7 k j c cj Hk Hj Hlt Hp) in Hnr. discriminate. }
  split; simpl.
  - intros k0 Hl. rewrite length_insert. auto.
  - intros Hl. rewrite (H2 Hl k c Hk) in Hnr. discriminate.
  - intros k0 c0 j Hk0 Hp. old_call Hk0; eauto.
  - intros k0 c0 Hk0 Hp j cj Hlt Hj. old_call Hj.
    + old_call Hk0; [lia|]. rewrite (H4 _ _ Hk0 Hp _ _ Hlt Hk) in Hnr. discriminate.
    + old_call Hk0; eauto.
  - intros j Hj. rewrite length_insert. auto.
  - intros j Hj i ci Hle Hi. old_call Hi; [|eauto].
    rewrite (H6 _ Hj _ _ Hle Hk) in Hnr. discriminate.
  - intros j k0 cj ck Hj Hk0 Hlt Hp. old_call Hj.
    + old_call Hk0; [lia|]. rewrite (Hlater _ _ Hlt Hk0) in Hp. discriminate.
    + old_call Hk0; eauto.
  - intros k0 c0 t Hk0 Ht. old_call Hk0.
    + simpl in Ht. injection Ht as <-. split; [reflexivity|].
      exists (clock s). split; [reflexivity | lia].
    + destruct (H8 _ _ _ Hk0 Ht) as [Hp (t' & Hl & Hle)]. split; [exact Hp|].
      exists (clock s). split; [reflexivity|]. specialize (H9 _ Hl). lia.
  - intros t' [= <-]. lia.
  - intros k0 c0 wake t' Hk0 Hw _. old_call Hk0; [discriminate|].
    assert (Hp : proceeded c0 = true) by (unfold proceeded; now rewrite Hw).
    destruct (Nat.lt_total k k0) as [Hlt | [-> | Hlt]].
    + rewrite (Hlater _ _ Hlt Hk0) in Hp. discriminate.
    + congruence.
    + pose proof (released_not_proceeding c0 (Hearlier k0 c0 Hlt Hk0)). congruence.
  - intros k0 cj ck tj tk Hj Hk0 Hsj Hsk.
    apply list_lookup_insert_Some in Hj as [(Hj1 & <- & _) | (Hj1 & Hj)];
      apply list_lookup_insert_Some in Hk0 as [(Hk1 & <- & _) | (Hk1 & Hk0)];
      try lia.
    + destruct (H8 _ _ _ Hk0 Hsk) as [Hp _].
      rewrite (Hlater (S k0) ck) in Hp; [discriminate | lia | exact Hk0].
    + simpl in Hsk. injection Hsk as <-.
      destruct (H8 _ _ _ Hj Hsj) as [_ (t' & Hl & Hle)].
      specialize (Hlast _ Hl). lia.
    + eauto.
Qed.
(** The call starts to wait for its timer. *)
Lemma sleep_consistent (k : nat) (c : call) (s : ledger) (wake : Z) :
  consistent MIN s -> s.(calls) !! k = Some c -> c.(stage) = AwaitPrevious ->
  (forall j cj, (j < k)%nat -> s.(calls) !! j = Some cj -> released cj = true) ->
  (forall t', s.(lastCall) = Some t' -> t' + MIN <= wake) ->
  consistent MIN
    (setCall k {| previous := c.(previous); stage := AwaitTimer wake; started := None |}
       s s.(accountLock) s.(lastCall) s.(inFlight)).
Proof.
  intros [H1 H2 H3 H4 H5 H6 H7 H8 H9 H10 H11] Hk Hst Hearlier Hwake.
  assert (Hnr : released c = false) by (unfold released; now rewrite Hst).
  assert (Hnp : proceeded c = false) by (unfold proceeded; now rewrite Hst).
  split; simpl.
  - intros k0 Hl. rewrite length_insert. auto.
  - intros Hl. rewrite (H2 Hl k c Hk) in Hnr. discriminate.
  - intros k0 c0 j Hk0 Hp. old_call Hk0; eauto.
  - intros k0 c0 Hk0 Hp j cj Hlt Hj. old_call Hj.
    + old_call Hk0; [lia|]. rewrite (H4 _ _ Hk0 Hp _ _ Hlt Hk) in Hnr. discriminate.
    + old_call Hk0; eauto.
  - intros j Hj. rewrite length_insert. auto.
  - intros j Hj i ci Hle Hi. old_call Hi; [|eauto].
    rewrite (H6 _ Hj _ _ Hle Hk) in Hnr. discriminate.
  - intros j k0 cj ck Hj Hk0 Hlt Hp. old_call Hj.
    + old_call Hk0; [lia|]. rewrite (H7 _ _ _ _ Hk Hk0 Hlt Hp) in Hnr. discriminate.
    + old_call Hk0; eauto.
  - intros k0 c0 t Hk0 Ht. old_call Hk0; [discriminate | eauto].
  - exact H9.
  - intros k0 c0 wake0 t' Hk0 Hw Hl. old_call Hk0; [|eauto].
    simpl in Hw. injection Hw as <-. auto.
  - intros k0 cj ck tj tk Hj Hk0 Hsj Hsk.
    apply list_lookup_insert_Some in Hj as [(Hj1 & <- & _) | (Hj1 & Hj)];
      [discriminate|].
    apply list_lookup_insert_Some in Hk0 as [(Hk1 & <- & _) | (Hk1 & Hk0)];
      [discriminate | eauto].
Qed.

Lemma resume_consistent (k : nat) (s s' : ledger) :
  consistent MIN s -> step MIN (Resume k) s = Some s' -> consistent MIN s'.
Proof.
  intros Hs. simpl.
  destruct (calls s !! k) as [c|] eqn:Hk; [|discriminate].
  destruct (stage c) eqn:Hst; try discriminate.
  destruct (isSettled s (previous c)) eqn:Hset; [|discriminate].
  pose proof (earlier_released s k c Hs Hk Hset) as Hearlier.
  destruct (Z.ltb_spec (clock s - match lastCall s with Some t => t | None => 0 end) MIN)
    as [Hwait|Hgo]; intros [= <-].
  - apply sleep_consistent; try assumption.
    intros t' Hl. rewrite Hl. lia.
  - apply enter_consistent; try assumption.
    + unfold released. now rewrite Hst.
    + intros t' Hl. rewrite Hl in Hgo. lia.
Qed.

Lemma fire_consistent (k : nat) (s s' : ledger) :
  consistent MIN s -> step MIN (Fire k) s = Some s' -> consistent MIN s'.
Proof.
  intros Hs. simpl.
  destruct (calls s !! k) as [c|] eqn:Hk; [|discriminate].
  destruct (stage c) as [|wake| |] eqn:Hst; try discriminate.
  destruct (Z.leb_spec wake (clock s)) as [Hdue|]; [|discriminate].
  intros [= <-]. apply enter_consistent; try assumption.
  - unfold released. now rewrite Hst.
  - intros j cj Hlt Hj. apply (in_order _ _ Hs j k cj c Hj Hk Hlt).
    unfold proceeded. now rewrite Hst.
  - intros t' Hl. pose proof (timer_after_last _ _ Hs k c wake t' Hk Hst Hl). lia.
Qed.

Lemma step_consistent (e : event) (s s' : ledger) :
  isRemove e = false -> consistent MIN s -> step MIN e s = Some s' -> consistent MIN s'.
Proof.
  intros He Hs Hstep. destruct e; try discriminate.
  - eapply acquire_consistent; eassumption.
  - eapply settle_consistent; eassumption.
  - eapply resume_consistent; eassumption.
  - eapply fire_consistent; eassumption.
  - eapply release_consistent; eassumption.
  - eapply tick_consistent; eassumption.
Qed.

Lemma run_consistent (es : list event) (s s' : ledger) :
  forallb (fun e => negb (isRemove e)) es = true ->
  consistent MIN s -> run MIN es s = Some s' -> consistent MIN s'.
Proof.
  revert s. induction es as [|e es IH]; intros s Hes Hs; simpl.
  - intros [= <-]. exact Hs.
  - simpl in Hes. apply andb_true_iff in Hes as [He Hes].
    destruct (step MIN e s) as [s1|] eqn:Hstep; [|discriminate].
    apply IH; [exact Hes|]. eapply step_consistent; [|exact Hs | exact Hstep].
    now apply negb_true_iff.
Qed.

Lemma consistent_exclusive (s : ledger) : consistent MIN s -> exclusive s.
Proof.
  intros Hs j k cj ck Hj Hk Hhj Hhk.
  assert (Hrel : forall c, holding c = true -> released c = false /\ proceeded c = true).
  { intros c. unfold holding, released, proceeded. destruct (stage c); try discriminate.
    split; reflexivity. }
  destruct (Hrel _ Hhj) as [Hnj Hpj]. destruct (Hrel _ Hhk) as [Hnk Hpk].
  destruct (Nat.lt_total j k) as [Hlt | [-> | Hlt]]; [|reflexivity|].
  - rewrite (in_order _ _ Hs j k cj ck Hj Hk Hlt Hpk) in Hnj. discriminate.
  - rewrite (in_order _ _ Hs k j ck cj Hk Hj Hlt Hpj) in Hnk. discriminate.
Qed.
End guard_facts.

(** C3, as amended: as long as [removeAccount] does not purge the id's
    ledger in between, two holders of the lock of one account id never
    overlap, a call gets past its wait only when every earlier call has
    been released (so the calls get through in request order), and the
    recorded start of each call is at least [MIN_REQUEST_INTERVAL_MS]
    after the recorded start of the call before it. *)
Theorem C3_guard_serializes_unless_purged
    (MIN_REQUEST_INTERVAL_MS t : Z) (es : list Guard.event) (s : Guard.ledger) :
  forallb (fun e => negb (Guard.isRemove e)) es = true ->
  Guard.run MIN_REQUEST_INTERVAL_MS es (Guard.initial t) = Some s ->
  Guard.exclusive s /\ Guard.fifo s /\ Guard.spaced MIN_REQUEST_INTERVAL_MS s.
Proof.
  intros Hes Hrun.
  assert (Hs : Guard.consistent MIN_REQUEST_INTERVAL_MS s)
    by (eapply run_consistent; [exact Hes | apply consistent_initial | exact Hrun]).
  split; [eapply consistent_exclusive, Hs|].
  split; [apply (Guard.in_order _ _ Hs) | apply (Guard.starts_spaced _ _ Hs)].
Qed.

Lemma C3_witness :
  exists s, Guard.run 200 orderlyRun (Guard.initial 1000) = Some s
            /\ Guard.exclusive s /\ Guard.fifo s /\ Guard.spaced 200 s.
Proof.
  eexists. split; [reflexivity|].
  apply (C3_guard_serializes_unless_purged 200 1000 orderlyRun); reflexivity.
Defined.

(** After [removeAccount] a second call gets the lock while the first
    still holds it, and records the same start. *)
Lemma C3_counterexample :
  exists s, Guard.run 200 purgedRun (Guard.initial 1000) = Some s
            /\ ~ Guard.exclusive s /\ ~ Guard.fifo s /\ ~ Guard.spaced 200 s.
Proof.
  eexists. split; [reflexivity|]. split; [|split].
  - intros H. specialize (H 0%nat 1%nat _ _ eq_refl eq_refl eq_refl eq_refl). discriminate.
  - intros H. specialize (H 0%nat 1%nat _ _ eq_refl eq_refl). simpl in H.
    assert (0 < 1)%nat as Hlt by lia. specialize (H Hlt eq_refl). discriminate.
  - intros H. specialize (H 0%nat _ _ 1000 1000 eq_refl eq_refl eq_refl eq_refl). lia.
Qed.

(** ** Remaining waits *)

Lemma getRateLimitRemaining_nonneg (T : Z) (accountId : string) (modelId : option string)
    (m : Manager) : 0 <= getRateLimitRemaining T accountId modelId m.
Proof.
  unfold getRateLimitRemaining.
  destruct (JsMap.get accountId (accounts m)) as [a|]; [|lia].
  destruct (rateLimitedUntil a) as [u|];
    destruct (given modelId);
    destruct (negb (bool_decide (getModelCategory modelId = unknownCategory)));
    destruct (categoryRateLimits a !! getModelCategory modelId) as [l|];
    repeat match goal with |- context [?x <? ?y] => destruct (Z.ltb_spec x y) end;
    cbv zeta; lia.
Qed.

(** X1: the remaining wait that [getRateLimitRemaining] reports is never
    negative, and it is positive exactly when [isAccountRateLimited] says
    the account is limited for the same model at the same time. *)
Theorem X1_remaining_positive_iff_limited
    (T : Z) (accountId : string) (modelId : option string) (m : Manager) :
  0 <= getRateLimitRemaining T accountId modelId m
  /\ (0 < getRateLimitRemaining T accountId modelId m
      <-> isAccountRateLimited T accountId modelId m = true).
Proof.
  split; [apply getRateLimitRemaining_nonneg|].
  unfold getRateLimitRemaining, isAccountRateLimited.
  destruct (JsMap.get accountId (accounts m)) as [a|]; [|split; [lia|discriminate]].
  destruct (rateLimitedUntil a) as [u|];
    destruct (given modelId);
    destruct (negb (bool_decide (getModelCategory modelId = unknownCategory)));
    destruct (categoryRateLimits a !! getModelCategory modelId) as [l|];
    repeat match goal with |- context [?x <? ?y] => destruct (Z.ltb_spec x y) end;
    cbv zeta; split; intros; try reflexivity; try discriminate; try lia.
Qed.

(** X2: a lockout of [durationMs] recorded at [now] for a registered
    account is seen by both queries for the same model until it runs out:
    at any time [T] before [now + durationMs] the account is limited and
    the remaining wait is at least [now + durationMs - T]. *)
Theorem X2_markRateLimited_then_remaining
    (now T durationMs : Z) (accountId : string) (modelId : option string) (m : Manager) :
  JsMap.has accountId m.(accounts) = true ->
  T < now + durationMs ->
  isAccountRateLimited T accountId modelId
    (markRateLimited now accountId durationMs modelId m) = true
  /\ now + durationMs - T
     <= getRateLimitRemaining T accountId modelId
          (markRateLimited now accountId durationMs modelId m).
Proof.
  intros Hhas HT. unfold JsMap.has in Hhas.
  unfold markRateLimited, isAccountRateLimited, getRateLimitRemaining.
  destruct (JsMap.get accountId (accounts m)) as [a|] eqn:Hget; [|discriminate].
  unfold updateAccount. simpl. rewrite get_set_eq.
  unfold recordLimit, categoryScoped.
  destruct (given modelId);
    destruct (negb (bool_decide (getModelCategory modelId = unknownCategory))); simpl;
    rewrite ?lookup_insert_eq; simpl;
    repeat match goal with |- context [?x <? ?y] => destruct (Z.ltb_spec x y) end;
    try (split; [reflexivity|lia]); try lia.
  all: destruct (rateLimitedUntil a) as [u|];
    repeat match goal with |- context [?x <? ?y] => destruct (Z.ltb_spec x y) end;
    try (split; [reflexivity|lia]); try lia.
Qed.

Lemma X2_witness :
  isAccountRateLimited 1500 "a" (Some "gemini-3-pro-image")
    (markRateLimited 1000 "a" 5000 (Some "gemini-3-pro-image") oneAccount) = true
  /\ 1000 + 5000 - 1500
     <= getRateLimitRemaining 1500 "a" (Some "gemini-3-pro-image")
          (markRateLimited 1000 "a" 5000 (Some "gemini-3-pro-image") oneAccount).
Proof.
  apply (X2_markRateLimited_then_remaining 1000 1500 5000 "a"
           (Some "gemini-3-pro-image") oneAccount).
  - reflexivity.
  - lia.
Defined.

(** ** The shortest wait *)

Lemma get_elem_of {V : Type} (l : list (string * V)) (k : string) (v : V) :
  JsMap.get k l = Some v -> (k, v) ∈ l.
Proof.
  induction l as [|[k0 v0] l IH]; simpl; [discriminate|].
  destruct (String.eqb_spec k0 k) as [->|Hk].
  - intros [= ->]. apply list_elem_of_here.
  - intros H. apply list_elem_of_further, IH, H.
Qed.

Lemma elem_of_get {V : Type} (l : list (string * V)) (k : string) (v : V) :
  NoDup (JsMap.keys l) -> (k, v) ∈ l -> JsMap.get k l = Some v.
Proof.
  induction l as [|[k0 v0] l IH]; simpl.
  - intros _ H. inversion H.
  - rewrite NoDup_cons. intros [Hk0 Hnd] H.
    apply elem_of_cons in H as [[= -> ->]|H].
    + now rewrite String.eqb_refl.
    + destruct (String.eqb_spec k0 k) as [->|Hne].
      * exfalso. apply Hk0.
        apply list_elem_of_In, in_map_iff. exists (k, v).
        split; [reflexivity | apply list_elem_of_In, H].
      * apply IH; assumption.
Qed.

Lemma accountWait_fold (T : Z) (modelId : option string) (acc : option Z) (a : Account) :
  accountWait T modelId acc a = fold_left shorter (activeWaits T modelId a) acc.
Proof.
  unfold accountWait, activeWaits. rewrite fold_left_app.
  destruct (rateLimitedUntil a) as [u|];
    destruct (given modelId && negb (bool_decide (getModelCategory modelId = unknownCategory)));
    destruct (categoryRateLimits a !! getModelCategory modelId) as [l|];
    repeat match goal with |- context [?x <? ?y] => destruct (Z.ltb_spec x y) end;
    reflexivity.
Qed.

Lemma accountWait_concat (T : Z) (modelId : option string) (l : list Account)
    (acc : option Z) :
  fold_left (accountWait T modelId) l acc
  = fold_left shorter (concat (map (activeWaits T modelId) l)) acc.
Proof.
  revert acc. induction l as [|a l IH]; intros acc; simpl; [reflexivity|].
  now rewrite fold_left_app, IH, accountWait_fold.
Qed.

Lemma fold_shorter_Some (ws : list Z) (w0 : Z) :
  exists w, fold_left shorter ws (Some w0) = Some w
            /\ (w = w0 \/ In w ws) /\ w <= w0 /\ forall x, In x ws -> w <= x.
Proof.
  revert w0. induction ws as [|x ws IH]; intros w0; simpl.
  - exists w0. split; [reflexivity|]. split; [auto|]. split; [lia|]. intros x []. 
  - destruct (Z.ltb_spec x w0).
    + destruct (IH x) as (w & Hw & Hin & Hle & Hall). exists w. rewrite Hw.
      split; [reflexivity|]. split; [destruct Hin as [->|Hin]; simpl; auto|].
      split; [lia|]. intros y [<-|Hy]; [lia | apply Hall, Hy].
    + destruct (IH w0) as (w & Hw & Hin & Hle & Hall). exists w. rewrite Hw.
      split; [reflexivity|]. split; [destruct Hin as [->|Hin]; simpl; auto|].
      split; [lia|]. intros y [<-|Hy]; [lia | apply Hall, Hy].
Qed.

Lemma fold_shorter_None (ws : list Z) :
  fold_left shorter ws None = None <-> ws = [].
Proof.
  destruct ws as [|x ws]; simpl; [tauto|].
  destruct (fold_shorter_Some ws x) as (w & Hw & _). rewrite Hw.
  split; discriminate.
Qed.

Lemma fold_shorter_min (ws : list Z) (w : Z) :
  fold_left shorter ws None = Some w -> In w ws /\ forall x, In x ws -> w <= x.
Proof.
  destruct ws as [|x ws]; simpl; [discriminate|].
  destruct (fold_shorter_Some ws x) as (w' & Hw & Hin & Hle & Hall). rewrite Hw.
  intros [= ->]. split.
  - destruct Hin as [->|Hin]; auto.
  - intros y [<-|Hy]; [lia | apply Hall, Hy].
Qed.

Lemma limited_activeWaits (T : Z) (accountId : string) (modelId : option string)
    (m : Manager) (a : Account) :
  JsMap.get accountId m.(accounts) = Some a ->
  isAccountRateLimited T accountId modelId m = false <-> activeWaits T modelId a = [].
Proof.
  intros Hget. unfold isAccountRateLimited, activeWaits. rewrite Hget.
  destruct (rateLimitedUntil a) as [u|];
    destruct (given modelId);
    destruct (negb (bool_decide (getModelCategory modelId = unknownCategory)));
    destruct (categoryRateLimits a !! getModelCategory modelId) as [l|];
    repeat match goal with |- context [?x <? ?y] => destruct (Z.ltb_spec x y) end;
    simpl; split; intros; try reflexivity; try discriminate.
Qed.

Lemma activeWaits_remaining (T : Z) (accountId : string) (modelId : option string)
    (m : Manager) (a : Account) (x : Z) :
  JsMap.get accountId m.(accounts) = Some a ->
  In x (activeWaits T modelId a) ->
  0 < x <= getRateLimitRemaining T accountId modelId m.
Proof.
  intros Hget. unfold getRateLimitRemaining, activeWaits. rewrite Hget.
  destruct (rateLimitedUntil a) as [u|];
    destruct (given modelId);
    destruct (negb (bool_decide (getModelCategory modelId = unknownCategory)));
    destruct (categoryRateLimits a !! getModelCategory modelId) as [l|];
    repeat match goal with |- context [?x <? ?y] => destruct (Z.ltb_spec x y) end;
    simpl; intros Hin; repeat (destruct Hin as [<-|Hin]; [lia|]); try contradiction.
Qed.

Lemma activeWaits_scope (T : Z) (modelId : option string) (a : Account) (x : Z) :
  In x (activeWaits T modelId a) ->
  a.(rateLimitedUntil) = Some (T + x)
  \/ (categoryScoped modelId = true
      /\ until <$> a.(categoryRateLimits) !! getModelCategory modelId = Some (T + x)).
Proof.
  unfold activeWaits, categoryScoped. rewrite (andb_comm (negb _)).
  destruct (rateLimitedUntil a) as [u|];
    destruct (given modelId && negb (bool_decide (getModelCategory modelId = unknownCategory)));
    destruct (categoryRateLimits a !! getModelCategory modelId) as [l|];
    repeat match goal with |- context [?x <? ?y] => destruct (Z.ltb_spec x y) end;
    simpl; intros Hin;
    repeat (destruct Hin as [<-|Hin];
            [first [left; f_equal; lia | right; split; [reflexivity|f_equal; lia]]|]);
    contradiction.
Qed.

(** X3: [getMinRateLimitWait] answers [null] exactly when no registered
    account is limited for the model, as [isAccountRateLimited] judges it at
    the same time. *)
Theorem X3_no_wait_iff_nobody_limited (T : Z) (modelId : option string) (m : Manager) :
  NoDup (JsMap.keys m.(accounts)) ->
  getMinRateLimitWait T modelId m = None
  <-> forall accountId, isAccountRateLimited T accountId modelId m = false.
Proof.
  intros Hnd. unfold getMinRateLimitWait.
  rewrite accountWait_concat, fold_shorter_None. split.
  - intros Hnil accountId.
    destruct (JsMap.get accountId (accounts m)) as [a|] eqn:Hget.
    + apply (limited_activeWaits T accountId modelId m a Hget).
      apply get_elem_of in Hget.
      destruct (activeWaits T modelId a) as [|x ws] eqn:E; [reflexivity|].
      exfalso. assert (Hin : In x (concat (map (activeWaits T modelId) (JsMap.values (accounts m))))).
      { apply in_concat. exists (activeWaits T modelId a). split.
        - apply in_map. unfold JsMap.values.
          apply list_elem_of_In in Hget. apply (in_map snd) in Hget. exact Hget.
        - rewrite E. left. reflexivity. }
      rewrite Hnil in Hin. contradiction.
    + unfold isAccountRateLimited. now rewrite Hget.
  - intros Hall.
    destruct (concat _) as [|x ws] eqn:E; [reflexivity|]. exfalso.
    assert (Hin : In x (concat (map (activeWaits T modelId) (JsMap.values (accounts m)))))
      by (rewrite E; left; reflexivity).
    apply in_concat in Hin as (ws' & Hws' & Hx).
    apply in_map_iff in Hws' as (a & <- & Ha).
    unfold JsMap.values in Ha. apply in_map_iff in Ha as ([k a'] & Heq & Hka).
    simpl in Heq. subst a'.
    apply list_elem_of_In in Hka. apply (elem_of_get _ _ _ Hnd) in Hka.
    pose proof (proj1 (limited_activeWaits T k modelId m a Hka) (Hall k)) as Hnil.
    rewrite Hnil in Hx. contradiction.
Qed.

Lemma X3_witness :
  getMinRateLimitWait 1000 (Some "gemini-3-pro-image") oneAccount = None
  <-> forall accountId,
      isAccountRateLimited 1000 accountId (Some "gemini-3-pro-image") oneAccount = false.
Proof.
  apply (X3_no_wait_iff_nobody_limited 1000 (Some "gemini-3-pro-image") oneAccount).
  simpl. apply NoDup_singleton.
Defined.

Lemma activeWaits_pos (T : Z) (modelId : option string) (a : Account) (x : Z) :
  In x (activeWaits T modelId a) -> 0 < x.
Proof.
  unfold activeWaits.
  destruct (rateLimitedUntil a) as [u|];
    destruct (given modelId && negb (bool_decide (getModelCategory modelId = unknownCategory)));
    destruct (categoryRateLimits a !! getModelCategory modelId) as [l|];
    repeat match goal with |- context [?x <? ?y] => destruct (Z.ltb_spec x y) end;
    simpl; intros Hin; repeat (destruct Hin as [<-|Hin]; [lia|]); contradiction.
Qed.

(** X4: when [getMinRateLimitWait] answers a number, the number is
    positive, it is the time left on some registered account's global
    lockout or on its lockout for the model's category, and no account that
    is limited for the model has less than it remaining. *)
Theorem X4_min_wait_is_shortest (T : Z) (modelId : option string) (m : Manager) (w : Z) :
  getMinRateLimitWait T modelId m = Some w ->
  0 < w
  /\ (forall accountId,
        isAccountRateLimited T accountId modelId m = true ->
        w <= getRateLimitRemaining T accountId modelId m)
  /\ exists k a,
       (k, a) ∈ m.(accounts)
       /\ (a.(rateLimitedUntil) = Some (T + w)
           \/ (categoryScoped modelId = true
               /\ until <$> a.(categoryRateLimits) !! getModelCategory modelId
                  = Some (T + w))).
Proof.
  unfold getMinRateLimitWait. rewrite accountWait_concat.
  intros Hmin. apply fold_shorter_min in Hmin as [Hin Hall].
  apply in_concat in Hin as (ws & Hws & Hw).
  apply in_map_iff in Hws as (a & <- & Ha).
  unfold JsMap.values in Ha. apply in_map_iff in Ha as ([k a'] & Heq & Hka).
  simpl in Heq. subst a'.
  split; [eapply activeWaits_pos, Hw|]. split.
  - intros accountId Hlim.
    destruct (JsMap.get accountId (accounts m)) as [b|] eqn:Hget.
    + destruct (activeWaits T modelId b) as [|x xs] eqn:E.
      * apply (limited_activeWaits T accountId modelId m b Hget) in E. congruence.
      * assert (Hx : In x (activeWaits T modelId b)) by (rewrite E; left; reflexivity).
        pose proof (activeWaits_remaining T accountId modelId m b x Hget Hx) as Hrem.
        assert (w <= x); [|lia].
        apply Hall, in_concat. exists (activeWaits T modelId b). split; [|exact Hx].
        apply in_map. apply get_elem_of, list_elem_of_In in Hget.
        apply (in_map snd) in Hget. exact Hget.
    + unfold isAccountRateLimited in Hlim. rewrite Hget in Hlim. discriminate.
  - exists k, a. split; [apply list_elem_of_In, Hka|].
    apply activeWaits_scope, Hw.
Qed.

Lemma X4_witness :
  0 < 60000
  /\ (forall accountId,
        isAccountRateLimited 1000 accountId None lockedManager = true ->
        60000 <= getRateLimitRemaining 1000 accountId None lockedManager)
  /\ exists k a,
       (k, a) ∈ lockedManager.(accounts)
       /\ (a.(rateLimitedUntil) = Some (1000 + 60000)
           \/ (categoryScoped None = true
               /\ until <$> a.(categoryRateLimits) !! getModelCategory None
                  = Some (1000 + 60000))).
Proof.
  apply (X4_min_wait_is_shortest 1000 None lockedManager 60000). reflexivity.
Defined.

(** ** The optimistic reset *)

Lemma clearEach_get (modelId : option string) (l : list (string * Account)) (n : nat)
    (k : string) :
  JsMap.get k (fst (clearEach modelId l n))
  = (fun a => fst (clearLimits modelId a)) <$> JsMap.get k l.
Proof.
  revert n. induction l as [|[k0 a0] l IH]; intros n; simpl; [reflexivity|].
  destruct (clearLimits modelId a0) as [a0' counted] eqn:E0.
  specialize (IH (if counted then S n else n)).
  destruct (clearEach modelId l (if counted then S n else n)) as [rest' n'].
  simpl in *. destruct (String.eqb_spec k0 k); [simpl; now rewrite E0 | exact IH].
Qed.

Lemma clearEach_shape (modelId : option string) (l : list (string * Account)) (n : nat) :
  Forall2 (fun x y => fst x = fst y /\ sameCredentials (snd x) (snd y))
    (fst (clearEach modelId l n)) l.
Proof.
  revert n. induction l as [|[k0 a0] l IH]; intros n; simpl; [constructor|].
  destruct (clearLimits modelId a0) as [a0' counted] eqn:E0.
  specialize (IH (if counted then S n else n)).
  destruct (clearEach modelId l (if counted then S n else n)) as [rest' n'].
  simpl in *. constructor; [|exact IH]. simpl. split; [reflexivity|].
  unfold clearLimits in E0.
  destruct (given modelId && negb (bool_decide (getModelCategory modelId = unknownCategory))).
  - destruct (categoryRateLimits a0 !! getModelCategory modelId);
      injection E0 as <- _; repeat split.
  - destruct (rateLimitedUntil a0); simpl in E0;
      match type of E0 with context [(0 <? ?s)%nat] => destruct (0 <? s)%nat end;
      injection E0 as <- _; repeat split.
Qed.

Lemma clearAllRateLimits_get (modelId : option string) (m : Manager) (k : string) :
  JsMap.get k (fst (clearAllRateLimits modelId m)).(accounts)
  = (fun a => fst (clearLimits modelId a)) <$> JsMap.get k m.(accounts).
Proof.
  unfold clearAllRateLimits.
  pose proof (clearEach_get modelId (accounts m) 0 k) as H.
  destruct (clearEach modelId (accounts m) 0) as [accs n]. exact H.
Qed.

Lemma clearLimits_unscoped (modelId : option string) (a : Account) :
  categoryScoped modelId = false ->
  (fst (clearLimits modelId a)).(rateLimitedUntil) = None
  /\ (fst (clearLimits modelId a)).(categoryRateLimits) = ∅.
Proof.
  unfold categoryScoped, clearLimits. rewrite andb_comm. intros ->.
  destruct (rateLimitedUntil a) as [u|] eqn:Hu; simpl.
  - destruct (Nat.ltb_spec 0 (size (categoryRateLimits a))) as [Hs|Hs]; simpl.
    + split; reflexivity.
    + split; [reflexivity|]. apply map_size_empty_iff. lia.
  - destruct (Nat.ltb_spec 0 (size (categoryRateLimits a))) as [Hs|Hs]; simpl.
    + split; [exact Hu | reflexivity].
    + split; [exact Hu|]. apply map_size_empty_iff. lia.
Qed.

(** X5: a reset without a model, or for a model of no known category,
    frees every account for every model: afterwards no account is limited,
    whatever the model and the time asked about, and there is no wait to
    report. *)
Theorem X5_reset_without_category_frees_all (modelId : option string) (m : Manager) :
  categoryScoped modelId = false ->
  forall (T : Z) (query : option string),
    (forall accountId,
        isAccountRateLimited T accountId query (fst (clearAllRateLimits modelId m)) = false)
    /\ getMinRateLimitWait T query (fst (clearAllRateLimits modelId m)) = None.
Proof.
  intros Hscope T query.
  assert (Hclear : forall k a,
             (k, a) ∈ (fst (clearAllRateLimits modelId m)).(accounts) ->
             activeWaits T query a = []).
  { intros k a Hin.
    assert (exists a0, a = fst (clearLimits modelId a0)) as [a0 ->].
    { unfold clearAllRateLimits in Hin.
      revert Hin. generalize 0%nat.
      induction (accounts m) as [|[k0 b0] l IH]; intros n; simpl.
      - intros H. inversion H.
      - destruct (clearLimits modelId b0) as [b0' counted] eqn:E0.
        specialize (IH (if counted then S n else n)).
        destruct (clearEach modelId l (if counted then S n else n)) as [rest' n'].
        simpl in *. intros H. apply elem_of_cons in H as [[= -> ->]|H].
        + exists b0. now rewrite E0.
        + apply IH, H. }
    destruct (clearLimits_unscoped modelId a0 Hscope) as [Hg Hc].
    unfold activeWaits. rewrite Hg, Hc, lookup_empty.
    now destruct (given query && _). }
  split.
  - intros accountId.
    destruct (JsMap.get accountId (accounts (fst (clearAllRateLimits modelId m))))
      as [a|] eqn:Hget.
    + apply (limited_activeWaits T accountId query _ a Hget).
      eapply Hclear, get_elem_of, Hget.
    + unfold isAccountRateLimited. now rewrite Hget.
  - unfold getMinRateLimitWait. rewrite accountWait_concat, fold_shorter_None.
    destruct (concat _) as [|x ws] eqn:E; [reflexivity|]. exfalso.
    assert (Hin : In x (concat (map (activeWaits T query)
                                  (JsMap.values (accounts (fst (clearAllRateLimits modelId m)))))))
      by (rewrite E; left; reflexivity).
    apply in_concat in Hin as (ws' & Hws' & Hx).
    apply in_map_iff in Hws' as (a & <- & Ha).
    unfold JsMap.values in Ha. apply in_map_iff in Ha as ([k a'] & Heq & Hka).
    simpl in Heq. subst a'. apply list_elem_of_In in Hka.
    rewrite (Hclear k a Hka) in Hx. contradiction.
Qed.

Lemma X5_witness :
  (forall accountId,
      isAccountRateLimited 1000 accountId (Some "gemini-3-pro-image")
        (fst (clearAllRateLimits None lockedManager)) = false)
  /\ getMinRateLimitWait 1000 (Some "gemini-3-pro-image")
       (fst (clearAllRateLimits None lockedManager)) = None.
Proof.
  apply (X5_reset_without_category_frees_all None lockedManager). reflexivity.
Defined.

(** X6: a reset for a model of a known category clears that category
    only.  Afterwards an account is limited for the model exactly when its
    global lockout is still running, and for a model of another category
    the answer is what it was before the reset. *)
Theorem X6_reset_for_category_keeps_other_scopes (modelId : option string) (m : Manager) :
  categoryScoped modelId = true ->
  forall (T : Z) (accountId : string),
    isAccountRateLimited T accountId modelId (fst (clearAllRateLimits modelId m))
    = isAccountRateLimited T accountId None m
    /\ forall query : option string,
         getModelCategory query <> getModelCategory modelId ->
         isAccountRateLimited T accountId query (fst (clearAllRateLimits modelId m))
         = isAccountRateLimited T accountId query m.
Proof.
  intros Hscope T accountId.
  unfold isAccountRateLimited. rewrite clearAllRateLimits_get.
  destruct (JsMap.get accountId (accounts m)) as [a|]; simpl; [|split; reflexivity].
  unfold categoryScoped in Hscope. apply andb_true_iff in Hscope as [Hcat Hgiven].
  unfold clearLimits. rewrite Hgiven, Hcat. simpl.
  destruct (categoryRateLimits a !! getModelCategory modelId) as [l|] eqn:Hl; simpl.
  - rewrite lookup_delete_eq. split.
    + now destruct (rateLimitedUntil a) as [u|]; [destruct (T <? u)|].
    + intros query Hne. rewrite lookup_delete_ne by congruence. reflexivity.
  - rewrite Hl. split.
    + now destruct (rateLimitedUntil a) as [u|]; [destruct (T <? u)|].
    + reflexivity.
Qed.

Lemma X6_witness :
  isAccountRateLimited 1000 "a" (Some "gemini-3-pro-image")
    (fst (clearAllRateLimits (Some "gemini-3-pro-image") lockedManager))
  = isAccountRateLimited 1000 "a" None lockedManager
  /\ forall query : option string,
       getModelCategory query <> getModelCategory (Some "gemini-3-pro-image") ->
       isAccountRateLimited 1000 "a" query
         (fst (clearAllRateLimits (Some "gemini-3-pro-image") lockedManager))
       = isAccountRateLimited 1000 "a" query lockedManager.
Proof.
  apply (X6_reset_for_category_keeps_other_scopes (Some "gemini-3-pro-image") lockedManager).
  reflexivity.
Defined.

(** X7: a reset touches lockouts only: the roster that [save] would write,
    the registry's keys and their order, the rotation queue and the set of
    accounts in flight are what they were. *)
Theorem X7_reset_keeps_roster_and_queue (modelId : option string) (m : Manager) :
  save (fst (clearAllRateLimits modelId m)) = save m
  /\ JsMap.keys (fst (clearAllRateLimits modelId m)).(accounts) = JsMap.keys m.(accounts)
  /\ (fst (clearAllRateLimits modelId m)).(accountQueue) = m.(accountQueue)
  /\ (fst (clearAllRateLimits modelId m)).(inFlightAccounts) = m.(inFlightAccounts).
Proof.
  pose proof (clearEach_shape modelId (accounts m) 0) as Hshape.
  unfold clearAllRateLimits.
  destruct (clearEach modelId (accounts m) 0) as [accs n]. simpl in *.
  split; [|split; [|split; reflexivity]].
  - apply save_reads_credentials. simpl.
    eapply Forall2_impl; [exact Hshape|]. intros x y [_ H]. exact H.
  - unfold JsMap.keys. induction Hshape as [|x y l l' [Hk _] _ IH]; simpl; congruence.
Qed.

(** ** Adding, removing and demoting accounts *)

Lemma removeFromQueue_filter (q : list string) (i : string) :
  NoDup q -> removeFromQueue i q = List.filter (fun x => negb (String.eqb x i)) q.
Proof.
  induction q as [|x q IH]; simpl; [reflexivity|].
  rewrite NoDup_cons. intros [Hx Hq].
  destruct (String.eqb_spec x i) as [->|Hne]; simpl.
  - rewrite <- IH by exact Hq. symmetry. apply removeFromQueue_absent, Hx.
  - now rewrite IH.
Qed.

(** X8: demoting a queued account puts it last and leaves the others in
    the order they had; demoting an id that is not queued changes
    nothing. *)
Theorem X8_demoted_account_goes_last (accountId : string) (m : Manager) :
  (accountId ∉ m.(accountQueue) -> moveToEndOfQueue accountId m = m)
  /\ (NoDup m.(accountQueue) -> accountId ∈ m.(accountQueue) ->
      (moveToEndOfQueue accountId m).(accountQueue)
      = (List.filter (fun x => negb (String.eqb x accountId)) m.(accountQueue)
         ++ [accountId])%list
      /\ (moveToEndOfQueue accountId m).(accounts) = m.(accounts)).
Proof.
  unfold moveToEndOfQueue. split.
  - intros Hnot. destruct (queueIncludes (accountQueue m) accountId) eqn:E; [|reflexivity].
    apply queueIncludes_elem in E. contradiction.
  - intros Hnd Hin. apply queueIncludes_elem in Hin. rewrite Hin. simpl.
    now rewrite removeFromQueue_filter.
Qed.

Lemma X8_witness :
  (moveToEndOfQueue "a" (withQueue oneAccount ["a"; "b"; "c"])).(accountQueue)
  = (List.filter (fun x => negb (String.eqb x "a")) ["a"; "b"; "c"] ++ ["a"])%list
  /\ (moveToEndOfQueue "a" (withQueue oneAccount ["a"; "b"; "c"])).(accounts)
     = oneAccount.(accounts).
Proof.
  apply (X8_demoted_account_goes_last "a" (withQueue oneAccount ["a"; "b"; "c"])).
  - simpl. refine (bool_decide_unpack _ _). vm_compute. exact I.
  - simpl. refine (bool_decide_unpack _ _). vm_compute. exact I.
Defined.

Lemma get_delete_ne {V : Type} (l : list (string * V)) (i k : string) :
  k <> i -> JsMap.get k (JsMap.delete i l) = JsMap.get k l.
Proof.
  intros Hne. induction l as [|[k0 v0] l IH]; simpl; [reflexivity|].
  destruct (String.eqb_spec k0 i) as [->|Hi]; simpl.
  - destruct (String.eqb_spec i k); [congruence | reflexivity].
  - destruct (String.eqb_spec k0 k); [reflexivity | exact IH].
Qed.

Lemma get_delete_eq {V : Type} (l : list (string * V)) (i : string) :
  NoDup (JsMap.keys l) -> JsMap.get i (JsMap.delete i l) = None.
Proof.
  intros Hnd. apply get_None_keys. rewrite keys_delete.
  apply removeFromQueue_NoDup, Hnd.
Qed.






(** X10: an account that is added, or added again, is registered with
    every lockout clear, so it is not limited for any model; it is in the
    rotation queue, at the place it had if it was queued already; and no
    other account is touched. *)
Theorem X10_added_account_starts_clear (account : PersistedAccount) (m : Manager) :
  JsMap.get account.(p_id) (addAccount account m).(accounts) = Some (fromPersisted account)
  /\ (forall (T : Z) (modelId : option string),
        isAccountRateLimited T account.(p_id) modelId (addAccount account m) = false
        /\ getRateLimitRemaining T account.(p_id) modelId (addAccount account m) = 0)
  /\ account.(p_id) ∈ (addAccount account m).(accountQueue)
  /\ (account.(p_id) ∈ m.(accountQueue) ->
      (addAccount account m).(accountQueue) = m.(accountQueue))
  /\ forall k, k <> account.(p_id) ->
       JsMap.get k (addAccount account m).(accounts) = JsMap.get k m.(accounts).
Proof.
  unfold addAccount. simpl.
  split; [apply get_set_eq|]. split; [|split; [|split]].
  - intros T modelId. unfold isAccountRateLimited, getRateLimitRemaining. simpl.
    rewrite get_set_eq. simpl. rewrite lookup_empty.
    destruct (given modelId);
      destruct (negb (bool_decide (getModelCategory modelId = unknownCategory)));
      split; reflexivity.
  - destruct (queueIncludes (accountQueue m) (p_id account)) eqn:E.
    + apply queueIncludes_elem, E.
    + apply elem_of_app. right. apply list_elem_of_here.
  - intros Hin. apply queueIncludes_elem in Hin. now rewrite Hin.
  - intros k Hne. apply get_set_ne. congruence.
Qed.

(** ** What a selection hands out *)

Lemma ensureProjectId_project (env : Env) (a : Account) :
  (snd (ensureProjectId env a)).(projectId) = Some (fst (ensureProjectId env a)).
Proof.
  unfold ensureProjectId.
  destruct (projectId a) as [[|c s]|] eqn:Hp; try (simpl; reflexivity).
  destruct (negb (String.eqb (String c s) "unknown")); simpl; [exact Hp | reflexivity].
Qed.

Lemma hand_record (env : Env) (stamp : Z) (key : string) (a : Account) (m m' : Manager)
    (r : option Credential) :
  hand env stamp key a m = (m', r) ->
  exists cred a',
    r = Some cred /\ JsMap.get key m'.(accounts) = Some a'
    /\ a'.(rateLimitedUntil) = a.(rateLimitedUntil)
    /\ cred = {| c_accessToken := a'.(accessToken); c_projectId := cred.(c_projectId);
                 c_email := a'.(email); c_accountId := a'.(id) |}
    /\ a'.(projectId) = Some cred.(c_projectId)
    /\ m'.(lastUsedAccount) = Some (cred.(c_accountId), stamp)
    /\ m'.(accountQueue) = m.(accountQueue)
    /\ m'.(inFlightAccounts) = m.(inFlightAccounts).
Proof.
  unfold hand. pose proof (ensureProjectId_frame env a) as Hframe.
  pose proof (ensureProjectId_project env a) as Hproject.
  destruct (ensureProjectId env a) as [project a']. simpl in Hframe, Hproject.
  destruct Hframe as (Hid & Hmail & Htok & _ & _ & Hu & _).
  intros [= <- <-]. eexists _, a'. split; [reflexivity|]. simpl.
  split; [apply get_set_eq|]. split; [exact Hu|].
  rewrite Hid, Hmail, Htok. repeat split. exact Hproject.
Qed.

Lemma scanQueue_usable (env : Env) (modelId : option string) (idle : bool)
    (queue : list string) (m m' : Manager) (cred : Credential) :
  scanQueue env modelId idle queue m = (m', Some cred) ->
  exists key a',
    key ∈ queue /\ JsMap.get key m'.(accounts) = Some a'
    /\ env.(isAccountDisabled) key = false
    /\ lockedOut env.(now) a' = false
    /\ (idle = true -> key ∉ m.(inFlightAccounts))
    /\ cred = {| c_accessToken := a'.(accessToken); c_projectId := cred.(c_projectId);
                 c_email := a'.(email); c_accountId := a'.(id) |}
    /\ a'.(projectId) = Some cred.(c_projectId)
    /\ m'.(lastUsedAccount) = Some (cred.(c_accountId), env.(later)).
Proof.
  revert m. induction queue as [|accountId rest IH]; intros m; cbn [scanQueue].
  - discriminate.
  - assert (Hskip : forall m0,
               m0.(inFlightAccounts) = m.(inFlightAccounts) ->
               scanQueue env modelId idle rest m0 = (m', Some cred) ->
               exists key a',
                 key ∈ accountId :: rest /\ JsMap.get key m'.(accounts) = Some a'
                 /\ env.(isAccountDisabled) key = false
                 /\ lockedOut env.(now) a' = false
                 /\ (idle = true -> key ∉ m.(inFlightAccounts))
                 /\ cred = {| c_accessToken := a'.(accessToken);
                              c_projectId := cred.(c_projectId);
                              c_email := a'.(email); c_accountId := a'.(id) |}
                 /\ a'.(projectId) = Some cred.(c_projectId)
                 /\ m'.(lastUsedAccount) = Some (cred.(c_accountId), env.(later))).
    { intros m0 Hfl H. destruct (IH _ H) as (key & a' & Hin & Hrest).
      exists key, a'. split; [apply list_elem_of_further, Hin|].
      rewrite <- Hfl. exact Hrest. }
    destruct (JsMap.get accountId (accounts m)) as [account|] eqn:Hget; [|now apply Hskip].
    destruct (isAccountDisabled env accountId) eqn:Hdis; [now apply Hskip|].
    destruct (lockedOut (now env) account) eqn:Hlock; [now apply Hskip|].
    destruct (idle && bool_decide (accountId ∈ inFlightAccounts m)) eqn:Hidle;
      [now apply Hskip|].
    destruct (hasModelQuota env modelId m accountId); cbn [negb]; [|now apply Hskip].
    assert (Hfree : idle = true -> accountId ∉ inFlightAccounts m).
    { intros ->. simpl in Hidle. now apply bool_decide_eq_false in Hidle. }
    assert (Hhand : forall a m0,
               a.(rateLimitedUntil) = account.(rateLimitedUntil) ->
               hand env env.(later) accountId a m0 = (m', Some cred) ->
               exists key a',
                 key ∈ accountId :: rest /\ JsMap.get key m'.(accounts) = Some a'
                 /\ env.(isAccountDisabled) key = false
                 /\ lockedOut env.(now) a' = false
                 /\ (idle = true -> key ∉ m.(inFlightAccounts))
                 /\ cred = {| c_accessToken := a'.(accessToken);
                              c_projectId := cred.(c_projectId);
                              c_email := a'.(email); c_accountId := a'.(id) |}
                 /\ a'.(projectId) = Some cred.(c_projectId)
                 /\ m'.(lastUsedAccount) = Some (cred.(c_accountId), env.(later))).
    { intros a m0 Hsame H.
      destruct (hand_record _ _ _ _ _ _ _ H) as (cred' & a' & Hc & Ha & Hu & Hcred & Hp & Hl & _).
      injection Hc as <-. exists accountId, a'.
      split; [apply list_elem_of_here|]. split; [exact Ha|]. split; [exact Hdis|].
      split; [|repeat split; assumption].
      unfold lockedOut in *. now rewrite Hu, Hsame. }
    destruct (nearExpiry (now env) account).
    + destruct (refreshAccessToken env (refreshToken account)) as [[token expiresIn]|].
      * apply Hhand. simpl. now destruct (projectId account) as [[|c r]|].
      * now apply Hskip.
    + now apply Hhand.
Qed.

Lemma stickyHead_usable (env : Env) (modelId : option string) (idle : bool)
    (m m' : Manager) (r : option Credential) :
  stickyHead env modelId idle m = Some (m', r) ->
  exists key a' cred,
    r = Some cred
    /\ key ∈ m.(accountQueue) /\ JsMap.get key m'.(accounts) = Some a'
    /\ env.(isAccountDisabled) key = false
    /\ lockedOut env.(now) a' = false
    /\ (idle = true -> key ∉ m.(inFlightAccounts))
    /\ cred = {| c_accessToken := a'.(accessToken); c_projectId := cred.(c_projectId);
                 c_email := a'.(email); c_accountId := a'.(id) |}
    /\ a'.(projectId) = Some cred.(c_projectId)
    /\ m'.(lastUsedAccount) = Some (cred.(c_accountId), env.(now)).
Proof.
  unfold stickyHead.
  destruct (accountQueue m) as [|firstId rest]; [discriminate|].
  destruct (JsMap.get firstId (accounts m)) as [firstAccount|]; [|discriminate].
  destruct (_ || _) eqn:Hfree; [|discriminate].
  destruct (isAccountDisabled env firstId) eqn:Hdis; [discriminate|].
  cbv zeta.
  destruct (idle && bool_decide (firstId ∈ inFlightAccounts m)) eqn:Hidle; [discriminate|].
  destruct (hasModelQuota env modelId m firstId); cbn [negb]; [|discriminate].
  intros [= H].
  destruct (hand_record _ _ _ _ _ _ _ H) as (cred & a' & -> & Ha & Hu & Hcred & Hp & Hl & _).
  exists firstId, a', cred. split; [reflexivity|].
  split; [apply list_elem_of_here|]. split; [exact Ha|]. split; [exact Hdis|].
  split; [|split; [|repeat split; assumption]].
  - unfold lockedOut. rewrite Hu.
    assert (Hsame : rateLimitedUntil
                      (if nearExpiry (now env) firstAccount
                       then match refreshAccessToken env (refreshToken firstAccount) with
                            | Some (token, expiresIn) =>
                                withTokens firstAccount token (now env + expiresIn * 1000)
                            | None => firstAccount
                            end
                       else firstAccount) = rateLimitedUntil firstAccount).
    { destruct (nearExpiry _ _); [|reflexivity].
      now destruct (refreshAccessToken _ _) as [[token expiresIn]|]. }
    rewrite Hsame.
    destruct (rateLimitedUntil firstAccount) as [u|]; simpl in *; [|reflexivity].
    destruct (u =? 0); simpl in *; [reflexivity|].
    destruct (Z.leb_spec u (now env)); [|discriminate].
    destruct (Z.ltb_spec (now env) u); [lia | reflexivity].
  - intros ->. simpl in Hidle. now apply bool_decide_eq_false in Hidle.
Qed.

(** X11: a credential that [getNextAvailableAccount] hands out is the
    registry's record of a queued account: the id, email, access token and
    project id returned are those stored under its key after the call.  The
    account is not disabled and its global lockout is not running, and the
    manager remembers it as the last account used. *)
Theorem X11_selection_hands_out_usable_account
    (env : Env) (forceRotate : bool) (modelId : option string)
    (m m' : Manager) (cred : Credential) :
  getNextAvailableAccount env forceRotate modelId m = (m', Some cred) ->
  exists key a',
    key ∈ m'.(accountQueue) /\ JsMap.get key m'.(accounts) = Some a'
    /\ env.(isAccountDisabled) key = false
    /\ lockedOut env.(now) a' = false
    /\ cred = {| c_accessToken := a'.(accessToken); c_projectId := cred.(c_projectId);
                 c_email := a'.(email); c_accountId := a'.(id) |}
    /\ a'.(projectId) = Some cred.(c_projectId)
    /\ exists stamp, m'.(lastUsedAccount) = Some (cred.(c_accountId), stamp).
Proof.
  intros Hsel.
  pose proof (selection_result env forceRotate modelId m) as Hshape.
  rewrite Hsel in Hshape. simpl in Hshape. destruct Hshape as [Hq _].
  revert Hsel. unfold getNextAvailableAccount.
  set (m3 := ensureQueueInitialized _) in *.
  destruct (JsMap.size (accounts m3) =? 0)%nat; [discriminate|].
  assert (Hscan : scanQueue env modelId (hasIdleAccount (now env) m3) (accountQueue m3) m3
                  = (m', Some cred) ->
                  exists key a',
                    key ∈ m'.(accountQueue) /\ JsMap.get key m'.(accounts) = Some a'
                    /\ env.(isAccountDisabled) key = false
                    /\ lockedOut env.(now) a' = false
                    /\ cred = {| c_accessToken := a'.(accessToken);
                                 c_projectId := cred.(c_projectId);
                                 c_email := a'.(email); c_accountId := a'.(id) |}
                    /\ a'.(projectId) = Some cred.(c_projectId)
                    /\ exists stamp, m'.(lastUsedAccount) = Some (cred.(c_accountId), stamp)).
  { intros H.
    destruct (scanQueue_usable _ _ _ _ _ _ _ H)
      as (key & a' & Hin & Ha & Hdis & Hlock & _ & Hcred & Hp & Hl).
    exists key, a'. rewrite Hq. repeat split; try assumption. now exists (later env). }
  destruct forceRotate; simpl; [exact Hscan|].
  destruct (stickyHead env modelId (hasIdleAccount (now env) m3) m3) as [[m0 r]|] eqn:Hs;
    [|exact Hscan].
  intros [= -> ->].
  destruct (stickyHead_usable _ _ _ _ _ _ Hs)
    as (key & a' & cred' & Hc & Hin & Ha & Hdis & Hlock & _ & Hcred & Hp & Hl).
  injection Hc as <-.
  exists key, a'. rewrite Hq. repeat split; try assumption. now exists (now env).
Qed.

Lemma X11_witness :
  exists key a',
    key ∈ (fst (getNextAvailableAccount (quietEnv 1000) false None oneAccount)).(accountQueue)
    /\ JsMap.get key
         (fst (getNextAvailableAccount (quietEnv 1000) false None oneAccount)).(accounts)
       = Some a'
    /\ (quietEnv 1000).(isAccountDisabled) key = false
    /\ lockedOut (quietEnv 1000).(now) a' = false
    /\ {| c_accessToken := "token-a"; c_projectId := "project";
          c_email := "a@example.com"; c_accountId := "a" |}
       = {| c_accessToken := a'.(accessToken); c_projectId := "project";
            c_email := a'.(email); c_accountId := a'.(id) |}
    /\ a'.(projectId) = Some "project"
    /\ exists stamp,
         (fst (getNextAvailableAccount (quietEnv 1000) false None oneAccount)).(lastUsedAccount)
         = Some ("a", stamp).
Proof.
  apply (X11_selection_hands_out_usable_account (quietEnv 1000) false None oneAccount
           (fst (getNextAvailableAccount (quietEnv 1000) false None oneAccount))
           {| c_accessToken := "token-a"; c_projectId := "project";
              c_email := "a@example.com"; c_accountId := "a" |}).
  reflexivity.
Defined.



(** ** What [getAccountById] hands out *)

(** X13: [getAccountById] answers [null] for a disabled account, and a
    credential it does hand out is the registry's record under the id asked
    for: the id, email, access token and project id returned are those
    stored after the call, and the account's global lockout is not
    running. *)
Theorem X13_getAccountById_hands_out_usable_account
    (env : Env) (accountId : string) (modelId : option string)
    (m m' : Manager) (r : option Credential) :
  getAccountById env accountId modelId m = (m', r) ->
  (env.(isAccountDisabled) accountId = true -> r = None)
  /\ forall cred, r = Some cred ->
       exists a',
         JsMap.get accountId m'.(accounts) = Some a'
         /\ lockedOut env.(now) a' = false
         /\ cred = {| c_accessToken := a'.(accessToken); c_projectId := cred.(c_projectId);
                      c_email := a'.(email); c_accountId := a'.(id) |}
         /\ a'.(projectId) = Some cred.(c_projectId).
Proof.
  unfold getAccountById. cbv zeta.
  set (m2 := if JsMap.has accountId _ then _ else _).
  destruct (JsMap.get accountId (accounts m2)) as [account|] eqn:Hget.
  2: { intros [= <- <-]. split; [reflexivity | discriminate]. }
  destruct (isAccountDisabled env accountId) eqn:Hdis.
  { intros [= <- <-]. split; [reflexivity | discriminate]. }
  destruct (lockedOut (now env) account) eqn:Hlock.
  { intros [= <- <-]. split; [discriminate | discriminate]. }
  assert (Hhand : forall a,
             a.(rateLimitedUntil) = account.(rateLimitedUntil) ->
             (let '(project, a3) := ensureProjectId env a in
              (updateAccount accountId a3 m2,
               Some {| c_accessToken := a.(accessToken); c_projectId := project;
                       c_email := a.(email); c_accountId := a.(id) |})) = (m', r) ->
             (false = true -> r = None)
             /\ forall cred, r = Some cred ->
                  exists a',
                    JsMap.get accountId m'.(accounts) = Some a'
                    /\ lockedOut env.(now) a' = false
                    /\ cred = {| c_accessToken := a'.(accessToken);
                                 c_projectId := cred.(c_projectId);
                                 c_email := a'.(email); c_accountId := a'.(id) |}
                    /\ a'.(projectId) = Some cred.(c_projectId)).
  { intros a Hsame. pose proof (ensureProjectId_frame env a) as Hframe.
    pose proof (ensureProjectId_project env a) as Hproject.
    destruct (ensureProjectId env a) as [project a3]. simpl in Hframe, Hproject.
    destruct Hframe as (Hid & Hmail & Htok & _ & _ & Hu & _).
    intros [= <- <-]. split; [discriminate|]. intros cred [= <-].
    exists a3. simpl. split; [apply get_set_eq|].
    split; [unfold lockedOut in *; now rewrite Hu, Hsame|].
    rewrite Hid, Hmail, Htok. split; [reflexivity | exact Hproject]. }
  match goal with |- context [if ?b then (m2, None) else _] => destruct b end.
  { intros [= <- <-]. split; [discriminate | discriminate]. }
  destruct (nearExpiry (now env) account); [|now apply Hhand].
  destruct (refreshAccessToken env (refreshToken account)) as [[token expiresIn]|].
  - apply Hhand. simpl. now destruct (projectId account) as [[|c s]|].
  - intros [= <- <-]. split; [discriminate | discriminate].
Qed.

Lemma X13_witness :
  (isAccountDisabled (quietEnv 1000) "a" = true ->
   snd (getAccountById (quietEnv 1000) "a" None oneAccount) = None)
  /\ forall cred, snd (getAccountById (quietEnv 1000) "a" None oneAccount) = Some cred ->
       exists a',
         JsMap.get "a" (fst (getAccountById (quietEnv 1000) "a" None oneAccount)).(accounts)
         = Some a'
         /\ lockedOut (quietEnv 1000).(now) a' = false
         /\ cred = {| c_accessToken := a'.(accessToken); c_projectId := cred.(c_projectId);
                      c_email := a'.(email); c_accountId := a'.(id) |}
         /\ a'.(projectId) = Some cred.(c_projectId).
Proof.
  apply (X13_getAccountById_hands_out_usable_account (quietEnv 1000) "a" None oneAccount
           (fst (getAccountById (quietEnv 1000) "a" None oneAccount))
           (snd (getAccountById (quietEnv 1000) "a" None oneAccount))).
  reflexivity.
Defined.

(** ** The guard's bookkeeping *)

Section guard_bookkeeping.
Import Guard.
Variable MIN : Z.   (* [MIN_REQUEST_INTERVAL_MS] *)

Lemma step_lockPending (e : event) (s s' : ledger) :
  isRemove e = false -> lockPending s -> step MIN e s = Some s' -> lockPending s'.
Proof.
  intros He Hs. destruct e; try discriminate; simpl.
  - intros [= <-] k. simpl. intros [= <-]. eexists. split.
    + apply lookup_snoc_Some. right. split; reflexivity.
    + reflexivity.
  - destruct (calls s !! k) as [c|]; [|discriminate].
    destruct (stage c); try discriminate.
    destruct (isSettled s (previous c)); [|discriminate].
    intros [= <-]. exact Hs.
  - destruct (calls s !! k) as [c|] eqn:Hk; [|discriminate].
    destruct (stage c); try discriminate.
    destruct (isSettled s (previous c)); [|discriminate].
    pose proof (lookup_lt_Some _ _ _ Hk) as Hlt.
    destruct (_ <? _); intros [= <-] j; simpl; intros Hj;
      destruct (Hs j Hj) as (cj & Hcj & Hrel);
      (destruct (decide (j = k)) as [->|Hne];
       [eexists; split; [apply list_lookup_insert_eq, Hlt | reflexivity]
       |exists cj; split; [rewrite list_lookup_insert_ne by congruence; exact Hcj | exact Hrel]]).
  - destruct (calls s !! k) as [c|] eqn:Hk; [|discriminate].
    destruct (stage c); try discriminate.
    destruct (_ <=? _); [|discriminate].
    pose proof (lookup_lt_Some _ _ _ Hk) as Hlt.
    intros [= <-] j; simpl; intros Hj.
    destruct (Hs j Hj) as (cj & Hcj & Hrel).
    destruct (decide (j = k)) as [->|Hne].
    + eexists. split; [apply list_lookup_insert_eq, Hlt | reflexivity].
    + exists cj. split; [rewrite list_lookup_insert_ne by congruence; exact Hcj | exact Hrel].
  - destruct (calls s !! k) as [c|] eqn:Hk; [|discriminate].
    destruct (stage c); try discriminate.
    + intros [= <-] j; simpl.
      destruct (bool_decide (accountLock s = Some k)) eqn:Hlock; [discriminate|].
      apply bool_decide_eq_false in Hlock. intros Hj.
      destruct (Hs j Hj) as (cj & Hcj & Hrel).
      exists cj. split; [|exact Hrel].
      rewrite list_lookup_insert_ne by congruence. exact Hcj.
    + intros [= <-]. exact Hs.
  - destruct (0 <=? dt); [|discriminate]. intros [= <-]. exact Hs.
Qed.

Lemma step_flagAccurate (e : event) (s s' : ledger) :
  isRemove e = false -> consistent MIN s -> flagAccurate s ->
  step MIN e s = Some s' -> flagAccurate s'.
Proof.
  intros He Hcons Hs. unfold flagAccurate in Hs. destruct e; try discriminate; simpl.
  - intros [= <-]. unfold flagAccurate. simpl. rewrite Hs. split.
    + intros (k & c & Hk & Hc). exists k, c. split; [|exact Hc].
      apply lookup_app_l_Some, Hk.
    + intros (k & c & Hk & Hc). apply lookup_snoc_Some in Hk as [[_ Hk] | [_ <-]];
        [exists k, c; split; assumption | discriminate].
  - destruct (calls s !! k) as [c|]; [|discriminate].
    destruct (stage c); try discriminate.
    destruct (isSettled s (previous c)); [|discriminate].
    intros [= <-]. exact Hs.
  - destruct (calls s !! k) as [c|] eqn:Hk; [|discriminate].
    destruct (stage c) eqn:Hst; try discriminate.
    destruct (isSettled s (previous c)); [|discriminate].
    pose proof (lookup_lt_Some _ _ _ Hk) as Hlt.
    destruct (_ <? _); intros [= <-]; unfold flagAccurate; simpl.
    + rewrite Hs. split; intros (j & cj & Hj & Hc).
      * exists j, cj. split; [|exact Hc].
        rewrite list_lookup_insert_ne; [exact Hj|].
        intros <-. rewrite Hk in Hj. injection Hj as <-.
        unfold holding in Hc. rewrite Hst in Hc. discriminate.
      * apply list_lookup_insert_Some in Hj as [(_ & <- & _) | (Hne & Hj)];
          [discriminate | exists j, cj; split; assumption].
    + split; [|reflexivity]. intros _. eexists k, _.
      split; [apply list_lookup_insert_eq, Hlt | reflexivity].
  - destruct (calls s !! k) as [c|] eqn:Hk; [|discriminate].
    destruct (stage c); try discriminate.
    destruct (_ <=? _); [|discriminate].
    pose proof (lookup_lt_Some _ _ _ Hk) as Hlt.
    intros [= <-]; unfold flagAccurate; simpl.
    split; [|reflexivity]. intros _. eexists k, _.
    split; [apply list_lookup_insert_eq, Hlt | reflexivity].
  - destruct (calls s !! k) as [c|] eqn:Hk; [|discriminate].
    destruct (stage c) eqn:Hst; try discriminate.
    + intros [= <-]; unfold flagAccurate; simpl.
      split; [discriminate|]. intros (j & cj & Hj & Hc). exfalso.
      apply list_lookup_insert_Some in Hj as [(_ & <- & _) | (Hne & Hj)]; [discriminate|].
      apply Hne. symmetry.
      apply (consistent_exclusive MIN s Hcons j k cj c Hj Hk Hc).
      unfold holding. now rewrite Hst.
    + intros [= <-]. exact Hs.
  - destruct (0 <=? dt); [|discriminate]. intros [= <-]. exact Hs.
Qed.

Lemma run_bookkeeping (es : list event) (s s' : ledger) :
  forallb (fun e => negb (isRemove e)) es = true ->
  consistent MIN s -> flagAccurate s -> lockPending s ->
  run MIN es s = Some s' ->
  consistent MIN s' /\ flagAccurate s' /\ lockPending s'.
Proof.
  revert s. induction es as [|e es IH]; intros s Hes Hc Hf Hl; simpl.
  - intros [= <-]. split; [|split]; assumption.
  - simpl in Hes. apply andb_true_iff in Hes as [He Hes]. apply negb_true_iff in He.
    destruct (step MIN e s) as [s1|] eqn:Hstep; [|discriminate].
    apply IH; [exact Hes | | |].
    + eapply step_consistent; eassumption.
    + eapply step_flagAccurate; eassumption.
    + eapply step_lockPending; eassumption.
Qed.
End guard_bookkeeping.

(** X14: as long as [removeAccount] does not purge the id in between,
    the guard's two tables tell the truth: the id is in
    [inFlightAccounts] exactly while some call holds the lock, and
    [accountLocks] has an entry for the id exactly while some call made so
    far has not been released. *)
Theorem X14_guard_tables_accurate
    (MIN_REQUEST_INTERVAL_MS t : Z) (es : list Guard.event) (s : Guard.ledger) :
  forallb (fun e => negb (Guard.isRemove e)) es = true ->
  Guard.run MIN_REQUEST_INTERVAL_MS es (Guard.initial t) = Some s ->
  flagAccurate s /\ lockTidy s.
Proof.
  intros Hes Hrun.
  destruct (run_bookkeeping MIN_REQUEST_INTERVAL_MS es (Guard.initial t) s Hes)
    as (Hc & Hf & Hl).
  - apply consistent_initial.
  - unfold flagAccurate. simpl. split; [discriminate|].
    intros (k & c & Hk & _). rewrite lookup_nil in Hk. discriminate.
  - intros k. simpl. discriminate.
  - exact Hrun.
  - split; [exact Hf|]. split.
    + apply (Guard.unlocked_all_released _ _ Hc).
    + intros Hall. destruct (Guard.accountLock s) as [k|] eqn:Hlock; [|reflexivity].
      destruct (Hl k Hlock) as (c & Hk & Hrel).
      rewrite (Hall k c Hk) in Hrel. discriminate.
Qed.

Lemma X14_witness :
  exists s, Guard.run 200 orderlyRun (Guard.initial 1000) = Some s
            /\ flagAccurate s /\ lockTidy s.
Proof.
  eexists. split; [reflexivity|].
  apply (X14_guard_tables_accurate 200 1000 orderlyRun); reflexivity.
Defined.

(** ** Releasing twice, and getting through *)

Section guard_progress.
Import Guard.
Variable MIN : Z.   (* [MIN_REQUEST_INTERVAL_MS] *)

Lemma step_keeps_released (e : event) (s s' : ledger) (k : nat) (c : call) :
  step MIN e s = Some s' -> s.(calls) !! k = Some c -> released c = true ->
  exists c', s'.(calls) !! k = Some c' /\ released c' = true.
Proof.
  intros Hstep Hk Hrel. pose proof (released_not_proceeding c Hrel) as Hst.
  destruct e; simpl in Hstep.
  - injection Hstep as <-. exists c. split; [apply lookup_app_l_Some, Hk | exact Hrel].
  - destruct (calls s !! k0) as [c0|]; [|discriminate].
    destruct (stage c0); try discriminate.
    destruct (isSettled s (previous c0)); [|discriminate].
    injection Hstep as <-. exists c. split; assumption.
  - destruct (calls s !! k0) as [c0|] eqn:Hk0; [|discriminate].
    destruct (stage c0) eqn:Hst0; try discriminate.
    destruct (isSettled s (previous c0)); [|discriminate].
    assert (Hne : k0 <> k) by (intros ->; congruence).
    destruct (_ <? _); injection Hstep as <-; exists c; simpl;
      (split; [rewrite list_lookup_insert_ne by exact Hne; exact Hk | exact Hrel]).
  - destruct (calls s !! k0) as [c0|] eqn:Hk0; [|discriminate].
    destruct (stage c0) eqn:Hst0; try discriminate.
    destruct (_ <=? _); [|discriminate].
    assert (Hne : k0 <> k) by (intros ->; congruence).
    injection Hstep as <-; exists c; simpl.
    split; [rewrite list_lookup_insert_ne by exact Hne; exact Hk | exact Hrel].
  - destruct (calls s !! k0) as [c0|] eqn:Hk0; [|discriminate].
    destruct (stage c0) eqn:Hst0; try discriminate.
    + assert (Hne : k0 <> k) by (intros ->; congruence).
      injection Hstep as <-; exists c; simpl.
      split; [rewrite list_lookup_insert_ne by exact Hne; exact Hk | exact Hrel].
    + injection Hstep as <-. exists c. split; assumption.
  - destruct (0 <=? dt); [|discriminate]. injection Hstep as <-.
    exists c. split; assumption.
  - injection Hstep as <-. exists c. split; assumption.
Qed.

Lemma run_keeps_released (es : list event) (s s' : ledger) (k : nat) (c : call) :
  run MIN es s = Some s' -> s.(calls) !! k = Some c -> released c = true ->
  exists c', s'.(calls) !! k = Some c' /\ released c' = true.
Proof.
  revert s c. induction es as [|e es IH]; intros s c; simpl.
  - intros [= <-] Hk Hrel. exists c. split; assumption.
  - destruct (step MIN e s) as [s1|] eqn:Hstep; [|discriminate].
    intros Hrun Hk Hrel.
    destruct (step_keeps_released e s s1 k c Hstep Hk Hrel) as (c1 & Hk1 & Hrel1).
    eapply IH; eassumption.
Qed.

Lemma run_app (es1 es2 : list event) (s : ledger) :
  run MIN (es1 ++ es2) s
  = match run MIN es1 s with Some s1 => run MIN es2 s1 | None => None end.
Proof.
  revert s. induction es1 as [|e es1 IH]; intros s; simpl; [reflexivity|].
  destruct (step MIN e s) as [s1|]; [apply IH | reflexivity].
Qed.

(** The reactions that fulfil the [tail]s of released calls, in request
    order, up to call [j]. *)
Lemma settle_chain (s : ledger) (j : nat) :
  (forall k c i, s.(calls) !! k = Some c -> c.(previous) = Some i -> S i = k) ->
  (forall i ci, (i <= j)%nat -> s.(calls) !! i = Some ci -> released ci = true) ->
  (j < length s.(calls))%nat ->
  exists es' extra,
    forallb isInternal es' = true
    /\ run MIN es' s
       = Some {| accountLock := s.(accountLock); lastCall := s.(lastCall);
                 inFlight := s.(inFlight); calls := s.(calls);
                 settled := (extra ++ s.(settled))%list; clock := s.(clock) |}
    /\ j ∈ (extra ++ s.(settled))%list.
Proof.
  intros Hpred. induction j as [|j IH]; intros Hrel Hlt.
  - destruct (lookup_lt_is_Some_2 _ _ Hlt) as [c Hc].
    pose proof (released_not_proceeding c (Hrel 0%nat c (le_n _) Hc)) as Hst.
    destruct (previous c) as [i|] eqn:Hp.
    + pose proof (Hpred _ _ _ Hc Hp). lia.
    + exists [Settle 0], [0%nat]. split; [reflexivity|]. split.
      * simpl. rewrite Hc, Hst, Hp. reflexivity.
      * apply list_elem_of_here.
  - destruct (lookup_lt_is_Some_2 _ _ Hlt) as [c Hc].
    pose proof (released_not_proceeding c (Hrel (S j) c (le_n _) Hc)) as Hst.
    destruct (previous c) as [i|] eqn:Hp.
    + pose proof (Hpred _ _ _ Hc Hp) as Hi. injection Hi as ->.
      destruct IH as (es1 & extra1 & Hint & Hrun & Hin); [intros; apply (Hrel i); [lia|assumption] | lia |].
      exists (es1 ++ [Settle (S j)])%list, (S j :: extra1).
      split; [rewrite forallb_app, Hint; reflexivity|]. split.
      * rewrite run_app, Hrun. simpl. rewrite Hc, Hst, Hp. simpl.
        rewrite bool_decide_eq_true_2 by exact Hin. reflexivity.
      * apply list_elem_of_here.
    + exists [Settle (S j)], [S j]. split; [reflexivity|]. split.
      * simpl. rewrite Hc, Hst, Hp. reflexivity.
      * apply list_elem_of_here.
Qed.

Lemma waiter_gets_through (s : ledger) (k : nat) (c : call) :
  (forall k c i, s.(calls) !! k = Some c -> c.(previous) = Some i -> S i = k) ->
  s.(calls) !! k = Some c -> c.(stage) = AwaitPrevious ->
  (forall j cj, (j < k)%nat -> s.(calls) !! j = Some cj -> released cj = true) ->
  exists es' s' c',
    forallb isInternal es' = true /\ run MIN es' s = Some s'
    /\ s'.(calls) !! k = Some c' /\ holding c' = true.
Proof.
  intros Hpred Hk Hst Hrel.
  pose proof (lookup_lt_Some _ _ _ Hk) as Hlt.
  assert (Hready : exists es1 extra,
             forallb isInternal es1 = true
             /\ run MIN es1 s
                = Some {| accountLock := s.(accountLock); lastCall := s.(lastCall);
                          inFlight := s.(inFlight); calls := s.(calls);
                          settled := (extra ++ s.(settled))%list; clock := s.(clock) |}
             /\ isSettled {| accountLock := s.(accountLock); lastCall := s.(lastCall);
                             inFlight := s.(inFlight); calls := s.(calls);
                             settled := (extra ++ s.(settled))%list; clock := s.(clock) |}
                  c.(previous) = true).
  { destruct (previous c) as [j|] eqn:Hp.
    - pose proof (Hpred _ _ _ Hk Hp) as Hj.
      destruct (settle_chain s j Hpred) as (es1 & extra & Hint & Hrun & Hin).
      + intros i ci Hle. apply Hrel. lia.
      + lia.
      + exists es1, extra. split; [exact Hint|]. split; [exact Hrun|].
        simpl. apply bool_decide_eq_true_2, Hin.
    - exists [], []. split; [reflexivity|]. split; [|reflexivity].
      simpl. destruct s; reflexivity. }
  destruct Hready as (es1 & extra & Hint & Hrun & Hset).
  set (s1 := {| accountLock := accountLock s; lastCall := lastCall s;
                inFlight := inFlight s; calls := calls s;
                settled := (extra ++ settled s)%list; clock := clock s |}) in *.
  set (last := match lastCall s with Some t => t | None => 0 end).
  destruct (Z.ltb_spec (clock s - last) MIN) as [Hearly|Hlate].
  - exists (es1 ++ [Resume k; Tick (MIN - (clock s - last)); Fire k])%list.
    eexists. eexists.
    split; [rewrite forallb_app, Hint; reflexivity|]. split.
    + rewrite run_app, Hrun. cbn [run step]. cbn [calls s1]. rewrite Hk, Hst, Hset.
      cbn [lastCall clock s1]. fold last.
      rewrite (proj2 (Z.ltb_lt _ _) Hearly).
      cbn [setCall clock calls].
      rewrite (proj2 (Z.leb_le 0 (MIN - (clock s - last)))) by lia.
      cbn [calls clock]. rewrite list_lookup_insert_eq by exact Hlt.
      cbn [stage]. rewrite Z.leb_refl. reflexivity.
    + split; [simpl; apply list_lookup_insert_eq; rewrite length_insert; exact Hlt
             | reflexivity].
  - exists (es1 ++ [Resume k])%list. eexists. eexists.
    split; [rewrite forallb_app, Hint; reflexivity|]. split.
    + rewrite run_app, Hrun. cbn [run step]. cbn [calls s1]. rewrite Hk, Hst, Hset.
      cbn [lastCall clock s1]. fold last.
      rewrite (proj2 (Z.ltb_ge _ _) Hlate). reflexivity.
    + split; [simpl; apply list_lookup_insert_eq, Hlt | reflexivity].
Qed.
End guard_progress.

(** X15: the closure that [acquireAccountLock] returns can be invoked
    again at any later time without effect: once it has run, whatever
    happens to the guard afterwards, another invocation leaves every table
    as it finds it. *)
Theorem X15_release_twice_is_harmless
    (MIN_REQUEST_INTERVAL_MS : Z) (k : nat) (es : list Guard.event)
    (s s1 s2 : Guard.ledger) :
  Guard.step MIN_REQUEST_INTERVAL_MS (Guard.Release k) s = Some s1 ->
  Guard.run MIN_REQUEST_INTERVAL_MS es s1 = Some s2 ->
  Guard.step MIN_REQUEST_INTERVAL_MS (Guard.Release k) s2 = Some s2.
Proof.
  intros Hrel Hrun.
  assert (H1 : exists c, s1.(Guard.calls) !! k = Some c /\ Guard.released c = true).
  { simpl in Hrel. destruct (Guard.calls s !! k) as [c|] eqn:Hk; [|discriminate].
    pose proof (lookup_lt_Some _ _ _ Hk) as Hlt.
    destruct (Guard.stage c) eqn:Hst; try discriminate; injection Hrel as <-.
    - eexists. simpl. split; [apply list_lookup_insert_eq, Hlt | reflexivity].
    - exists c. split; [exact Hk|]. unfold Guard.released. now rewrite Hst. }
  destruct H1 as (c1 & Hk1 & Hrel1).
  destruct (run_keeps_released _ es s1 s2 k c1 Hrun Hk1 Hrel1) as (c2 & Hk2 & Hrel2).
  simpl. rewrite Hk2. now rewrite (released_not_proceeding c2 Hrel2).
Qed.

Lemma X15_witness :
  exists s1 s2,
    Guard.step 200 (Guard.Release 0) heldLedger = Some s1
    /\ Guard.run 200 [Guard.Acquire; Guard.Resume 1] s1 = Some s2
    /\ Guard.step 200 (Guard.Release 0) s2 = Some s2.
Proof.
  eexists. eexists. split; [reflexivity|]. split; [reflexivity|].
  eapply (X15_release_twice_is_harmless 200 0 [Guard.Acquire; Guard.Resume 1] heldLedger);
    reflexivity.
Defined.

(** X16: the guard does not strand a waiter.  In a ledger that has not
    been purged, a call that waits for its predecessor while every earlier
    call has been released gets the lock through promise reactions, its
    timer and the passing of time alone: no further call or release is
    needed. *)
Theorem X16_waiter_gets_through
    (MIN_REQUEST_INTERVAL_MS t : Z) (es : list Guard.event) (s : Guard.ledger)
    (k : nat) (c : Guard.call) :
  forallb (fun e => negb (Guard.isRemove e)) es = true ->
  Guard.run MIN_REQUEST_INTERVAL_MS es (Guard.initial t) = Some s ->
  s.(Guard.calls) !! k = Some c ->
  c.(Guard.stage) = Guard.AwaitPrevious ->
  (forall j cj, (j < k)%nat -> s.(Guard.calls) !! j = Some cj -> Guard.released cj = true) ->
  exists es' s' c',
    forallb isInternal es' = true
    /\ Guard.run MIN_REQUEST_INTERVAL_MS es' s = Some s'
    /\ s'.(Guard.calls) !! k = Some c' /\ Guard.holding c' = true.
Proof.
  intros Hes Hrun Hk Hst Hrel.
  assert (Hs : Guard.consistent MIN_REQUEST_INTERVAL_MS s)
    by (eapply run_consistent; [exact Hes | apply consistent_initial | exact Hrun]).
  eapply waiter_gets_through; try eassumption.
  apply (Guard.previous_is_predecessor _ _ Hs).
Qed.

Lemma X16_witness :
  exists es' s' c',
    forallb isInternal es' = true
    /\ Guard.run 200 es' queuedLedger = Some s'
    /\ s'.(Guard.calls) !! 1%nat = Some c' /\ Guard.holding c' = true.
Proof.
  apply (X16_waiter_gets_through 200 1000
           [Guard.Acquire; Guard.Resume 0; Guard.Acquire; Guard.Release 0]
           queuedLedger 1%nat
           {| Guard.previous := Some 0%nat; Guard.stage := Guard.AwaitPrevious;
              Guard.started := None |}).
  - reflexivity.
  - reflexivity.
  - reflexivity.
  - reflexivity.
  - intros j cj Hlt Hj. destruct j as [|j]; [|lia].
    simpl in Hj. injection Hj as <-. reflexivity.
Defined.

(** ** The lockout computed from an error *)

Lemma defaultRateLimitMs_positive (reason : RateLimitReason) (failures : Z) :
  0 < defaultRateLimitMs reason failures.
Proof.
  unfold defaultRateLimitMs. destruct reason; try lia.
  repeat match goal with |- context [if ?b then _ else _] => destruct b end; lia.
Qed.

(** The lockout ends [durationMs] after [now], whichever of the five
    stages of [markRateLimitedFromError] decided it. *)
Lemma lockoutFor_until
    (ctx : ErrorContext) (account : Account) (statusCode : Z)
    (reason : RateLimitReason) (modelId : option string) :
  snd (lockoutFor ctx account statusCode reason modelId)
  = ctx.(e_now) + fst (lockoutFor ctx account statusCode reason modelId).
Proof.
  unfold lockoutFor. cbv zeta.
  set (s1 := if RateLimitReason_eqb reason quota_exhausted && given modelId then _ else _).
  assert (H1 : forall u, snd s1 = Some u -> u = e_now ctx + fst s1).
  { subst s1. destruct (RateLimitReason_eqb reason quota_exhausted && given modelId);
      simpl; [|discriminate].
    destruct (e_cachedResetMs ctx) as [c|]; simpl; [|discriminate].
    destruct (c =? 0); simpl; [discriminate|].
    destruct (e_now ctx <? c); simpl; [intros u [= <-]; lia | discriminate]. }
  set (s2 := match e_retryDelayMs ctx with Some _ => _ | None => s1 end).
  assert (H2 : forall u, snd s2 = Some u -> u = e_now ctx + fst s2).
  { subst s2. destruct (e_retryDelayMs ctx) as [r|]; [|exact H1].
    destruct (negb (truthy (snd s1))); [|exact H1]. simpl. now intros u [= <-]. }
  set (s3 := if negb (truthy (snd s2)) && (statusCode =? 429) then _ else s2).
  assert (H3 : forall u, snd s3 = Some u -> u = e_now ctx + fst s3).
  { subst s3. destruct (negb (truthy (snd s2)) && (statusCode =? 429)); [|exact H2].
    simpl. now intros u [= <-]. }
  set (s4 := match snd s3 with Some u => if u =? 0 then _ else _ | None => _ end).
  assert (H4 : snd s4 = e_now ctx + fst s4).
  { subst s4. destruct (snd s3) as [u|] eqn:E; [|reflexivity].
    destruct (u =? 0); [reflexivity|]. simpl. now apply H3. }
  clearbody s4. clear H1 H2 H3.
  destruct (e_maxDurationMs ctx) as [cap|]; [|exact H4].
  destruct (negb (cap =? 0) && negb (RateLimitReason_eqb reason quota_exhausted)
            && (cap <? fst s4)); [reflexivity | exact H4].
Qed.

(** X17: whatever the error, the lockout that [markRateLimitedFromError]
    computes ends exactly [durationMs] after [now].  With a jitter that is
    not negative and a cap that is not negative, the duration is positive;
    and a cap given by the caller is honoured for every reason but quota
    exhaustion. *)
Theorem X17_lockout_duration_consistent
    (ctx : ErrorContext) (account : Account) (statusCode : Z)
    (reason : RateLimitReason) (modelId : option string) :
  snd (lockoutFor ctx account statusCode reason modelId)
  = ctx.(e_now) + fst (lockoutFor ctx account statusCode reason modelId)
  /\ (0 <= ctx.(e_jitter) ->
      (forall cap, ctx.(e_maxDurationMs) = Some cap -> 0 <= cap) ->
      0 < fst (lockoutFor ctx account statusCode reason modelId))
  /\ (forall cap, ctx.(e_maxDurationMs) = Some cap -> cap <> 0 ->
      reason <> quota_exhausted ->
      fst (lockoutFor ctx account statusCode reason modelId) <= cap).
Proof.
  unfold lockoutFor. cbv zeta.
  set (s1 := if RateLimitReason_eqb reason quota_exhausted && given modelId then _ else _).
  assert (H1 : match snd s1 with
               | Some u => u = e_now ctx + fst s1 /\ 0 < fst s1
               | None => True
               end).
  { subst s1. destruct (RateLimitReason_eqb reason quota_exhausted && given modelId);
      simpl; [|exact I].
    destruct (e_cachedResetMs ctx) as [c|]; simpl; [|exact I].
    destruct (c =? 0); simpl; [exact I|].
    destruct (Z.ltb_spec (e_now ctx) c); simpl; [lia | exact I]. }
  set (s2 := match e_retryDelayMs ctx with Some _ => _ | None => s1 end).
  assert (H2 : match snd s2 with
               | Some u => u = e_now ctx + fst s2 /\ 0 < fst s2
               | None => True
               end).
  { subst s2. destruct (e_retryDelayMs ctx) as [r|]; [|exact H1].
    destruct (negb (truthy (snd s1))); [|exact H1]. simpl. lia. }
  set (s3 := if negb (truthy (snd s2)) && (statusCode =? 429) then _ else s2).
  assert (H3 : match snd s3 with
               | Some u => u = e_now ctx + fst s3 /\ (0 <= e_jitter ctx -> 0 < fst s3)
               | None => True
               end).
  { subst s3. destruct (negb (truthy (snd s2)) && (statusCode =? 429)).
    - simpl. split; [reflexivity|]. destruct reason; lia.
    - revert H2. destruct (snd s2) as [u|]; [|intros _; exact I].
      intros [Ha Hb]. split; [exact Ha | intros _; exact Hb]. }
  set (s4 := match snd s3 with Some u => if u =? 0 then _ else _ | None => _ end).
  assert (H4 : snd s4 = e_now ctx + fst s4 /\ (0 <= e_jitter ctx -> 0 < fst s4)).
  { subst s4. destruct (snd s3) as [u|].
    - destruct (u =? 0); simpl.
      + split; [reflexivity | intros _; apply defaultRateLimitMs_positive].
      + exact H3.
    - simpl. split; [reflexivity | intros _; apply defaultRateLimitMs_positive]. }
  clearbody s4. clear H1 H2 H3. destruct H4 as [Hu Hpos].
  destruct (e_maxDurationMs ctx) as [cap|].
  - destruct (Z.eqb_spec cap 0) as [Hz|Hz]; simpl.
    + split; [exact Hu|]. split; [intros Hj _; apply Hpos, Hj|].
      intros cap' [= <-] Hne. contradiction.
    + destruct (RateLimitReason_eqb reason quota_exhausted) eqn:Hr; simpl.
      * split; [exact Hu|]. split; [intros Hj _; apply Hpos, Hj|].
        intros cap' [= <-] _ Hq. destruct reason; try discriminate. contradiction.
      * destruct (Z.ltb_spec cap (fst s4)); simpl.
        -- split; [reflexivity|]. split.
           ++ intros _ Hcap. specialize (Hcap cap eq_refl). lia.
           ++ intros cap' [= <-] _ _. lia.
        -- split; [exact Hu|]. split; [intros Hj _; apply Hpos, Hj|].
           intros cap' [= <-] _ _. lia.
  - split; [exact Hu|]. split; [intros Hj _; apply Hpos, Hj|]. discriminate.
Qed.

Lemma X17_witness :
  snd (lockoutFor (noContext 1000) lockedAccount 503 server_error None)
  = (noContext 1000).(e_now)
    + fst (lockoutFor (noContext 1000) lockedAccount 503 server_error None)
  /\ 0 < fst (lockoutFor (noContext 1000) lockedAccount 503 server_error None).
Proof.
  destruct (X17_lockout_duration_consistent (noContext 1000) lockedAccount 503
              server_error None) as (Hu & Hpos & _).
  split; [exact Hu|]. apply Hpos.
  - simpl. lia.
  - simpl. discriminate.
Defined.

(** X18: an error recorded for a registered account always limits it.
    [markRateLimitedFromError] reports a reason and a duration, and from
    [now] until that duration has passed the account is limited for the
    model the error was recorded for; for an id that is not registered it
    reports nothing and changes nothing. *)
Theorem X18_recorded_error_limits_account
    (ctx : ErrorContext) (accountId : string) (statusCode : Z) (errorText : string)
    (modelId : option string) (m : Manager) :
  (JsMap.get accountId m.(accounts) = None ->
   markRateLimitedFromError ctx accountId statusCode errorText modelId m = (m, None))
  /\ (JsMap.has accountId m.(accounts) = true ->
      exists reason durationMs,
        snd (markRateLimitedFromError ctx accountId statusCode errorText modelId m)
        = Some (reason, durationMs)
        /\ reason = Classifier.parseRateLimitReason statusCode errorText
        /\ forall T, T < ctx.(e_now) + durationMs ->
             isAccountRateLimited T accountId modelId
               (fst (markRateLimitedFromError ctx accountId statusCode errorText modelId m))
             = true).
Proof.
  unfold markRateLimitedFromError, JsMap.has. split.
  - now intros ->.
  - destruct (JsMap.get accountId (accounts m)) as [account|] eqn:Hget; [|discriminate].
    intros _.
    pose proof (lockoutFor_until ctx account statusCode
                  (Classifier.parseRateLimitReason statusCode errorText) modelId)
      as Hu.
    destruct (lockoutFor ctx account statusCode _ modelId) as [durationMs limitedUntil].
    simpl in Hu. subst limitedUntil.
    eexists _, durationMs. split; [reflexivity|]. split; [reflexivity|].
    intros T HT. simpl. unfold isAccountRateLimited, updateAccount. simpl.
    rewrite get_set_eq. unfold recordLimit, categoryScoped.
    destruct (given modelId);
      destruct (negb (bool_decide (getModelCategory modelId = unknownCategory))); simpl;
      rewrite ?lookup_insert_eq; simpl;
      repeat match goal with |- context [?x <? ?y] => destruct (Z.ltb_spec x y) end;
      try reflexivity; try lia.
    all: destruct (rateLimitedUntil account) as [u|];
      repeat match goal with |- context [?x <? ?y] => destruct (Z.ltb_spec x y) end;
      try reflexivity; try lia.
Qed.

Lemma X18_witness :
  exists reason durationMs,
    snd (markRateLimitedFromError (noContext 1000) "a" 503 "overloaded" None oneAccount)
    = Some (reason, durationMs)
    /\ reason = Classifier.parseRateLimitReason 503 "overloaded"
    /\ forall T, T < (noContext 1000).(e_now) + durationMs ->
         isAccountRateLimited T "a" None
           (fst (markRateLimitedFromError (noContext 1000) "a" 503 "overloaded" None
                   oneAccount))
         = true.
Proof.
  destruct (X18_recorded_error_limits_account (noContext 1000) "a" 503 "overloaded"
              None oneAccount) as [_ H].
  apply H. reflexivity.
Defined.

(** ** The quota blacklist *)

Section blacklist_facts.
Import QuotaBlacklist.

Lemma append_cancel (p x y : string) : p ++ x = p ++ y -> x = y.
Proof.
  induction p as [|c p IH]; rewrite ?append_nil, ?append_cons; [trivial|].
  intros [= H]. apply IH, H.
Qed.

Lemma colon_split (a a' m m' : string) :
  hasColon a = false -> hasColon a' = false ->
  a ++ String ":" m = a' ++ String ":" m' -> a = a' /\ m = m'.
Proof.
  revert a'. induction a as [|c a IH]; intros [|c' a'];
    rewrite ?append_nil, ?append_cons; simpl.
  - intros _ _ [= ->]. split; reflexivity.
  - intros _ H [= <- _]. discriminate.
  - intros H _ [= -> _]. discriminate.
  - intros H H' [= -> Heq].
    apply orb_false_iff in H as [_ H]. apply orb_false_iff in H' as [_ H'].
    destruct (IH a' H H' Heq) as [-> ->]. split; reflexivity.
Qed.

Lemma getKey_inj (provider accountId accountId' model model' : string) :
  hasColon accountId = false -> hasColon accountId' = false ->
  getKey provider accountId model = getKey provider accountId' model' ->
  accountId = accountId' /\ model = model'.
Proof.
  unfold getKey. intros H H' Heq. apply append_cancel in Heq.
  change (String ":" (accountId ++ String ":" model)
          = String ":" (accountId' ++ String ":" model')) in Heq.
  injection Heq as Heq. apply colon_split; assumption.
Qed.

Lemma delete_app_absent {V : Type} (pre rest : list (string * V)) (k : string) (v : V) :
  k ∉ JsMap.keys pre ->
  JsMap.delete k (pre ++ (k, v) :: rest) = (pre ++ rest)%list.
Proof.
  induction pre as [|[k0 v0] pre IH]; simpl.
  - intros _. now rewrite String.eqb_refl.
  - rewrite not_elem_of_cons. intros [Hne H].
    destruct (String.eqb_spec k0 k) as [->|_]; [contradiction|]. now rewrite IH.
Qed.

Lemma cleanupLoop_filter (now : Z) (entries pre : list (string * Z)) (cleaned : nat) :
  NoDup (JsMap.keys (pre ++ entries)) ->
  cleanupLoop now entries (pre ++ entries) cleaned
  = ((pre ++ List.filter (fun e => negb (snd e <? now)) entries)%list,
     (cleaned + length (List.filter (fun e => (snd e <? now)%Z) entries))%nat).
Proof.
  revert pre cleaned. induction entries as [|[k e] rest IH]; intros pre cleaned Hnd; simpl.
  - now rewrite Nat.add_0_r.
  - unfold JsMap.keys in Hnd. rewrite map_app in Hnd. simpl in Hnd.
    destruct (e <? now); simpl.
    + rewrite delete_app_absent.
      * rewrite IH.
        -- f_equal. lia.
        -- unfold JsMap.keys. rewrite map_app.
           apply NoDup_app in Hnd as (H1 & H2 & H3). apply NoDup_cons in H3 as [_ H3].
           apply NoDup_app. split; [exact H1|]. split; [|exact H3].
           intros x Hx Hx'. apply (H2 x Hx). now apply list_elem_of_further.
      * apply NoDup_app in Hnd as (_ & H2 & _). intros Hin.
        apply (H2 k Hin). apply list_elem_of_here.
    + specialize (IH (pre ++ [(k, e)])%list cleaned).
      rewrite <- !app_assoc in IH. simpl in IH. apply IH.
      unfold JsMap.keys. rewrite map_app. exact Hnd.
Qed.

Lemma get_filter_values (now : Z) (l : list (string * Z)) (k : string) :
  NoDup (JsMap.keys l) ->
  JsMap.get k (List.filter (fun e => negb (snd e <? now)) l)
  = match JsMap.get k l with
    | Some e => if e <? now then None else Some e
    | None => None
    end.
Proof.
  induction l as [|[k0 e0] l IH]; simpl; [reflexivity|].
  rewrite NoDup_cons. intros [Hk0 Hnd].
  destruct (String.eqb_spec k0 k) as [->|Hne].
  - destruct (e0 <? now); simpl.
    + rewrite IH by exact Hnd.
      apply get_None_keys in Hk0. now rewrite Hk0.
    + now rewrite String.eqb_refl.
  - destruct (e0 <? now); simpl; [apply IH, Hnd|].
    destruct (String.eqb_spec k0 k); [contradiction | apply IH, Hnd].
Qed.

Lemma isQuotaBlacklisted_answer (T : Z) (provider accountId model : string)
    (quotaBlacklist : list (string * Z)) :
  snd (isQuotaBlacklisted T provider accountId model quotaBlacklist)
  = match JsMap.get (getKey provider accountId model) quotaBlacklist with
    | Some expiry => negb (expiry =? 0) && negb (expiry <? T)
    | None => false
    end.
Proof.
  unfold isQuotaBlacklisted. cbv zeta.
  destruct (JsMap.get _ quotaBlacklist) as [e|]; [|reflexivity].
  destruct (e =? 0); [reflexivity|]. now destruct (e <? T).
Qed.
End blacklist_facts.

(** X19: an account blacklisted for a model is reported blacklisted, and
    the map left alone, at every time up to the expiry; a check made after
    the expiry answers no and drops the entry.  (An expiry of exactly 0
    would read as no entry.) *)
Theorem X19_blacklist_entry_lasts_until_expiry
    (now T : Z) (provider accountId model : string) (durationMs : option Z)
    (quotaBlacklist : list (string * Z)) :
  let expiry := now + match durationMs with
                      | Some d => d
                      | None => QuotaBlacklist.QUOTA_BLACKLIST_DURATION
                      end in
  let added := QuotaBlacklist.addToQuotaBlacklist now provider accountId model durationMs
                 quotaBlacklist in
  expiry <> 0 ->
  NoDup (JsMap.keys quotaBlacklist) ->
  (T <= expiry ->
   QuotaBlacklist.isQuotaBlacklisted T provider accountId model added = (added, true))
  /\ (expiry < T ->
      snd (QuotaBlacklist.isQuotaBlacklisted T provider accountId model added) = false
      /\ JsMap.get (QuotaBlacklist.getKey provider accountId model)
           (fst (QuotaBlacklist.isQuotaBlacklisted T provider accountId model added))
         = None).
Proof.
  intros expiry added Hne Hnd.
  unfold QuotaBlacklist.isQuotaBlacklisted. subst added.
  unfold QuotaBlacklist.addToQuotaBlacklist. cbv zeta. rewrite get_set_eq.
  fold expiry. destruct (Z.eqb_spec expiry 0) as [|_]; [contradiction|].
  split; intros HT.
  - destruct (Z.ltb_spec expiry T); [lia | reflexivity].
  - destruct (Z.ltb_spec expiry T); [|lia]. simpl. split; [reflexivity|].
    apply get_delete_eq, keys_set_NoDup, Hnd.
Qed.

Lemma X19_witness :
  (1500 <= 1000 + 5 * 60 * 1000 ->
   QuotaBlacklist.isQuotaBlacklisted 1500 "antigravity" "a" "gemini-3-pro"
     (QuotaBlacklist.addToQuotaBlacklist 1000 "antigravity" "a" "gemini-3-pro" None [])
   = (QuotaBlacklist.addToQuotaBlacklist 1000 "antigravity" "a" "gemini-3-pro" None [],
      true))
  /\ (1000 + 5 * 60 * 1000 < 1500 ->
      snd (QuotaBlacklist.isQuotaBlacklisted 1500 "antigravity" "a" "gemini-3-pro"
             (QuotaBlacklist.addToQuotaBlacklist 1000 "antigravity" "a" "gemini-3-pro"
                None [])) = false
      /\ JsMap.get (QuotaBlacklist.getKey "antigravity" "a" "gemini-3-pro")
           (fst (QuotaBlacklist.isQuotaBlacklisted 1500 "antigravity" "a" "gemini-3-pro"
                   (QuotaBlacklist.addToQuotaBlacklist 1000 "antigravity" "a"
                      "gemini-3-pro" None [])))
         = None).
Proof.
  apply (X19_blacklist_entry_lasts_until_expiry 1000 1500 "antigravity" "a"
           "gemini-3-pro" None []).
  - vm_compute. discriminate.
  - simpl. apply NoDup_nil_2.
Defined.

(** X20: entries of the blacklist do not interfere, as long as account ids
    hold no colon: blacklisting one account and model, or taking it off
    the list, or checking it, does not change the answer for another
    account or model of the same provider. *)
Theorem X20_blacklist_entries_independent
    (provider accountId model accountId' model' : string)
    (quotaBlacklist : list (string * Z)) :
  hasColon accountId = false -> hasColon accountId' = false ->
  (accountId, model) <> (accountId', model') ->
  forall (T now : Z) (durationMs : option Z),
    snd (QuotaBlacklist.isQuotaBlacklisted T provider accountId' model'
           (QuotaBlacklist.addToQuotaBlacklist now provider accountId model durationMs
              quotaBlacklist))
    = snd (QuotaBlacklist.isQuotaBlacklisted T provider accountId' model' quotaBlacklist)
    /\ snd (QuotaBlacklist.isQuotaBlacklisted T provider accountId' model'
              (QuotaBlacklist.removeFromQuotaBlacklist provider accountId model
                 quotaBlacklist))
       = snd (QuotaBlacklist.isQuotaBlacklisted T provider accountId' model'
                quotaBlacklist)
    /\ snd (QuotaBlacklist.isQuotaBlacklisted T provider accountId' model'
              (fst (QuotaBlacklist.isQuotaBlacklisted now provider accountId model
                      quotaBlacklist)))
       = snd (QuotaBlacklist.isQuotaBlacklisted T provider accountId' model'
                quotaBlacklist).
Proof.
  intros Hc Hc' Hne T now durationMs.
  assert (Hkey : QuotaBlacklist.getKey provider accountId model
                 <> QuotaBlacklist.getKey provider accountId' model').
  { intros Heq. apply getKey_inj in Heq as [-> ->]; [|assumption..]. now apply Hne. }
  assert (Hkey' : QuotaBlacklist.getKey provider accountId' model'
                  <> QuotaBlacklist.getKey provider accountId model) by congruence.
  rewrite !isQuotaBlacklisted_answer.
  unfold QuotaBlacklist.addToQuotaBlacklist, QuotaBlacklist.removeFromQuotaBlacklist.
  cbv zeta. rewrite get_set_ne by exact Hkey. rewrite get_delete_ne by exact Hkey'.
  split; [reflexivity|]. split; [reflexivity|].
  unfold QuotaBlacklist.isQuotaBlacklisted. cbv zeta.
  destruct (JsMap.get (QuotaBlacklist.getKey provider accountId model) quotaBlacklist)
    as [e|]; [|reflexivity].
  destruct (e =? 0); [reflexivity|]. destruct (e <? now); [|reflexivity].
  simpl. rewrite get_delete_ne by exact Hkey'. reflexivity.
Qed.

Lemma X20_witness :
  snd (QuotaBlacklist.isQuotaBlacklisted 1500 "antigravity" "b" "gemini-3-pro"
         (QuotaBlacklist.addToQuotaBlacklist 1000 "antigravity" "a" "gemini-3-pro"
            None staleBlacklist))
  = snd (QuotaBlacklist.isQuotaBlacklisted 1500 "antigravity" "b" "gemini-3-pro"
           staleBlacklist)
  /\ snd (QuotaBlacklist.isQuotaBlacklisted 1500 "antigravity" "b" "gemini-3-pro"
            (QuotaBlacklist.removeFromQuotaBlacklist "antigravity" "a" "gemini-3-pro"
               staleBlacklist))
     = snd (QuotaBlacklist.isQuotaBlacklisted 1500 "antigravity" "b" "gemini-3-pro"
              staleBlacklist)
  /\ snd (QuotaBlacklist.isQuotaBlacklisted 1500 "antigravity" "b" "gemini-3-pro"
            (fst (QuotaBlacklist.isQuotaBlacklisted 1000 "antigravity" "a" "gemini-3-pro"
                    staleBlacklist)))
     = snd (QuotaBlacklist.isQuotaBlacklisted 1500 "antigravity" "b" "gemini-3-pro"
              staleBlacklist).
Proof.
  apply (X20_blacklist_entries_independent "antigravity" "a" "gemini-3-pro" "b"
           "gemini-3-pro" staleBlacklist).
  - reflexivity.
  - reflexivity.
  - discriminate.
Defined.

(** X21: [cleanupExpiredEntries] is housekeeping only.  It removes the
    entries whose expiry has passed and no other, it reports how many it
    removed, and no check made at that time or later answers differently
    for it. *)
Theorem X21_cleanup_is_housekeeping (now : Z) (quotaBlacklist : list (string * Z)) :
  NoDup (JsMap.keys quotaBlacklist) ->
  fst (QuotaBlacklist.cleanupExpiredEntries now quotaBlacklist)
  = List.filter (fun e => negb (snd e <? now)) quotaBlacklist
  /\ (snd (QuotaBlacklist.cleanupExpiredEntries now quotaBlacklist)
      + QuotaBlacklist.getBlacklistSize
          (fst (QuotaBlacklist.cleanupExpiredEntries now quotaBlacklist))
      = QuotaBlacklist.getBlacklistSize quotaBlacklist)%nat
  /\ forall (T : Z) (provider accountId model : string),
       now <= T ->
       snd (QuotaBlacklist.isQuotaBlacklisted T provider accountId model
              (fst (QuotaBlacklist.cleanupExpiredEntries now quotaBlacklist)))
       = snd (QuotaBlacklist.isQuotaBlacklisted T provider accountId model quotaBlacklist).
Proof.
  intros Hnd. unfold QuotaBlacklist.cleanupExpiredEntries.
  pose proof (cleanupLoop_filter now quotaBlacklist [] 0 Hnd) as Hloop.
  simpl in Hloop. rewrite Hloop. simpl. split; [reflexivity|]. split.
  - unfold QuotaBlacklist.getBlacklistSize, JsMap.size.
    clear. induction quotaBlacklist as [|[k e] l IH]; simpl; [reflexivity|].
    destruct (e <? now); simpl; lia.
  - intros T provider accountId model HT.
    rewrite !isQuotaBlacklisted_answer, get_filter_values by exact Hnd.
    destruct (JsMap.get _ quotaBlacklist) as [e|]; [|reflexivity].
    destruct (Z.ltb_spec e now); [|reflexivity].
    destruct (Z.ltb_spec e T); [|lia]. now rewrite andb_false_r.
Qed.

Lemma X21_witness :
  fst (QuotaBlacklist.cleanupExpiredEntries 2000 staleBlacklist)
  = List.filter (fun e => negb (snd e <? 2000)) staleBlacklist
  /\ (snd (QuotaBlacklist.cleanupExpiredEntries 2000 staleBlacklist)
      + QuotaBlacklist.getBlacklistSize
          (fst (QuotaBlacklist.cleanupExpiredEntries 2000 staleBlacklist))
      = QuotaBlacklist.getBlacklistSize staleBlacklist)%nat
  /\ forall (T : Z) (provider accountId model : string),
       2000 <= T ->
       snd (QuotaBlacklist.isQuotaBlacklisted T provider accountId model
              (fst (QuotaBlacklist.cleanupExpiredEntries 2000 staleBlacklist)))
       = snd (QuotaBlacklist.isQuotaBlacklisted T provider accountId model
                staleBlacklist).
Proof.
  apply (X21_cleanup_is_housekeeping 2000 staleBlacklist).
  simpl. apply NoDup_singleton.
Defined.

(** ** The log capture buffer *)

Lemma MAX_LINES_floor (envLines : option Z) : 100 <= LogCapture.MAX_LINES envLines.
Proof. unfold LogCapture.MAX_LINES. lia. Qed.

Lemma appendLog_tidy (envLines : option Z) (lvl : LogCapture.LogLevel)
    (text stamp : string) (st : LogCapture.state) :
  LogCapture.tidy envLines st ->
  LogCapture.tidy envLines (fst (LogCapture.appendLog envLines lvl text stamp st)).
Proof.
  intros Hst. unfold LogCapture.appendLog.
  destruct (LogCapture.captureEnabled st) eqn:Hon; simpl; [|exact Hst].
  destruct Hst as [Hb Hc Hp Ho].
  pose proof (MAX_LINES_floor envLines) as Hfloor.
  rewrite length_app. simpl.
  destruct (Z.ltb_spec (LogCapture.MAX_LINES envLines)
              (Z.of_nat (length (LogCapture.buffer st) + 1))) as [Hfull|Hroom].
  - split; simpl.
    + rewrite length_drop, length_app. simpl. lia.
    + intros i entry. rewrite lookup_drop, length_drop, length_app. simpl.
      intros Hi. apply lookup_app_Some in Hi as [Hi | [Hge Hi]].
      * rewrite (Hc _ _ Hi). lia.
      * apply list_lookup_singleton_Some in Hi as [Hi <-]. simpl. lia.
    + rewrite length_drop, length_app. simpl. lia.
    + discriminate.
  - split; simpl.
    + rewrite length_app. simpl. lia.
    + intros i entry. rewrite length_app. simpl.
      intros Hi. apply lookup_app_Some in Hi as [Hi | [Hge Hi]].
      * rewrite (Hc _ _ Hi). lia.
      * apply list_lookup_singleton_Some in Hi as [Hi <-]. simpl. lia.
    + rewrite length_app. simpl. lia.
    + discriminate.
Qed.

Lemma perform_tidy (envLines : option Z) (a : LogCapture.action) (st : LogCapture.state) :
  LogCapture.tidy envLines st -> LogCapture.tidy envLines (LogCapture.perform envLines a st).
Proof.
  destruct a as [lvl text stamp | on]; simpl.
  - apply appendLog_tidy.
  - intros [Hb Hc Hp Ho]. destruct on.
    + split; simpl; [exact Hb | exact Hc | exact Hp | discriminate].
    + split; simpl.
      * pose proof (MAX_LINES_floor envLines). lia.
      * intros i entry Hi. rewrite lookup_nil in Hi. discriminate.
      * lia.
      * reflexivity.
Qed.

Lemma initial_tidy (envLines : option Z) : LogCapture.tidy envLines LogCapture.initial.
Proof.
  split; simpl.
  - pose proof (MAX_LINES_floor envLines). lia.
  - intros i entry Hi. rewrite lookup_nil in Hi. discriminate.
  - lia.
  - reflexivity.
Qed.

Lemma performAll_tidy (envLines : option Z) (actions : list LogCapture.action)
    (st : LogCapture.state) :
  LogCapture.tidy envLines st ->
  LogCapture.tidy envLines (LogCapture.performAll envLines actions st).
Proof.
  revert st. induction actions as [|a actions IH]; intros st Hst; simpl; [exact Hst|].
  apply IH, perform_tidy, Hst.
Qed.

(** X22: whatever is logged and however capture is switched on and off,
    the buffer never holds more than [MAX_LINES] entries (itself never
    below 100), its entries are numbered consecutively, from 1 or more up
    to the last id given out, and it is empty while capture is off. *)
Theorem X22_log_buffer_bounded_and_consecutive
    (envLines : option Z) (actions : list LogCapture.action) :
  100 <= LogCapture.MAX_LINES envLines
  /\ LogCapture.tidy envLines (LogCapture.performAll envLines actions LogCapture.initial).
Proof.
  split; [apply MAX_LINES_floor | apply performAll_tidy, initial_tidy].
Qed.

Lemma filter_after_drop (since base : Z) (l : list LogCapture.LogEntry) :
  (forall i entry, l !! i = Some entry -> entry.(LogCapture.id) = base + Z.of_nat i) ->
  List.filter (fun entry => since <? entry.(LogCapture.id)) l
  = drop (Z.to_nat (since + 1 - base)) l.
Proof.
  revert base. induction l as [|e l IH]; intros base Hl; simpl.
  - now rewrite drop_nil.
  - pose proof (Hl 0%nat e eq_refl) as He. simpl in He.
    assert (Hl' : forall i entry, l !! i = Some entry ->
                                  entry.(LogCapture.id) = (base + 1) + Z.of_nat i).
    { intros i entry Hi. rewrite (Hl (S i) entry Hi). lia. }
    rewrite (IH (base + 1) Hl').
    destruct (Z.ltb_spec since (LogCapture.id e)).
    + replace (Z.to_nat (since + 1 - base)) with 0%nat by lia.
      replace (Z.to_nat (since + 1 - (base + 1))) with 0%nat by lia. reflexivity.
    + replace (Z.to_nat (since + 1 - base))
        with (S (Z.to_nat (since + 1 - (base + 1)))) by lia.
      reflexivity.
Qed.

Lemma last_lookup_length {A : Type} (l : list A) :
  last l = l !! (length l - 1)%nat.
Proof.
  induction l as [|x l IH]; [reflexivity|].
  destruct l as [|y l]; [reflexivity|].
  change (last (x :: y :: l)) with (last (y :: l)). rewrite IH. simpl.
  now rewrite Nat.sub_0_r.
Qed.

(** [lastId] is the last id given out, or 0 for an empty buffer. *)
Lemma snapshot_lastId (envLines : option Z) (limit sinceId : option Z)
    (st : LogCapture.state) :
  LogCapture.tidy envLines st ->
  st.(LogCapture.captureEnabled) = true ->
  (LogCapture.getLogSnapshot envLines limit sinceId st).(LogCapture.lastId)
  = (if decide (st.(LogCapture.buffer) = []) then 0 else st.(LogCapture.nextId) - 1).
Proof.
  intros [Hb Hc Hp Ho] Hon.
  unfold LogCapture.getLogSnapshot. rewrite Hon. simpl.
  rewrite last_lookup_length.
  destruct (LogCapture.buffer st) as [|e l] eqn:Hbuf.
  - destruct (decide _) as [_|Hd]; [reflexivity | contradiction].
  - destruct (decide _) as [Hd|_]; [discriminate|].
    replace (length (e :: l) - 1)%nat with (length l) by (simpl; lia).
    destruct ((e :: l) !! length l) as [entry|] eqn:Hlast.
    + rewrite (Hc _ _ Hlast). simpl length. lia.
    + apply lookup_ge_None in Hlast. simpl in Hlast. lia.
Qed.

(** X23: while capture is on, a snapshot is a tail of the buffer: the
    newest entries, in order and without gaps.  With a positive [sinceId]
    it is every buffered entry with a larger id and no other, however many
    they are: the limit is not applied.  Otherwise it is the last [limit]
    entries, with [limit] defaulting to 500 and clamped between 1 and
    [MAX_LINES].  [lastId] is the last id given out when the buffer is not
    empty, and 0 when it is. *)
Theorem X23_snapshot_is_newest_entries
    (envLines : option Z) (limit sinceId : option Z) (st : LogCapture.state) :
  LogCapture.tidy envLines st ->
  st.(LogCapture.captureEnabled) = true ->
  let shot := LogCapture.getLogSnapshot envLines limit sinceId st in
  let since := match sinceId with Some s => s | None => 0 end in
  let wanted := match limit with Some l => if l =? 0 then 500 else l | None => 500 end in
  (exists older,
      st.(LogCapture.buffer) = (older ++ shot.(LogCapture.entries))%list
      /\ (0 < since ->
          Forall (fun entry => entry.(LogCapture.id) <= since) older
          /\ Forall (fun entry => since < entry.(LogCapture.id)) shot.(LogCapture.entries)))
  /\ (since <= 0 ->
      Z.of_nat (length shot.(LogCapture.entries))
      = Z.min (Z.of_nat (length st.(LogCapture.buffer)))
          (Z.min (Z.max wanted 1) (LogCapture.MAX_LINES envLines)))
  /\ shot.(LogCapture.lastId)
     = (if decide (st.(LogCapture.buffer) = []) then 0 else st.(LogCapture.nextId) - 1).
Proof.
  intros Htidy Hon shot since wanted. subst shot.
  split; [|split]; [| |apply (snapshot_lastId envLines limit sinceId st Htidy Hon)].
  all: destruct Htidy as [Hb Hc Hp Ho].
  all: unfold LogCapture.getLogSnapshot; rewrite Hon; simpl; fold since wanted.
  all: pose proof (MAX_LINES_floor envLines) as Hfloor.
  all: set (base := LogCapture.nextId st - Z.of_nat (length (LogCapture.buffer st))) in *.
  - destruct (Z.ltb_spec 0 since) as [Hpos|Hnon].
    + rewrite (filter_after_drop since base) by exact Hc.
      exists (take (Z.to_nat (since + 1 - base)) (LogCapture.buffer st)).
      split; [now rewrite take_drop|]. intros _. split.
      * apply Forall_lookup. intros i entry Hi.
        apply lookup_take_Some in Hi as [Hi Hlt]. rewrite (Hc _ _ Hi). lia.
      * apply Forall_lookup. intros i entry Hi.
        rewrite lookup_drop in Hi. rewrite (Hc _ _ Hi). lia.
    + eexists. split; [now rewrite take_drop|]. lia.
  - intros Hnon. destruct (Z.ltb_spec 0 since); [lia|].
    rewrite length_drop. lia.
Qed.

Lemma X23_witness :
  let st := LogCapture.performAll None
              [LogCapture.SetEnabled true;
               LogCapture.Append LogCapture.info "one" "t1";
               LogCapture.Append LogCapture.warn "two" "t2"] LogCapture.initial in
  let shot := LogCapture.getLogSnapshot None (Some 50) (Some 1) st in
  (exists older,
      st.(LogCapture.buffer) = (older ++ shot.(LogCapture.entries))%list
      /\ (0 < 1 ->
          Forall (fun entry => entry.(LogCapture.id) <= 1) older
          /\ Forall (fun entry => 1 < entry.(LogCapture.id)) shot.(LogCapture.entries)))
  /\ (1 <= 0 ->
      Z.of_nat (length shot.(LogCapture.entries))
      = Z.min (Z.of_nat (length st.(LogCapture.buffer)))
          (Z.min (Z.max 50 1) (LogCapture.MAX_LINES None)))
  /\ shot.(LogCapture.lastId)
     = (if decide (st.(LogCapture.buffer) = []) then 0 else st.(LogCapture.nextId) - 1).
Proof.
  apply (X23_snapshot_is_newest_entries None (Some 50) (Some 1)).
  - apply performAll_tidy, initial_tidy.
  - reflexivity.
Defined.

Lemma appends_buffer (envLines : option Z) (lines : list (LogCapture.LogLevel * string * string))
    (st : LogCapture.state) :
  st.(LogCapture.captureEnabled) = true ->
  Z.of_nat (length st.(LogCapture.buffer)) <= LogCapture.MAX_LINES envLines ->
  let st' := LogCapture.performAll envLines (LogCapture.appends lines) st in
  st'.(LogCapture.captureEnabled) = true
  /\ st'.(LogCapture.nextId) = st.(LogCapture.nextId) + Z.of_nat (length lines)
  /\ st'.(LogCapture.buffer)
     = drop (length st.(LogCapture.buffer) + length lines
             - Z.to_nat (LogCapture.MAX_LINES envLines))
         (st.(LogCapture.buffer) ++ LogCapture.stamped st.(LogCapture.nextId) lines).
Proof.
  pose proof (MAX_LINES_floor envLines) as Hfloor.
  revert st. induction lines as [|l lines IH]; intros st Hon Hlen; cbv zeta.
  - simpl. split; [exact Hon|]. split; [lia|].
    rewrite app_nil_r. replace (_ - _)%nat with 0%nat by lia. reflexivity.
  - simpl. unfold LogCapture.appendLog at 1 2 3. rewrite Hon. simpl.
    set (entry := {| LogCapture.id := LogCapture.nextId st; LogCapture.ts := snd l;
                     LogCapture.level := fst (fst l); LogCapture.line := snd (fst l) |}).
    set (st1 := {| LogCapture.buffer := _; LogCapture.nextId := _;
                   LogCapture.captureEnabled := _ |}).
    assert (Hbuf1 : LogCapture.buffer st1
                    = drop (length (LogCapture.buffer st) + 1
                            - Z.to_nat (LogCapture.MAX_LINES envLines))
                        (LogCapture.buffer st ++ [entry])).
    { subst st1. simpl. rewrite length_app. simpl.
      destruct (Z.ltb_spec (LogCapture.MAX_LINES envLines)
                  (Z.of_nat (length (LogCapture.buffer st) + 1))).
      - f_equal. lia.
      - replace (_ - _)%nat with 0%nat by lia. reflexivity. }
    assert (Hlen1 : Z.of_nat (length (LogCapture.buffer st1))
                    <= LogCapture.MAX_LINES envLines).
    { rewrite Hbuf1, length_drop, length_app. simpl. lia. }
    destruct (IH st1 eq_refl Hlen1) as (H1 & H2 & H3).
    split; [exact H1|]. split; [rewrite H2; subst st1; simpl; lia|].
    rewrite H3. change (LogCapture.nextId st1) with (LogCapture.nextId st + 1).
    rewrite Hbuf1, length_drop, length_app. simpl length.
    set (b := LogCapture.buffer st) in *.
    set (new := LogCapture.stamped (LogCapture.nextId st + 1) lines).
    set (M := Z.to_nat (LogCapture.MAX_LINES envLines)).
    assert (HM : (length b <= M)%nat) by lia.
    replace (b ++ entry :: new)%list with ((b ++ [entry]) ++ new)%list
      by (now rewrite <- app_assoc).
    rewrite <- (drop_app_le (b ++ [entry]) new (length b + 1 - M))
      by (rewrite length_app; simpl; lia).
    rewrite drop_drop. f_equal. lia.
Qed.

Lemma stamped_ids (n : Z) (lines : list (LogCapture.LogLevel * string * string)) :
  Forall (fun entry => n <= entry.(LogCapture.id)) (LogCapture.stamped n lines).
Proof.
  revert n. induction lines as [|l lines IH]; intros n; simpl; constructor.
  - simpl. lia.
  - eapply Forall_impl; [apply IH|]. simpl. intros entry H. lia.
Qed.

Lemma filter_all {A : Type} (f : A -> bool) (l : list A) :
  Forall (fun x => f x = true) l -> List.filter f l = l.
Proof. induction 1 as [|x l Hx _ IH]; simpl; [|rewrite Hx, IH]; reflexivity. Qed.

Lemma filter_none {A : Type} (f : A -> bool) (l : list A) :
  Forall (fun x => f x = false) l -> List.filter f l = [].
Proof. induction 1 as [|x l Hx _ IH]; simpl; [|rewrite Hx, IH]; reflexivity. Qed.

(** X24: polling with the last id seen loses nothing and repeats
    nothing.  After a snapshot of a buffer that is not empty, if at most
    [MAX_LINES] lines are logged, the snapshot taken with [sinceId] set to
    the earlier [lastId] is exactly those lines, in order, numbered from
    the earlier [nextId] on. *)
Theorem X24_polling_returns_exactly_new_lines
    (envLines : option Z) (limit0 since0 limit : option Z)
    (lines : list (LogCapture.LogLevel * string * string)) (st : LogCapture.state) :
  LogCapture.tidy envLines st ->
  st.(LogCapture.captureEnabled) = true ->
  st.(LogCapture.buffer) <> [] ->
  Z.of_nat (length lines) <= LogCapture.MAX_LINES envLines ->
  let seen := (LogCapture.getLogSnapshot envLines limit0 since0 st).(LogCapture.lastId) in
  let st' := LogCapture.performAll envLines (LogCapture.appends lines) st in
  (LogCapture.getLogSnapshot envLines limit (Some seen) st').(LogCapture.entries)
  = LogCapture.stamped st.(LogCapture.nextId) lines.
Proof.
  intros Htidy Hon Hne Hfew seen st'.
  assert (Hseen : seen = LogCapture.nextId st - 1).
  { subst seen. rewrite (snapshot_lastId envLines limit0 since0 st Htidy Hon).
    now rewrite decide_False. }
  destruct Htidy as [Hb Hc Hp Ho].
  destruct (appends_buffer envLines lines st Hon Hb) as (Hon' & Hnext & Hbuf).
  fold st' in Hon', Hnext, Hbuf.
  unfold LogCapture.getLogSnapshot. rewrite Hon'. simpl.
  assert (Hpos : 0 < seen).
  { rewrite Hseen. destruct (LogCapture.buffer st); [contradiction|]. simpl in Hp. lia. }
  rewrite (proj2 (Z.ltb_lt 0 seen) Hpos). rewrite Hbuf.
  pose proof (MAX_LINES_floor envLines) as Hfloor.
  rewrite drop_app_le by lia.
  rewrite List.filter_app, filter_none, filter_all; [reflexivity | |].
  - eapply Forall_impl; [apply stamped_ids|]. simpl. intros entry H.
    apply Z.ltb_lt. lia.
  - apply Forall_lookup. intros i entry Hi. rewrite lookup_drop in Hi.
    pose proof (lookup_lt_Some _ _ _ Hi) as Hlt.
    rewrite (Hc _ _ Hi). apply Z.ltb_ge. lia.
Qed.

Lemma X24_witness :
  let st := LogCapture.performAll None
              [LogCapture.SetEnabled true;
               LogCapture.Append LogCapture.info "one" "t1"] LogCapture.initial in
  let seen := (LogCapture.getLogSnapshot None None None st).(LogCapture.lastId) in
  let st' := LogCapture.performAll None
               (LogCapture.appends [(LogCapture.warn, "two", "t2")]) st in
  (LogCapture.getLogSnapshot None (Some 1) (Some seen) st').(LogCapture.entries)
  = LogCapture.stamped st.(LogCapture.nextId) [(LogCapture.warn, "two", "t2")].
Proof.
  apply (X24_polling_returns_exactly_new_lines None None None (Some 1)
           [(LogCapture.warn, "two", "t2")]).
  - apply performAll_tidy, initial_tidy.
  - reflexivity.
  - discriminate.
  - vm_compute. discriminate.
Defined.

(** ** A usable account is found *)

Lemma hasModelQuota_update (env : Env) (modelId : option string) (m : Manager)
    (key k : string) (a a' : Account) :
  JsMap.get key m.(accounts) = Some a ->
  hasModelQuota env modelId (updateAccount key a' m) k = hasModelQuota env modelId m k.
Proof.
  intros Hget. unfold hasModelQuota, updateAccount.
  destruct modelId as [[|c r]|]; try reflexivity. simpl.
  destruct (String.eqb_spec key k) as [->|Hne].
  - now rewrite get_set_eq, Hget.
  - now rewrite get_set_ne by exact Hne.
Qed.

Lemma scanQueue_finds (env : Env) (modelId : option string) (idle : bool)
    (queue : list string) (m : Manager) (k : string) (a : Account) :
  k ∈ queue ->
  JsMap.get k m.(accounts) = Some a ->
  env.(isAccountDisabled) k = false ->
  lockedOut env.(now) a = false ->
  isAccountInFlight k m = false ->
  hasModelQuota env modelId m k = true ->
  nearExpiry env.(now) a = false ->
  exists m' cred, scanQueue env modelId idle queue m = (m', Some cred).
Proof.
  intros Hin. revert m. induction queue as [|accountId rest IH]; intros m; [inversion Hin|].
  intros Hget Hdis Hlock Hfly Hquota Hnear. cbn [scanQueue].
  destruct (String.eqb_spec accountId k) as [->|Hne].
  - rewrite Hget, Hdis, Hlock. unfold isAccountInFlight in Hfly. rewrite Hfly, andb_false_r.
    rewrite Hquota. cbn [negb]. rewrite Hnear.
    unfold hand. destruct (ensureProjectId env a) as [project a']. eauto.
  - apply elem_of_cons in Hin as [->|Hin]; [contradiction|].
    specialize (IH Hin).
    destruct (JsMap.get accountId (accounts m)) as [account|] eqn:Hacc; [|now apply IH].
    destruct (isAccountDisabled env accountId); [now apply IH|].
    destruct (lockedOut (now env) account); [now apply IH|].
    destruct (idle && bool_decide (accountId ∈ inFlightAccounts m)); [now apply IH|].
    destruct (hasModelQuota env modelId m accountId); cbn [negb]; [|now apply IH].
    destruct (nearExpiry (now env) account).
    + destruct (refreshAccessToken env (refreshToken account)) as [[token expiresIn]|].
      * unfold hand. destruct (ensureProjectId env _) as [project a']. eauto.
      * apply IH; try assumption.
        -- simpl. now rewrite get_set_ne by exact Hne.
        -- now rewrite (hasModelQuota_update env modelId m accountId k account).
    + unfold hand. destruct (ensureProjectId env account) as [project a']. eauto.
Qed.

(** X25: a selection does not come back empty-handed while a plainly
    usable account is queued.  On a loaded manager, if some queued account
    is registered, not disabled, not locked out, not serving a request,
    passes the quota gate and has a token that is not about to expire,
    then [getNextAvailableAccount] hands out a credential, with or without
    forced rotation. *)
Theorem X25_selection_finds_usable_account
    (env : Env) (forceRotate : bool) (modelId : option string)
    (m : Manager) (k : string) (a : Account) :
  m.(loaded) = true ->
  k ∈ m.(accountQueue) ->
  JsMap.get k m.(accounts) = Some a ->
  env.(isAccountDisabled) k = false ->
  lockedOut env.(now) a = false ->
  isAccountInFlight k m = false ->
  hasModelQuota env modelId m k = true ->
  nearExpiry env.(now) a = false ->
  exists m' cred, getNextAvailableAccount env forceRotate modelId m = (m', Some cred).
Proof.
  intros Hloaded Hin Hget Hdis Hlock Hfly Hquota Hnear.
  assert (Hq : exists x q, m.(accountQueue) = x :: q).
  { destruct (accountQueue m) as [|x q]; [inversion Hin | eauto]. }
  destruct Hq as (x & q & Hq).
  assert (Hsz : (JsMap.size (accounts m) =? 0)%nat = false).
  { destruct (accounts m); [discriminate | reflexivity]. }
  unfold getNextAvailableAccount, ensureLoaded. cbv zeta. rewrite Hloaded, Hsz.
  rewrite (ensureQueueInitialized_nonempty m x q Hq). rewrite Hsz.
  assert (Hscan : exists m' cred,
             scanQueue env modelId (hasIdleAccount (now env) m) (accountQueue m) m
             = (m', Some cred))
    by (eapply scanQueue_finds; eassumption).
  destruct forceRotate; simpl; [exact Hscan|].
  destruct (stickyHead env modelId (hasIdleAccount (now env) m) m) as [[m0 r]|] eqn:Hs;
    [|exact Hscan].
  destruct (stickyHead_usable _ _ _ _ _ _ Hs) as (key & a' & cred & -> & _).
  eauto.
Qed.

Lemma X25_witness :
  exists m' cred,
    getNextAvailableAccount (quietEnv 1000) true None oneAccount = (m', Some cred).
Proof.
  apply (X25_selection_finds_usable_account (quietEnv 1000) true None oneAccount "a"
           (fromPersisted (sampleRecord "a"))).
  - reflexivity.
  - apply list_elem_of_here.
  - reflexivity.
  - reflexivity.
  - reflexivity.
  - reflexivity.
  - reflexivity.
  - reflexivity.
Defined.

(** ** Disabling and enabling accounts *)

Lemma accountKey_inj (provider accountId accountId' : string) :
  Routing.accountKey provider accountId = Routing.accountKey provider accountId' ->
  accountId = accountId'.
Proof.
  unfold Routing.accountKey. intros H. apply append_cancel in H.
  apply (append_cancel ":") in H. exact H.
Qed.

Lemma toggle_other (provider accountId other : string) (disabledAccounts : list string) :
  other <> accountId ->
  Routing.isAccountDisabled
    (snd (Routing.toggleAccountDisabled provider accountId disabledAccounts)) provider other
  = Routing.isAccountDisabled disabledAccounts provider other.
Proof.
  intros Hne.
  assert (Hkey : Routing.accountKey provider other <> Routing.accountKey provider accountId)
    by (intros H; apply accountKey_inj in H; contradiction).
  unfold Routing.toggleAccountDisabled, Routing.isAccountDisabled. cbv zeta.
  destruct (queueIncludes disabledAccounts (Routing.accountKey provider accountId)); simpl.
  - destruct (queueIncludes disabledAccounts (Routing.accountKey provider other)) eqn:E.
    + apply queueIncludes_elem. apply queueIncludes_elem in E.
      apply removeFromQueue_keeps; assumption.
    + destruct (queueIncludes (removeFromQueue _ _) _) eqn:E'; [|reflexivity].
      apply queueIncludes_elem, removeFromQueue_subset, queueIncludes_elem in E'.
      congruence.
  - unfold queueIncludes. rewrite existsb_app. simpl.
    destruct (String.eqb_spec (Routing.accountKey provider other)
                (Routing.accountKey provider accountId)); [contradiction|].
    now rewrite !orb_false_r.
Qed.

Lemma toggle_self (provider accountId : string) (disabledAccounts : list string) :
  NoDup disabledAccounts ->
  Routing.isAccountDisabled
    (snd (Routing.toggleAccountDisabled provider accountId disabledAccounts))
    provider accountId
  = negb (Routing.isAccountDisabled disabledAccounts provider accountId)
  /\ NoDup (snd (Routing.toggleAccountDisabled provider accountId disabledAccounts)).
Proof.
  intros Hnd. unfold Routing.toggleAccountDisabled, Routing.isAccountDisabled. cbv zeta.
  destruct (queueIncludes disabledAccounts (Routing.accountKey provider accountId)) eqn:E;
    simpl.
  - destruct (removeFromQueue_NoDup disabledAccounts
                (Routing.accountKey provider accountId) Hnd) as [Hnd' Hout].
    split; [|exact Hnd'].
    destruct (queueIncludes (removeFromQueue _ _) _) eqn:E'; [|reflexivity].
    apply queueIncludes_elem in E'. contradiction.
  - split.
    + apply queueIncludes_elem, elem_of_app. right. apply list_elem_of_here.
    + apply NoDup_app. split; [exact Hnd|]. split; [|apply NoDup_singleton].
      intros x Hx Hx'. apply list_elem_of_singleton in Hx'. subst x.
      apply queueIncludes_elem in Hx. congruence.
Qed.

(** X26: [toggleAccountDisabled] reports the opposite of what
    [isAccountDisabled] said before it, and leaves every other account of
    the provider as it was.  When the saved list names no account twice,
    the account then is what the call reports, the list still names no
    account twice, and a second toggle puts every account back where it
    was. *)
Theorem X26_toggle_flips_one_account
    (provider accountId : string) (disabledAccounts : list string) :
  let toggled := Routing.toggleAccountDisabled provider accountId disabledAccounts in
  fst toggled = negb (Routing.isAccountDisabled disabledAccounts provider accountId)
  /\ (forall other, other <> accountId ->
        Routing.isAccountDisabled (snd toggled) provider other
        = Routing.isAccountDisabled disabledAccounts provider other)
  /\ (NoDup disabledAccounts ->
      Routing.isAccountDisabled (snd toggled) provider accountId = fst toggled
      /\ NoDup (snd toggled)
      /\ forall any,
           Routing.isAccountDisabled
             (snd (Routing.toggleAccountDisabled provider accountId (snd toggled)))
             provider any
           = Routing.isAccountDisabled disabledAccounts provider any).
Proof.
  intros toggled.
  assert (Hflag : fst toggled
                  = negb (Routing.isAccountDisabled disabledAccounts provider accountId)).
  { subst toggled. unfold Routing.toggleAccountDisabled, Routing.isAccountDisabled.
    cbv zeta. now destruct (queueIncludes _ _). }
  split; [exact Hflag|]. split; [intros other; apply toggle_other|].
  intros Hnd. destruct (toggle_self provider accountId disabledAccounts Hnd) as [Hself Hnd'].
  fold toggled in Hself, Hnd'.
  split; [now rewrite Hflag|]. split; [exact Hnd'|].
  intros any. destruct (String.eqb_spec any accountId) as [->|Hne].
  - destruct (toggle_self provider accountId (snd toggled) Hnd') as [Hagain _].
    rewrite Hagain, Hself. apply negb_involutive.
  - rewrite toggle_other by exact Hne. apply toggle_other, Hne.
Qed.

Lemma X26_witness :
  Routing.isAccountDisabled
    (snd (Routing.toggleAccountDisabled "antigravity" "a" ["antigravity:b"]))
    "antigravity" "a"
  = fst (Routing.toggleAccountDisabled "antigravity" "a" ["antigravity:b"])
  /\ NoDup (snd (Routing.toggleAccountDisabled "antigravity" "a" ["antigravity:b"]))
  /\ forall any,
       Routing.isAccountDisabled
         (snd (Routing.toggleAccountDisabled "antigravity" "a"
                 (snd (Routing.toggleAccountDisabled "antigravity" "a" ["antigravity:b"]))))
         "antigravity" any
       = Routing.isAccountDisabled ["antigravity:b"] "antigravity" any.
Proof.
  destruct (X26_toggle_flips_one_account "antigravity" "a" ["antigravity:b"])
    as (_ & _ & H).
  apply H. apply NoDup_singleton.
Defined.

(** ** Model name normalization *)

Lemma append_empty_r (s : string) : s ++ EmptyString = s.
Proof. induction s as [|c s IH]; [reflexivity|]. now rewrite append_cons, IH. Qed.

Lemma dropPrefix_app (p s : string) : Json.dropPrefix p (p ++ s) = Some s.
Proof.
  induction p as [|c p IH]; [now destruct s|].
  rewrite append_cons. simpl. now rewrite Ascii.eqb_refl.
Qed.

Lemma dropPrefix_Some (p s r : string) : Json.dropPrefix p s = Some r -> s = p ++ r.
Proof.
  revert s. induction p as [|c p IH]; intros s; simpl.
  - intros [= ->]. reflexivity.
  - destruct s as [|b s]; [discriminate|].
    destruct (Ascii.eqb_spec c b) as [->|]; [|discriminate].
    intros H. rewrite append_cons. f_equal. apply IH, H.
Qed.

Lemma takeDigits_spec (s d r : string) :
  Json.takeDigits s = (d, r) ->
  s = d ++ r /\ allDigits d = true /\ noLeadingDigit r = true.
Proof.
  revert d r. induction s as [|c s IH]; intros d r; simpl.
  - intros [= <- <-]. repeat split.
  - destruct (Json.isDigit c) eqn:Hc.
    + destruct (Json.takeDigits s) as [d' r'] eqn:E. intros [= <- <-].
      destruct (IH d' r' eq_refl) as (-> & Hd & Hr).
      rewrite append_cons. simpl. rewrite Hc, Hd. repeat split. exact Hr.
    + intros [= <- <-]. rewrite append_nil. simpl. rewrite Hc. repeat split.
Qed.

Lemma takeDigits_app (d r : string) :
  allDigits d = true -> noLeadingDigit r = true -> Json.takeDigits (d ++ r) = (d, r).
Proof.
  intros Hd Hr. induction d as [|c d IH].
  - rewrite append_nil. destruct r as [|c r]; [reflexivity|].
    simpl in *. apply negb_true_iff in Hr. now rewrite Hr.
  - rewrite append_cons. simpl in *. apply andb_true_iff in Hd as [Hc Hd].
    now rewrite Hc, (IH Hd).
Qed.

Lemma dropFamily_families (s family r : string) :
  ModelNames.dropFamily ModelNames.families s = Some (family, r) ->
  s = family ++ r
  /\ forall t, ModelNames.dropFamily ModelNames.families (family ++ t) = Some (family, t).
Proof.
  unfold ModelNames.families. cbn [ModelNames.dropFamily].
  destruct (Json.dropPrefix "sonnet" s) as [r0|] eqn:E1.
  { intros [= <- <-]. split; [apply dropPrefix_Some, E1|].
    intros t. now rewrite dropPrefix_app. }
  destruct (Json.dropPrefix "opus" s) as [r0|] eqn:E2.
  { intros [= <- <-]. split; [apply dropPrefix_Some, E2|].
    intros t. now rewrite dropPrefix_app. }
  destruct (Json.dropPrefix "haiku" s) as [r0|] eqn:E3; [|discriminate].
  intros [= <- <-]. split; [apply dropPrefix_Some, E3|].
  intros t. now rewrite dropPrefix_app.
Qed.

Lemma matchDate_isBase (s base : string) :
  ModelNames.matchDate s = Some base -> isBase base = true.
Proof.
  unfold ModelNames.matchDate.
  destruct (Json.dropPrefix "claude-" s) as [r1|]; [|discriminate].
  destruct (ModelNames.dropFamily ModelNames.families r1) as [[family r2]|] eqn:Ef;
    [|discriminate].
  destruct (Json.dropPrefix "-" r2) as [r3|]; [|discriminate].
  destruct (Json.takeDigits r3) as [major r4] eqn:E1.
  destruct major as [|c1 major]; [discriminate|].
  destruct (Json.dropPrefix "-" r4) as [r5|]; [|discriminate].
  destruct (Json.takeDigits r5) as [minor r6] eqn:E2.
  destruct minor as [|c2 minor]; [discriminate|].
  destruct (Json.dropPrefix "-" r6) as [r7|]; [|discriminate].
  destruct (Json.takeDigits r7) as [date r8].
  destruct (_ && _); [|discriminate]. intros [= <-].
  destruct (takeDigits_spec _ _ _ E1) as (_ & Hmajor & _).
  destruct (takeDigits_spec _ _ _ E2) as (_ & Hminor & _).
  destruct (dropFamily_families _ _ _ Ef) as [_ Hfam].
  unfold isBase. rewrite dropPrefix_app, Hfam, dropPrefix_app.
  rewrite (takeDigits_app (String c1 major) ("-" ++ String c2 minor) Hmajor eq_refl).
  rewrite dropPrefix_app.
  rewrite <- (append_empty_r (String c2 minor)) at 1.
  rewrite (takeDigits_app (String c2 minor) EmptyString Hminor eq_refl). reflexivity.
Qed.

Lemma isBase_no_date (base : string) :
  isBase base = true -> ModelNames.matchDate base = None.
Proof.
  unfold isBase, ModelNames.matchDate.
  destruct (Json.dropPrefix "claude-" base) as [r1|]; [|reflexivity].
  destruct (ModelNames.dropFamily ModelNames.families r1) as [[family r2]|]; [|reflexivity].
  destruct (Json.dropPrefix "-" r2) as [r3|]; [|reflexivity].
  destruct (Json.takeDigits r3) as [major r4].
  destruct major as [|c1 major]; [reflexivity|].
  destruct (Json.dropPrefix "-" r4) as [r5|]; [|reflexivity].
  destruct (Json.takeDigits r5) as [minor r6].
  destruct minor as [|c2 minor]; [reflexivity|].
  destruct r6; [reflexivity | discriminate].
Qed.

Lemma known_keys_not_base :
  Forall (fun key => isBase key = false)
    (JsMap.keys ModelNames.MODEL_ALIASES ++ ModelNames.objectPrototypeKeys).
Proof. repeat constructor. Qed.

Lemma aliases_are_normal :
  Forall (fun entry => ModelNames.normalizeModelName (snd entry) = ModelNames.Name (snd entry))
    ModelNames.MODEL_ALIASES.
Proof. repeat constructor. Qed.

Lemma base_is_normal (base : string) :
  isBase base = true ->
  ModelNames.normalizeModelName base = ModelNames.Name base.
Proof.
  intros Hbase. unfold ModelNames.normalizeModelName. cbv zeta.
  pose proof known_keys_not_base as Hkeys. rewrite Forall_forall in Hkeys.
  destruct (JsMap.get base ModelNames.MODEL_ALIASES) as [alias|] eqn:Hget.
  - apply get_Some_keys in Hget.
    rewrite (Hkeys base) in Hbase; [discriminate|].
    apply elem_of_app. left. exact Hget.
  - destruct (existsb (String.eqb base) ModelNames.objectPrototypeKeys) eqn:Hproto.
    + apply existsb_exists in Hproto as (key & Hin & Heq).
      apply String.eqb_eq in Heq. subst key.
      rewrite (Hkeys base) in Hbase; [discriminate|].
      apply elem_of_app. right. apply list_elem_of_In, Hin.
    + now rewrite (isBase_no_date base Hbase).
Qed.

(** X27: normalizing a model name twice gives what normalizing it once
    gives: a name that [normalizeModelName] returns is returned unchanged
    when passed in again.  (For the twelve names that an object inherits
    from [Object.prototype] the function returns the inherited member, not
    a name.) *)
Theorem X27_normalizeModelName_idempotent (modelName name : string) :
  ModelNames.normalizeModelName modelName = ModelNames.Name name ->
  ModelNames.normalizeModelName name = ModelNames.Name name.
Proof.
  unfold ModelNames.normalizeModelName at 1. cbv zeta.
  assert (Hpattern : match ModelNames.matchDate modelName with
                     | Some base => ModelNames.Name base
                     | None => ModelNames.Name modelName
                     end = ModelNames.Name name ->
                     JsMap.get modelName ModelNames.MODEL_ALIASES = None
                     \/ JsMap.get modelName ModelNames.MODEL_ALIASES = Some EmptyString ->
                     existsb (String.eqb modelName) ModelNames.objectPrototypeKeys = false
                     \/ JsMap.get modelName ModelNames.MODEL_ALIASES = Some EmptyString ->
                     ModelNames.normalizeModelName name = ModelNames.Name name).
  { destruct (ModelNames.matchDate modelName) as [base|] eqn:Hdate.
    - intros [= <-] _ _. apply base_is_normal. eapply matchDate_isBase, Hdate.
    - intros [= <-] Hown Hproto. unfold ModelNames.normalizeModelName. cbv zeta.
      rewrite Hdate.
      destruct Hown as [Hown|Hown]; rewrite Hown; [|reflexivity].
      destruct Hproto as [Hproto|Hproto]; [now rewrite Hproto | congruence]. }
  destruct (JsMap.get modelName ModelNames.MODEL_ALIASES) as [[|c r]|] eqn:Hget.
  - intros H. apply Hpattern; [exact H | now right | now right].
  - intros [= <-]. apply get_elem_of in Hget.
    pose proof aliases_are_normal as Hall. rewrite Forall_forall in Hall.
    apply (Hall _ Hget).
  - destruct (existsb (String.eqb modelName) ModelNames.objectPrototypeKeys) eqn:Hproto;
      [discriminate|].
    intros H. apply Hpattern; [exact H | now left | now left].
Qed.

Lemma X27_witness :
  ModelNames.normalizeModelName "claude-opus-4-1" = ModelNames.Name "claude-opus-4-1".
Proof.
  apply (X27_normalizeModelName_idempotent "claude-opus-4-1-20250805" "claude-opus-4-1").
  reflexivity.
Defined.

(** ** Lockouts run out *)

(** X28: the remaining wait counts down with the clock.  If nothing is
    recorded in between, what [getRateLimitRemaining] reports at a later
    time is what it reported before less the time that has passed, and
    never below 0; so once the reported wait is over the account is no
    longer limited for that model. *)
Theorem X28_remaining_counts_down
    (T T' : Z) (accountId : string) (modelId : option string) (m : Manager) :
  T <= T' ->
  getRateLimitRemaining T' accountId modelId m
  = Z.max 0 (getRateLimitRemaining T accountId modelId m - (T' - T))
  /\ isAccountRateLimited (T + getRateLimitRemaining T accountId modelId m)
       accountId modelId m = false.
Proof.
  intros HT. unfold getRateLimitRemaining, isAccountRateLimited.
  destruct (JsMap.get accountId (accounts m)) as [a|]; [|split; [lia | reflexivity]].
  destruct (rateLimitedUntil a) as [u|];
    destruct (given modelId);
    destruct (negb (bool_decide (getModelCategory modelId = unknownCategory)));
    destruct (categoryRateLimits a !! getModelCategory modelId) as [l|];
    cbv zeta;
    repeat match goal with
           | |- context [?x <? ?y] => destruct (Z.ltb_spec x y)
           end;
    split; try reflexivity; try lia.
Qed.

Lemma X28_witness :
  getRateLimitRemaining 31000 "a" None lockedManager
  = Z.max 0 (getRateLimitRemaining 1000 "a" None lockedManager - (31000 - 1000))
  /\ isAccountRateLimited (1000 + getRateLimitRemaining 1000 "a" None lockedManager)
       "a" None lockedManager = false.
Proof.
  apply (X28_remaining_counts_down 1000 31000 "a" None lockedManager). lia.
Defined.

(** ** The head of the queue *)



(** ** Failure counts *)

(** X30: the failure count that the cool-down schedule reads for a model
    is the one that recording moves.  Each lockout recorded for a
    registered account, by [markRateLimited] or by
    [markRateLimitedFromError], raises it by one, and a success recorded
    for the model puts it back to 0. *)
Theorem X30_failure_count_rises_and_resets
    (accountId : string) (modelId : option string) (m : Manager) (account : Account) :
  JsMap.get accountId m.(accounts) = Some account ->
  (forall now durationMs,
      exists a', JsMap.get accountId (markRateLimited now accountId durationMs modelId m).(accounts)
                 = Some a'
                 /\ failuresOf a' modelId = failuresOf account modelId + 1)
  /\ (forall ctx statusCode errorText,
        exists a', JsMap.get accountId
                     (fst (markRateLimitedFromError ctx accountId statusCode errorText
                             modelId m)).(accounts)
                   = Some a'
                   /\ failuresOf a' modelId = failuresOf account modelId + 1)
  /\ exists a', JsMap.get accountId (markSuccess accountId modelId m).(accounts) = Some a'
                /\ failuresOf a' modelId = 0.
Proof.
  intros Hget.
  assert (Hrecord : forall u,
             failuresOf (recordLimit account modelId u) modelId
             = failuresOf account modelId + 1).
  { intros u. unfold failuresOf, recordLimit, categoryScoped, existingLimit. cbv zeta.
    destruct (bool_decide (getModelCategory modelId = unknownCategory)) eqn:Hcat; simpl.
    - reflexivity.
    - assert (Hgiven : given modelId = true).
      { apply category_known_given. now apply bool_decide_eq_false in Hcat. }
      rewrite Hgiven. simpl. rewrite lookup_insert_eq.
      now destruct (categoryRateLimits account !! getModelCategory modelId). }
  split; [|split].
  - intros now durationMs. unfold markRateLimited. rewrite Hget.
    eexists. split; [simpl; apply get_set_eq | apply Hrecord].
  - intros ctx statusCode errorText. unfold markRateLimitedFromError. rewrite Hget.
    destruct (lockoutFor ctx account statusCode _ modelId) as [durationMs limitedUntil].
    eexists. split; [simpl; apply get_set_eq | apply Hrecord].
  - unfold markSuccess. rewrite Hget. eexists. split; [simpl; apply get_set_eq|].
    unfold failuresOf, categoryScoped. cbv zeta.
    destruct (bool_decide (getModelCategory modelId = unknownCategory)) eqn:Hcat; simpl.
    + reflexivity.
    + assert (Hgiven : given modelId = true).
      { apply category_known_given. now apply bool_decide_eq_false in Hcat. }
      rewrite Hgiven. simpl. now rewrite lookup_delete_eq.
Qed.

Lemma X30_witness :
  (forall now durationMs,
      exists a', JsMap.get "a" (markRateLimited now "a" durationMs (Some "gemini-3-pro-image")
                                  lockedManager).(accounts)
                 = Some a'
                 /\ failuresOf a' (Some "gemini-3-pro-image")
                    = failuresOf lockedAccount (Some "gemini-3-pro-image") + 1)
  /\ (forall ctx statusCode errorText,
        exists a', JsMap.get "a"
                     (fst (markRateLimitedFromError ctx "a" statusCode errorText
                             (Some "gemini-3-pro-image") lockedManager)).(accounts)
                   = Some a'
                   /\ failuresOf a' (Some "gemini-3-pro-image")
                      = failuresOf lockedAccount (Some "gemini-3-pro-image") + 1)
  /\ exists a', JsMap.get "a" (markSuccess "a" (Some "gemini-3-pro-image")
                                 lockedManager).(accounts) = Some a'
                /\ failuresOf a' (Some "gemini-3-pro-image") = 0.
Proof.
  apply (X30_failure_count_rises_and_resets "a" (Some "gemini-3-pro-image") lockedManager
           lockedAccount).
  reflexivity.
Defined.
